(** * log-cache: the in-memory envelope store, the routing hash and the
    batched ingress client, embedded in Rocq.

    The development follows the Go sources:
    - [internal/store] (type [Store], [Put], [truncate], [Get],
      [treeTraverse], [checkEnvelopeType], [treeStorage]);
    - [logcache.setupRouting] (the CRC-64 [hasher]);
    - [internal/routing] ([BatchedIngressClient]).

    Third-party packages the sources import (gods [avltree], Go's
    [hash/crc64], [go-diodes], [go-batching]) are modelled next to the
    code that uses them. *)

From Stdlib Require Import ZArith Lia Bool String Ascii.
From stdpp Require Import gmap strings list fin_maps sorting pretty.

Local Open Scope Z_scope.

(** ** Panics

    Go code that dereferences a nil node or hits [panic(..)] does not
    return: such a call is modelled by [Panic]. *)

Inductive result (A : Type) : Type :=
| Ok (a : A)
| Panic (msg : string).
Arguments Ok {A} a.
Arguments Panic {A} msg.

Global Instance result_bind : MBind result := λ A B k r,
  match r with
  | Ok a => k a
  | Panic m => Panic m
  end.
Global Instance result_ret : MRet result := λ A a, Ok a.

Definition nil_deref : string := "invalid memory address or nil pointer dereference".

(** ** Association lists ordered by key

    The in-order contents of a search tree; every tree operation is
    characterised by what it does to this list. *)

Section assoc.
Context {V : Type}.
Implicit Types (l : list (Z * V)) (k : Z) (v : V).

Definition sorted l : Prop := StronglySorted Z.lt (l.*1).

Fixpoint ins_list k v l : list (Z * V) :=
  match l with
  | [] => [(k, v)]
  | (k', v') :: l' =>
      match k ?= k' with
      | Lt => (k, v) :: l
      | Eq => (k, v) :: l'
      | Gt => (k', v') :: ins_list k v l'
      end
  end.

Fixpoint del_list k l : list (Z * V) :=
  match l with
  | [] => []
  | (k', v') :: l' => if k =? k' then l' else (k', v') :: del_list k l'
  end.

Fixpoint assoc k l : option V :=
  match l with
  | [] => None
  | (k', v') :: l' => if k =? k' then Some v' else assoc k l'
  end.

Lemma sorted_nil : sorted [].
Proof. constructor. Qed.

Lemma sorted_cons k v l :
  sorted ((k, v) :: l) ↔ Forall (λ p, k < p.1) l ∧ sorted l.
Proof.
  unfold sorted. rewrite fmap_cons, StronglySorted_cons, Forall_fmap. done.
Qed.

Lemma sorted_app l1 l2 :
  sorted (l1 ++ l2) ↔
  (∀ p1 p2, p1 ∈ l1 → p2 ∈ l2 → p1.1 < p2.1) ∧ sorted l1 ∧ sorted l2.
Proof.
  unfold sorted. rewrite fmap_app, StronglySorted_app. split.
  - intros (H & ? & ?). split_and!; [|done..].
    intros p1 p2 ? ?. apply H; by apply list_elem_of_fmap_2.
  - intros (H & ? & ?). split_and!; [|done..].
    intros x1 x2 (p1 & -> & ?)%list_elem_of_fmap (p2 & -> & ?)%list_elem_of_fmap.
    by apply H.
Qed.

Lemma sorted_head_min k v l p :
  sorted ((k, v) :: l) → p ∈ (k, v) :: l → k ≤ p.1.
Proof.
  intros [Hlt _]%sorted_cons [->|Hp]%elem_of_cons; [simpl; lia|].
  rewrite Forall_forall in Hlt. apply Hlt in Hp. lia.
Qed.

Lemma assoc_None k l : assoc k l = None ↔ k ∉ l.*1.
Proof.
  induction l as [|[k' v'] l IH]; simpl.
  - split; [intros _; apply not_elem_of_nil | done].
  - rewrite not_elem_of_cons. destruct (Z.eqb_spec k k'); naive_solver.
Qed.

Lemma assoc_Some_elem k v l : assoc k l = Some v → (k, v) ∈ l.
Proof.
  induction l as [|[k' v'] l IH]; simpl; [done|].
  destruct (Z.eqb_spec k k') as [->|]; [intros [= ->]; left | right; auto].
Qed.

Lemma elem_assoc k v l : sorted l → (k, v) ∈ l → assoc k l = Some v.
Proof.
  induction l as [|[k' v'] l IH]; [by intros _ ?%elem_of_nil|].
  intros [Hlt Hs]%sorted_cons [[= -> ->]|Hin]%elem_of_cons; simpl.
  - by rewrite Z.eqb_refl.
  - destruct (Z.eqb_spec k k') as [->|]; [|auto].
    rewrite Forall_forall in Hlt. apply Hlt in Hin. simpl in Hin. lia.
Qed.

Lemma assoc_lt_None k k' v' l :
  sorted ((k', v') :: l) → k < k' → assoc k ((k', v') :: l) = None.
Proof.
  intros Hs Hlt. apply assoc_None. intros Hin.
  apply list_elem_of_fmap in Hin as (p & -> & Hp).
  pose proof (sorted_head_min _ _ _ _ Hs Hp). lia.
Qed.

Lemma assoc_app k l1 l2 :
  assoc k (l1 ++ l2) =
  match assoc k l1 with Some v => Some v | None => assoc k l2 end.
Proof.
  induction l1 as [|[k' v'] l1 IH]; simpl; [done|].
  by destruct (Z.eqb_spec k k').
Qed.

Lemma ins_list_length k v l :
  sorted l →
  length (ins_list k v l) =
  if assoc k l is Some _ then length l else S (length l).
Proof.
  induction l as [|[k' v'] l IH]; [done|].
  intros Hs. pose proof Hs as [_ Hs']%sorted_cons.
  cbn [ins_list]. destruct (Z.compare_spec k k') as [->|Hlt|Hgt].
  - simpl. by rewrite Z.eqb_refl.
  - by rewrite (assoc_lt_None _ _ _ _ Hs Hlt).
  - simpl. destruct (Z.eqb_spec k k'); [lia|]. rewrite IH by done.
    by destruct (assoc k l).
Qed.

Lemma elem_of_ins_list p k v l :
  sorted l → p ∈ ins_list k v l ↔ p = (k, v) ∨ (p ∈ l ∧ p.1 ≠ k).
Proof.
  induction l as [|[k' v'] l IH]; simpl.
  - intros _. rewrite list_elem_of_singleton. set_solver.
  - intros [Hlt Hs]%sorted_cons. rewrite Forall_forall in Hlt.
    destruct (Z.compare_spec k k') as [->| |]; rewrite !elem_of_cons.
    + split; [intros [|Hp]; [by left|]|].
      * right. split; [by right|]. apply Hlt in Hp. lia.
      * intros [|[[->|] ?]]; [by left|done|by right].
    + split; [intros [|[->|Hp]]; [by left|right; split; [by left|simpl; lia]|]|].
      * right. split; [by right|]. apply Hlt in Hp. lia.
      * intros [|[? _]]; [by left|by right].
    + rewrite IH by done. split.
      * intros [->|[|[]]]; [right; split; [by left|simpl; lia]|by left|].
        right. split; [by right|done].
      * intros [|[[->|] ?]]; [right; by left|by left|right; right; done].
Qed.

Lemma ins_list_sorted k v l : sorted l → sorted (ins_list k v l).
Proof.
  induction l as [|[k' v'] l IH]; simpl.
  - intros _. apply sorted_cons. split; [constructor|apply sorted_nil].
  - intros Hs. pose proof Hs as [Hlt Hs']%sorted_cons.
    destruct (Z.compare_spec k k') as [->| |].
    + apply sorted_cons. done.
    + apply sorted_cons. split; [|done]. constructor; [done|].
      eapply Forall_impl; [done|]. simpl. intros; lia.
    + apply sorted_cons. split; [|by apply IH].
      apply Forall_forall. intros p [->|[Hp _]]%elem_of_ins_list; [simpl; lia| |done].
      rewrite Forall_forall in Hlt. by apply Hlt.
Qed.

Lemma del_list_notin k l : k ∉ l.*1 → del_list k l = l.
Proof.
  induction l as [|[k' v'] l IH]; simpl; [done|].
  rewrite not_elem_of_cons. intros [? ?].
  destruct (Z.eqb_spec k k'); [done|]. by rewrite IH.
Qed.

Lemma del_list_app k l1 l2 :
  del_list k (l1 ++ l2) =
  if assoc k l1 is Some _ then del_list k l1 ++ l2 else l1 ++ del_list k l2.
Proof.
  induction l1 as [|[k' v'] l1 IH]; simpl; [done|].
  destruct (Z.eqb_spec k k'); [done|]. rewrite IH. by destruct (assoc k l1).
Qed.

Lemma elem_of_del_list p k l :
  sorted l → p ∈ del_list k l ↔ p ∈ l ∧ p.1 ≠ k.
Proof.
  induction l as [|[k' v'] l IH]; simpl.
  - intros _. set_solver.
  - intros [Hlt Hs]%sorted_cons. rewrite Forall_forall in Hlt.
    destruct (Z.eqb_spec k k') as [->|].
    + rewrite elem_of_cons. split.
      * intros Hp. split; [by right|]. apply Hlt in Hp. lia.
      * intros [[->|] ?]; done.
    + rewrite !elem_of_cons, IH by done. split.
      * intros [->|[]]; [split; [by left|done]|split; [by right|done]].
      * intros [[|] ?]; [by left|by right].
Qed.

Lemma del_list_sorted k l : sorted l → sorted (del_list k l).
Proof.
  induction l as [|[k' v'] l IH]; simpl; [done|].
  intros [Hlt Hs]%sorted_cons. destruct (Z.eqb_spec k k'); [done|].
  apply sorted_cons. split; [|by apply IH].
  apply Forall_forall. intros p [Hp _]%elem_of_del_list; [|done].
  rewrite Forall_forall in Hlt. by apply Hlt.
Qed.

Lemma del_list_length k l :
  length (del_list k l) =
  if assoc k l is Some _ then Nat.pred (length l) else length l.
Proof.
  induction l as [|[k' v'] l IH]; simpl; [done|].
  destruct (Z.eqb_spec k k'); [done|]. simpl. rewrite IH.
  destruct (assoc k l) eqn:E; [|done].
  destruct l; [done|]. simpl. done.
Qed.

Lemma sorted_NoDup_keys l : sorted l → NoDup (l.*1).
Proof.
  unfold sorted. induction (l.*1) as [|a ks IH]; [constructor|].
  intros [Hlt Hs]%StronglySorted_cons. constructor; [|auto].
  intros Hin. rewrite Forall_forall in Hlt. apply Hlt in Hin. lia.
Qed.
Lemma assoc_ins_list k' k v l :
  sorted l → assoc k' (ins_list k v l) = if k' =? k then Some v else assoc k' l.
Proof.
  induction l as [|[a va] l IH]; intros Hs; simpl.
  - by destruct (k' =? k).
  - pose proof Hs as [Hlt Hs']%sorted_cons.
    destruct (Z.compare_spec k a) as [->|Hka|Hka]; simpl.
    + by destruct (Z.eqb_spec k' a).
    + by destruct (Z.eqb_spec k' k).
    + rewrite IH by done. destruct (Z.eqb_spec k' a), (Z.eqb_spec k' k); (done || lia).
Qed.

Lemma assoc_del_list k' k l :
  sorted l → assoc k' (del_list k l) = if k' =? k then None else assoc k' l.
Proof.
  induction l as [|[a va] l IH]; intros Hs; simpl.
  - by destruct (k' =? k).
  - pose proof Hs as [Hlt Hs']%sorted_cons.
    destruct (Z.eqb_spec k a) as [->|Hka]; simpl.
    + destruct (Z.eqb_spec k' a) as [->|]; [|done].
      apply assoc_None. intros (p & Hp1 & Hp)%list_elem_of_fmap.
      rewrite Forall_forall in Hlt. apply Hlt in Hp. lia.
    + rewrite IH by done. destruct (Z.eqb_spec k' a), (Z.eqb_spec k' k); (done || lia).
Qed.

Lemma assoc_head k v l : assoc k ((k, v) :: l) = Some v.
Proof. simpl. by rewrite Z.eqb_refl. Qed.

Lemma assoc_is_Some_ge k v l k' :
  sorted ((k, v) :: l) → is_Some (assoc k' ((k, v) :: l)) → k ≤ k'.
Proof.
  intros Hs [v' Hv]. apply assoc_Some_elem in Hv.
  apply (sorted_head_min _ _ _ _ Hs Hv).
Qed.
End assoc.

(** ** The ordered index: [github.com/emirpasic/gods/trees/avltree]

    The store keeps every index in an AVL tree of the gods library,
    created with [utils.Int64Comparator].  The library is not part of the
    repository; it is modelled by a height-balanced search tree with the
    operations the store calls ([Put] replaces the value of a key that is
    present, [Remove] deletes a key, [Left] is the leftmost node, [Size]
    the number of nodes, [Get] the lookup).  [treeTraverse] of the store
    walks the nodes themselves, so the node shape ([Key], [Value], the
    two [Children]) is kept.  The balance of a node is stored as its
    height. *)

Module avltree.
Section tree.
Context {V : Type}.

Inductive Node : Type :=
| Nil
| Nd (Children0 : Node) (Key : Z) (Value : V) (ht : nat) (Children1 : Node).

Definition height (n : Node) : nat :=
  match n with Nil => 0%nat | Nd _ _ _ h _ => h end.

Definition node (l : Node) (k : Z) (v : V) (r : Node) : Node :=
  Nd l k v (S (Nat.max (height l) (height r))) r.

(** Rebalancing after the left (resp. right) subtree grew or the
    other one shrank: single or double rotation. *)
Definition balL (ab : Node) (k : Z) (v : V) (c : Node) : Node :=
  if (height ab =? height c + 2)%nat then
    match ab with
    | Nd a ka va _ b =>
        if (height b <=? height a)%nat then node a ka va (node b k v c)
        else
          match b with
          | Nd b1 kb vb _ b2 => node (node a ka va b1) kb vb (node b2 k v c)
          | Nil => node ab k v c
          end
    | Nil => node ab k v c
    end
  else node ab k v c.

Definition balR (a : Node) (k : Z) (v : V) (bc : Node) : Node :=
  if (height bc =? height a + 2)%nat then
    match bc with
    | Nd b kc vc _ c =>
        if (height b <=? height c)%nat then node (node a k v b) kc vc c
        else
          match b with
          | Nd b1 kb vb _ b2 => node (node a k v b1) kb vb (node b2 kc vc c)
          | Nil => node a k v bc
          end
    | Nil => node a k v bc
    end
  else node a k v bc.

(** [NewWith(utils.Int64Comparator)] *)
Definition NewWith : Node := Nil.

(** [Put]: insert, or replace the value when the key is present. *)
Fixpoint Put (k : Z) (v : V) (t : Node) : Node :=
  match t with
  | Nil => Nd Nil k v 1 Nil
  | Nd l k' v' h r =>
      match k ?= k' with
      | Eq => Nd l k v h r
      | Lt => balL (Put k v l) k' v' r
      | Gt => balR l k' v' (Put k v r)
      end
  end.

(** [Get] *)
Fixpoint Get (k : Z) (t : Node) : option V :=
  match t with
  | Nil => None
  | Nd l k' v' _ r =>
      match k ?= k' with
      | Eq => Some v'
      | Lt => Get k l
      | Gt => Get k r
      end
  end.

(** [Left]: the leftmost node ([nil] on the empty tree). *)
Fixpoint Left (t : Node) : option (Z * V) :=
  match t with
  | Nil => None
  | Nd Nil k v _ _ => Some (k, v)
  | Nd l _ _ _ _ => Left l
  end.

(** [Size] *)
Fixpoint Size (t : Node) : Z :=
  match t with
  | Nil => 0
  | Nd l _ _ _ r => Size l + 1 + Size r
  end.

Fixpoint split_max (l : Node) (k : Z) (v : V) (r : Node) : Node * (Z * V) :=
  match r with
  | Nil => (l, (k, v))
  | Nd rl rk rv _ rr =>
      let '(r', m) := split_max rl rk rv rr in (balL l k v r', m)
  end.

(** [Remove]: delete the key; nothing happens when it is absent. *)
Fixpoint Remove (k : Z) (t : Node) : Node :=
  match t with
  | Nil => Nil
  | Nd l k' v' _ r =>
      match k ?= k' with
      | Eq =>
          match l with
          | Nil => r
          | Nd ll lk lv _ lr =>
              let '(l', (mk, mv)) := split_max ll lk lv lr in balR l' mk mv r
          end
      | Lt => balR (Remove k l) k' v' r
      | Gt => balL l k' v' (Remove k r)
      end
  end.

(** In-order contents. *)
Fixpoint elements (t : Node) : list (Z * V) :=
  match t with
  | Nil => []
  | Nd l k v _ r => elements l ++ (k, v) :: elements r
  end.

Definition bst (t : Node) : Prop := sorted (elements t).

Lemma elements_node l k v r :
  elements (node l k v r) = elements l ++ (k, v) :: elements r.
Proof. done. Qed.

Lemma elements_balL l k v r :
  elements (balL l k v r) = elements l ++ (k, v) :: elements r.
Proof.
  unfold balL. destruct (height l =? height r + 2)%nat; [|done].
  destruct l as [|a ka va ? b]; [done|].
  destruct (height b <=? height a)%nat; simpl.
  - repeat (rewrite <-app_assoc; simpl); done.
  - destruct b; simpl; repeat (rewrite <-app_assoc; simpl); done.
Qed.

Lemma elements_balR l k v r :
  elements (balR l k v r) = elements l ++ (k, v) :: elements r.
Proof.
  unfold balR. destruct (height r =? height l + 2)%nat; [|done].
  destruct r as [|b kc vc ? c]; [done|].
  destruct (height b <=? height c)%nat; simpl.
  - repeat (rewrite <-app_assoc; simpl); done.
  - destruct b; simpl; repeat (rewrite <-app_assoc; simpl); done.
Qed.

Lemma ins_list_app_l k v (l1 l2 : list (Z * V)) k' v' :
  sorted (l1 ++ (k', v') :: l2) → k < k' →
  ins_list k v (l1 ++ (k', v') :: l2) = ins_list k v l1 ++ (k', v') :: l2.
Proof.
  induction l1 as [|[a va] l1 IH]; simpl; intros Hs Hlt.
  - destruct (Z.compare_spec k k'); [lia|done|lia].
  - apply sorted_cons in Hs as [_ Hs].
    destruct (Z.compare_spec k a); [done..|]. by rewrite IH.
Qed.

Lemma ins_list_app_r k v (l1 l2 : list (Z * V)) k' :
  sorted (l1 ++ l2) → Forall (λ p, p.1 < k') l1 → k' ≤ k →
  ins_list k v (l1 ++ l2) = l1 ++ ins_list k v l2.
Proof.
  induction l1 as [|[a va] l1 IH]; simpl; intros Hs Hl1 Hle; [done|].
  apply sorted_cons in Hs as [_ Hs].
  apply Forall_cons in Hl1 as [Ha Hl1]. simpl in Ha.
  destruct (Z.compare_spec k a); [lia..|]. by rewrite IH.
Qed.

Lemma bst_Nd l k v h r :
  bst (Nd l k v h r) ↔
  bst l ∧ bst r ∧ Forall (λ p, p.1 < k) (elements l) ∧
  Forall (λ p, k < p.1) (elements r).
Proof.
  unfold bst. simpl. rewrite sorted_app, sorted_cons, !Forall_forall.
  split.
  - intros (H & ? & Hr & ?). split_and!; [done..| |done].
    intros p Hp. apply (H p (k, v)); [done|left].
  - intros (? & ? & Hl & Hr). split_and!; [|done..].
    intros p1 p2 Hp1 [->|Hp2]%elem_of_cons; [by apply Hl|].
    apply Hl in Hp1. apply Hr in Hp2. lia.
Qed.

Lemma elements_Put k v t :
  bst t → elements (Put k v t) = ins_list k v (elements t).
Proof.
  induction t as [|l IHl k' v' h r IHr]; [done|].
  intros Hb. pose proof Hb as (Hbl & Hbr & Hl & Hr)%bst_Nd. simpl.
  destruct (Z.compare_spec k k') as [->|Hlt|Hgt].
  - simpl. rewrite (ins_list_app_r _ _ _ _ k'); [|done..|lia].
    simpl. by rewrite Z.compare_refl.
  - rewrite elements_balL, IHl by done. by rewrite ins_list_app_l.
  - rewrite elements_balR, IHr by done.
    rewrite (ins_list_app_r _ _ _ _ k'); [|done..|lia].
    simpl. by destruct (Z.compare_spec k k'); [lia..|].
Qed.

Lemma elements_split_max l k v r t m :
  split_max l k v r = (t, m) →
  elements t ++ [m] = elements l ++ (k, v) :: elements r.
Proof.
  revert l k v t m. induction r as [|rl _IH rk rv h rr IH]; intros l k v t m; simpl.
  - intros [= <- <-]. done.
  - destruct (split_max rl rk rv rr) as [r' m'] eqn:E. intros [= <- <-].
    rewrite elements_balL. apply IH in E. rewrite <-E.
    by rewrite <-app_assoc.
Qed.

Lemma del_list_last k (l : list (Z * V)) m :
  sorted (l ++ [m]) → m.1 < k → del_list k (l ++ [m]) = l ++ [m].
Proof.
  intros Hs Hlt. apply del_list_notin.
  intros (p & -> & Hp)%list_elem_of_fmap.
  apply sorted_app in Hs as (H & _ & _).
  apply elem_of_app in Hp as [Hp | ->%list_elem_of_singleton]; [|lia].
  specialize (H p m Hp ltac:(by left)). lia.
Qed.

Lemma elements_Remove k t :
  bst t → elements (Remove k t) = del_list k (elements t).
Proof.
  induction t as [|l IHl k' v' h r IHr]; [done|].
  intros Hb. pose proof Hb as (Hbl & Hbr & Hl & Hr)%bst_Nd. simpl.
  assert (Hnl : k' ≤ k → assoc k (elements l) = None).
  { intros ?. apply assoc_None. intros (p & -> & Hp)%list_elem_of_fmap.
    rewrite Forall_forall in Hl. apply Hl in Hp. lia. }
  assert (Hnr : k ≤ k' → del_list k (elements r) = elements r).
  { intros ?. apply del_list_notin. intros (p & -> & Hp)%list_elem_of_fmap.
    rewrite Forall_forall in Hr. apply Hr in Hp. lia. }
  rewrite del_list_app.
  destruct (Z.compare_spec k k') as [->|Hlt|Hgt].
  - rewrite Hnl by lia. simpl. rewrite Z.eqb_refl.
    destruct l as [|ll lk lv lh lr]; [done|].
    destruct (split_max ll lk lv lr) as [l' [mk mv]] eqn:E.
    rewrite elements_balR. apply elements_split_max in E.
    change (elements (Nd ll lk lv lh lr)) with (elements ll ++ (lk, lv) :: elements lr).
    rewrite <-E, <-app_assoc. done.
  - rewrite elements_balR, IHl by done.
    destruct (assoc k (elements l)) eqn:E; [done|].
    apply assoc_None in E. rewrite (del_list_notin _ _ E). simpl.
    destruct (Z.eqb_spec k k'); [lia|]. by rewrite Hnr by lia.
  - rewrite elements_balL, IHr by done. rewrite Hnl by lia. simpl.
    destruct (Z.eqb_spec k k'); [lia|done].
Qed.

Lemma bst_NewWith : bst NewWith.
Proof. exact sorted_nil. Qed.

Lemma bst_Put k v t : bst t → bst (Put k v t).
Proof. unfold bst. intros. rewrite elements_Put by done. by apply ins_list_sorted. Qed.

Lemma bst_Remove k t : bst t → bst (Remove k t).
Proof. unfold bst. intros. rewrite elements_Remove by done. by apply del_list_sorted. Qed.

Lemma Left_elements t : Left t = head (elements t).
Proof.
  induction t as [|l IHl k v h r _]; [done|]. simpl.
  destruct l as [|ll lk lv lh lr]; [done|]. rewrite IHl. simpl.
  by destruct (elements ll).
Qed.

Lemma Size_elements t : Size t = Z.of_nat (length (elements t)).
Proof.
  induction t as [|l IHl k v h r IHr]; [done|]. simpl.
  rewrite length_app. simpl. lia.
Qed.

Lemma Get_elements k t : bst t → Get k t = assoc k (elements t).
Proof.
  induction t as [|l IHl k' v' h r IHr]; [done|].
  intros (Hbl & Hbr & Hl & Hr)%bst_Nd. simpl.
  rewrite Forall_forall in Hl. rewrite Forall_forall in Hr.
  assert (Hnl : k' ≤ k → assoc k (elements l) = None).
  { intros ?. apply assoc_None. intros (p & -> & Hp)%list_elem_of_fmap.
    apply Hl in Hp. lia. }
  assert (Hnr : k ≤ k' → assoc k (elements r) = None).
  { intros ?. apply assoc_None. intros (p & -> & Hp)%list_elem_of_fmap.
    apply Hr in Hp. lia. }
  rewrite assoc_app. simpl.
  destruct (Z.compare_spec k k') as [->|Hlt|Hgt].
  - rewrite Hnl by lia. by rewrite Z.eqb_refl.
  - rewrite IHl by done. destruct (assoc k (elements l)); [done|].
    destruct (Z.eqb_spec k k'); [lia|]. by rewrite Hnr by lia.
  - rewrite IHr by done. rewrite Hnl by lia.
    by destruct (Z.eqb_spec k k'); [lia|].
Qed.

(** The operations seen through [Get], [Left] and [Size]. *)

Lemma Get_NewWith k : Get k NewWith = None.
Proof. done. Qed.

Lemma Get_Put k' k v t :
  bst t → Get k' (Put k v t) = if k' =? k then Some v else Get k' t.
Proof.
  intros Hb. rewrite !Get_elements, elements_Put by auto using bst_Put.
  by apply assoc_ins_list.
Qed.

Lemma Get_Remove k' k t :
  bst t → Get k' (Remove k t) = if k' =? k then None else Get k' t.
Proof.
  intros Hb. rewrite !Get_elements, elements_Remove by auto using bst_Remove.
  by apply assoc_del_list.
Qed.

Lemma Size_Put k v t :
  bst t → Size (Put k v t) = Size t + (if Get k t is Some _ then 0 else 1).
Proof.
  intros Hb. rewrite !Size_elements, elements_Put, ins_list_length by done.
  rewrite Get_elements by done. destruct (assoc k (elements t)); lia.
Qed.

Lemma Size_Remove k t :
  bst t → Size (Remove k t) = Size t - (if Get k t is Some _ then 1 else 0).
Proof.
  intros Hb. rewrite !Size_elements, elements_Remove, del_list_length by done.
  rewrite Get_elements by done. destruct (assoc k (elements t)) eqn:E; [|lia].
  apply assoc_Some_elem in E. destruct (elements t); [by apply elem_of_nil in E|].
  simpl. lia.
Qed.

Lemma Size_nonneg t : 0 ≤ Size t.
Proof. rewrite Size_elements. lia. Qed.

Lemma Left_None t : Left t = None ↔ Size t = 0.
Proof.
  rewrite Left_elements, Size_elements. destruct (elements t); simpl; [done|].
  split; [done|lia].
Qed.

Lemma Left_Some t k v :
  bst t → Left t = Some (k, v) →
  Get k t = Some v ∧ ∀ k', is_Some (Get k' t) → k ≤ k'.
Proof.
  intros Hb. rewrite Left_elements. unfold bst in Hb.
  split; [|intros k']; rewrite Get_elements by done;
    destruct (elements t) as [|[a va] l]; simplify_eq/=.
  - by rewrite Z.eqb_refl.
  - by apply assoc_is_Some_ge.
Qed.

Lemma Left_is_Some t : 0 < Size t → is_Some (Left t).
Proof.
  intros Hs. destruct (Left t) eqn:E; [done|]. apply Left_None in E. lia.
Qed.

Lemma Get_Some_Size t k v : bst t → Get k t = Some v → 0 < Size t.
Proof.
  intros Hb. rewrite Get_elements, Size_elements by done.
  intros ?%assoc_Some_elem. destruct (elements t); [by apply elem_of_nil in H|].
  simpl. lia.
Qed.

Lemma elem_of_elements k v t : bst t → (k, v) ∈ elements t ↔ Get k t = Some v.
Proof.
  intros Hb. rewrite Get_elements by done. split.
  - by apply elem_assoc.
  - apply assoc_Some_elem.
Qed.
End tree.
Arguments Node : clear implicits.
End avltree.

(** ** Envelopes: [loggregator_v2]

    The generated protobuf types, as far as the store reads them: the
    timestamp, the source id and the [Message] one-of with its getters
    (a getter returns [nil] when another variant, or none, is set). *)

Module loggregator_v2.
Record Log := { Payload : string }.
Record Counter := { Name : string; Total : Z }.
Record Gauge := { Metrics : list (string * Z) }.
Record Timer := { Start : Z; Stop : Z }.
Record Event := { Title : string; Body : string }.

Inductive isEnvelope_Message :=
| Envelope_Log (Log : option Log)
| Envelope_Counter (Counter : option Counter)
| Envelope_Gauge (Gauge : option Gauge)
| Envelope_Timer (Timer : option Timer)
| Envelope_Event (Event : option Event).

Record Envelope := {
  Timestamp : Z;
  SourceId : string;
  Message : option isEnvelope_Message;
}.

Definition GetLog (e : Envelope) : option Log :=
  match Message e with Some (Envelope_Log x) => x | _ => None end.
Definition GetCounter (e : Envelope) : option Counter :=
  match Message e with Some (Envelope_Counter x) => x | _ => None end.
Definition GetGauge (e : Envelope) : option Gauge :=
  match Message e with Some (Envelope_Gauge x) => x | _ => None end.
Definition GetTimer (e : Envelope) : option Timer :=
  match Message e with Some (Envelope_Timer x) => x | _ => None end.
Definition GetEvent (e : Envelope) : option Event :=
  match Message e with Some (Envelope_Event x) => x | _ => None end.
End loggregator_v2.

(** ** The store: [internal/store] *)

Module store.
Import loggregator_v2.

(** 64-bit signed wrap-around of Go's [int64] arithmetic. *)
Definition wrap64 (x : Z) : Z := (x + 2 ^ 63) mod 2 ^ 64 - 2 ^ 63.

Record envelopeWrapper := { e : Envelope; index : string }.

(** A [*avltree.Tree] held by the store: the position of the tree in the
    store's heap of allocated index trees.  Two handles are the same
    pointer exactly when they are equal. *)
Notation handle := nat (only parsing).

(** [treeStorage]: the trees sorted by their oldest timestamp; the value
    of a key is the slice of the trees registered under it. *)
Record treeStorage := { t : avltree.Node (list handle) }.

Definition newTreeStorage : treeStorage := {| t := avltree.NewWith |}.

Definition values_at (key : Z) (s : treeStorage) : list handle :=
  match avltree.Get key (t s) with
  | Some existing => existing
  | None => []
  end.

Definition treeStorage_Put (key : Z) (tr : handle) (s : treeStorage) : treeStorage :=
  {| t := avltree.Put key (values_at key s ++ [tr]) (t s) |}.

(** The loop of [treeStorage.Remove]: drop the first slot that holds the
    pointer [tr]. *)
Fixpoint remove_first (tr : handle) (values : list handle) : list handle :=
  match values with
  | [] => []
  | v :: vs => if (v =? tr)%nat then vs else v :: remove_first tr vs
  end.

Definition treeStorage_Remove (key : Z) (tr : handle) (s : treeStorage) : treeStorage :=
  let values := remove_first tr (values_at key s) in
  if (length values =? 0)%nat
  then {| t := avltree.Remove key (t s) |}
  else {| t := avltree.Put key values (t s) |}.

Definition treeStorage_Left (s : treeStorage) : result (Z * handle) :=
  match avltree.Left (t s) with
  | None => Panic nil_deref
  | Some (key, values) =>
      match values with
      | [] => Panic "index out of range"
      | tr :: _ => Ok (key, tr)
      end
  end.

(** [Store].  [heap] holds the index trees ever allocated by [Put]; the
    [indexes] map and [oldestValueTree] both point into it.  The four
    metric callbacks of the source are the counters and the gauge they
    feed. *)
Record Store := {
  size : Z;
  maxPerSource : Z;
  heap : list (avltree.Node envelopeWrapper);
  indexes : gmap string handle;
  oldestValueTree : treeStorage;
  count : Z;
  Expired : Z;
  CachePeriod : Z;
  Ingress : Z;
  Egress : Z;
}.

Definition NewStore (size maxPerSource : Z) : Store :=
  {| size := size; maxPerSource := maxPerSource;
     heap := []; indexes := ∅; oldestValueTree := newTreeStorage;
     count := 0; Expired := 0; CachePeriod := 0; Ingress := 0; Egress := 0 |}.

Definition set_heap (f : list (avltree.Node envelopeWrapper) → list (avltree.Node envelopeWrapper)) (s : Store) : Store :=
  {| size := size s; maxPerSource := maxPerSource s; heap := f (heap s);
     indexes := indexes s; oldestValueTree := oldestValueTree s;
     count := count s; Expired := Expired s; CachePeriod := CachePeriod s;
     Ingress := Ingress s; Egress := Egress s |}.
Definition set_indexes (f : gmap string handle → gmap string handle) (s : Store) : Store :=
  {| size := size s; maxPerSource := maxPerSource s; heap := heap s;
     indexes := f (indexes s); oldestValueTree := oldestValueTree s;
     count := count s; Expired := Expired s; CachePeriod := CachePeriod s;
     Ingress := Ingress s; Egress := Egress s |}.
Definition set_oldestValueTree (f : treeStorage → treeStorage) (s : Store) : Store :=
  {| size := size s; maxPerSource := maxPerSource s; heap := heap s;
     indexes := indexes s; oldestValueTree := f (oldestValueTree s);
     count := count s; Expired := Expired s; CachePeriod := CachePeriod s;
     Ingress := Ingress s; Egress := Egress s |}.
Definition set_count (f : Z → Z) (s : Store) : Store :=
  {| size := size s; maxPerSource := maxPerSource s; heap := heap s;
     indexes := indexes s; oldestValueTree := oldestValueTree s;
     count := f (count s); Expired := Expired s; CachePeriod := CachePeriod s;
     Ingress := Ingress s; Egress := Egress s |}.
Definition incExpired (delta : Z) (s : Store) : Store :=
  {| size := size s; maxPerSource := maxPerSource s; heap := heap s;
     indexes := indexes s; oldestValueTree := oldestValueTree s;
     count := count s; Expired := Expired s + delta; CachePeriod := CachePeriod s;
     Ingress := Ingress s; Egress := Egress s |}.
Definition setCachePeriod (value : Z) (s : Store) : Store :=
  {| size := size s; maxPerSource := maxPerSource s; heap := heap s;
     indexes := indexes s; oldestValueTree := oldestValueTree s;
     count := count s; Expired := Expired s; CachePeriod := value;
     Ingress := Ingress s; Egress := Egress s |}.
Definition incIngress (delta : Z) (s : Store) : Store :=
  {| size := size s; maxPerSource := maxPerSource s; heap := heap s;
     indexes := indexes s; oldestValueTree := oldestValueTree s;
     count := count s; Expired := Expired s; CachePeriod := CachePeriod s;
     Ingress := Ingress s + delta; Egress := Egress s |}.
Definition incEgress (delta : Z) (s : Store) : Store :=
  {| size := size s; maxPerSource := maxPerSource s; heap := heap s;
     indexes := indexes s; oldestValueTree := oldestValueTree s;
     count := count s; Expired := Expired s; CachePeriod := CachePeriod s;
     Ingress := Ingress s; Egress := Egress s + delta |}.

(** Dereference of a tree pointer. *)
Definition deref (s : Store) (tr : handle) : avltree.Node envelopeWrapper :=
  default avltree.Nil (heap s !! tr).

(** A method call that mutates the tree behind the pointer [tr]. *)
Definition mutate (tr : handle)
    (f : avltree.Node envelopeWrapper → avltree.Node envelopeWrapper)
    (s : Store) : Store :=
  set_heap (λ hp, <[tr := f (deref s tr)]> hp) s.

(** [t.Left().Key.(int64)] *)
Definition Left_Key {V} (n : avltree.Node V) : result Z :=
  match avltree.Left n with
  | Some (k, _) => Ok k
  | None => Panic nil_deref
  end.

(** [truncate] removes the oldest envelope from the entire cache. *)
Definition truncate (s : Store) : result Store :=
  if count s <=? size s then Ok s
  else
    let s := set_count (λ c, c - 1) s in
    let s := incExpired 1 s in
    '(key, oldTree) ← treeStorage_Left (oldestValueTree s);
    let s := set_oldestValueTree (treeStorage_Remove key oldTree) s in
    match avltree.Left (deref s oldTree) with
    | None => Panic nil_deref
    | Some (_, left_Value) =>
        let index := index left_Value in
        let s := mutate oldTree (avltree.Remove key) s in
        if avltree.Size (deref s oldTree) =? 0
        then Ok (set_indexes (delete index) s)
        else
          k ← Left_Key (deref s oldTree);
          Ok (set_oldestValueTree (treeStorage_Put k oldTree) s)
    end.

(** [Put], up to the call of [truncate] (the statements before
    [s.truncate()]). *)
Definition Put_insert (e : Envelope) (index : string) (s : Store) : result Store :=
  let s := incIngress 1 s in
  let '(t, s) :=
    match indexes s !! index with
    | Some t => (t, s)
    | None =>
        let t := length (heap s) in
        let s := set_heap (λ hp, hp ++ [avltree.NewWith]) s in
        let s := set_indexes (<[index := t]>) s in
        (t, set_oldestValueTree (treeStorage_Put (Timestamp e) t) s)
    end in
  '(oldest, hasOldest) ←
    (if 0 <? avltree.Size (deref s t)
     then k ← Left_Key (deref s t); Ok (k, true)
     else Ok (0, false));
  let preSize := avltree.Size (deref s t) in
  let s :=
    if maxPerSource s <=? preSize
    then incExpired 1 (mutate t (avltree.Remove oldest) s)
    else s in
  let s := mutate t (avltree.Put (Timestamp e) {| e := e; index := index |}) s in
  let s := set_count (λ c, c + (avltree.Size (deref s t) - preSize)) s in
  newOldest ← Left_Key (deref s t);
  Ok (if negb (oldest =? newOldest) && hasOldest
      then set_oldestValueTree
             (λ o, treeStorage_Put newOldest t (treeStorage_Remove oldest t o)) s
      else s).

(** [Put] adds an envelope to the store.  [now] is the reading of
    [time.Now().UnixNano()] used for the cache-period gauge. *)
Definition Put (now : Z) (e : Envelope) (index : string) (s : Store) : result Store :=
  s ← Put_insert e index s;
  s ← truncate s;
  '(oldestValue, _) ← treeStorage_Left (oldestValueTree s);
  let cachePeriod := Z.quot (wrap64 (now - oldestValue)) 1000000 in
  Ok (setCachePeriod cachePeriod s).

(** [EnvelopeType] is [interface{}]: [nil], a pointer to one of the five
    message types, or a value of any other dynamic type. *)
Inductive EnvelopeType :=
| nil_type
| ptr_Log | ptr_Counter | ptr_Gauge | ptr_Timer | ptr_Event
| other_type.

Definition checkEnvelopeType (e : Envelope) (t : EnvelopeType) : result bool :=
  match t with
  | nil_type => Ok true
  | ptr_Log => Ok (bool_decide (is_Some (GetLog e)))
  | ptr_Counter => Ok (bool_decide (is_Some (GetCounter e)))
  | ptr_Gauge => Ok (bool_decide (is_Some (GetGauge e)))
  | ptr_Timer => Ok (bool_decide (is_Some (GetTimer e)))
  | ptr_Event => Ok (bool_decide (is_Some (GetEvent e)))
  | other_type => Panic "unknown type"
  end.

(** [treeTraverse]; the callback [f] closes over mutable state, which is
    threaded through as [st]. *)
Fixpoint treeTraverse {St : Type} (n : avltree.Node envelopeWrapper)
    (start end_ : Z) (f : Envelope → string → St → result (St * bool))
    (st : St) : result (St * bool) :=
  match n with
  | avltree.Nil => Ok (st, false)
  | avltree.Nd c0 t w _ c1 =>
      if start <=? t then
        '(st, stop) ← treeTraverse c0 start end_ f st;
        if stop : bool then Ok (st, true)
        else if end_ <=? t then Ok (st, true)
        else
          '(st, stop) ← f (e w) (index w) st;
          if stop : bool then Ok (st, true)
          else treeTraverse c1 start end_ f st
      else treeTraverse c1 start end_ f st
  end.

(** The closure passed by [Get]: [res] is the captured slice. *)
Definition Get_visit (index : string) (envelopeType : EnvelopeType) (limit : Z)
    (e : Envelope) (idx : string) (res : list Envelope)
    : result (list Envelope * bool) :=
  ok ← (if String.eqb idx index then checkEnvelopeType e envelopeType else Ok false);
  let res := if ok : bool then res ++ [e] else res in
  Ok (res, limit <=? Z.of_nat (length res)).

(** [Get] fetches envelopes of [index] in [[start..end)]; [start] and
    [end_] are the [UnixNano] values of the two [time.Time] arguments.
    The egress counter is part of the returned store. *)
Definition Get (index : string) (start end_ : Z) (envelopeType : EnvelopeType)
    (limit : Z) (s : Store) : result (list Envelope * Store) :=
  match indexes s !! index with
  | None => Ok ([], s)
  | Some t =>
      '(res, _) ← treeTraverse (deref s t) start end_
                    (Get_visit index envelopeType limit) [];
      Ok (res, incEgress (Z.of_nat (length res)) s)
  end.

(** *** [treeTraverse] as a scan of the in-order contents *)

Fixpoint scan {St : Type} (l : list (Z * envelopeWrapper))
    (start end_ : Z) (f : Envelope → string → St → result (St * bool))
    (st : St) : result (St * bool) :=
  match l with
  | [] => Ok (st, false)
  | (t, w) :: l' =>
      if start <=? t then
        if end_ <=? t then Ok (st, true)
        else
          '(st, stop) ← f (e w) (index w) st;
          if stop : bool then Ok (st, true) else scan l' start end_ f st
      else scan l' start end_ f st
  end.

Section traverse.
Context {St : Type} (start end_ : Z)
        (f : Envelope → string → St → result (St * bool)).

Lemma scan_app l1 l2 st :
  scan (l1 ++ l2) start end_ f st =
  '(st', stop) ← scan l1 start end_ f st;
  if stop : bool then Ok (st', true) else scan l2 start end_ f st'.
Proof.
  revert st. induction l1 as [|[t w] l1 IH]; intros st; simpl; [done|].
  destruct (start <=? t); [|apply IH].
  destruct (end_ <=? t); [done|].
  destruct (f (e w) (index w) st) as [[st' [|]]|]; simpl; [done|apply IH|done].
Qed.

Lemma scan_below l st :
  Forall (λ p, p.1 < start) l → scan l start end_ f st = Ok (st, false).
Proof.
  induction 1 as [|[t w] l Hlt _ IH]; simpl; [done|].
  simpl in Hlt. destruct (Z.leb_spec start t); [lia|done].
Qed.

Lemma treeTraverse_scan n st :
  avltree.bst n →
  treeTraverse n start end_ f st = scan (avltree.elements n) start end_ f st.
Proof.
  revert st. induction n as [|c0 IH0 t w h c1 IH1]; intros st; [done|].
  intros (Hb0 & Hb1 & Hl & Hr)%avltree.bst_Nd. simpl.
  rewrite scan_app. simpl. destruct (Z.leb_spec start t).
  - rewrite IH0 by done.
    destruct (scan (avltree.elements c0) start end_ f st) as [[st' [|]]|];
      simpl; [done| |done].
    destruct (end_ <=? t); [done|].
    destruct (f (e w) (index w) st') as [[st'' [|]]|]; simpl; [done| |done].
    by apply IH1.
  - rewrite scan_below; [simpl; by apply IH1|].
    eapply Forall_impl; [done|]. simpl. intros; lia.
Qed.
End traverse.

(** The type test of [checkEnvelopeType] when it does not panic. *)
Definition matches_type (e : Envelope) (t : EnvelopeType) : bool :=
  match t with
  | nil_type | other_type => true
  | ptr_Log => bool_decide (is_Some (GetLog e))
  | ptr_Counter => bool_decide (is_Some (GetCounter e))
  | ptr_Gauge => bool_decide (is_Some (GetGauge e))
  | ptr_Timer => bool_decide (is_Some (GetTimer e))
  | ptr_Event => bool_decide (is_Some (GetEvent e))
  end.

Definition supported (t : EnvelopeType) : Prop := t ≠ other_type.

Lemma checkEnvelopeType_supported e t :
  supported t → checkEnvelopeType e t = Ok (matches_type e t).
Proof. by destruct t. Qed.

(** The entries [Get] is after: inside the window, stored under the
    requested index, of the requested type. *)
Definition in_window (start end_ : Z) (p : Z * envelopeWrapper) : bool :=
  (start <=? p.1) && (p.1 <? end_).
Definition wanted (idx : string) (ty : EnvelopeType) (p : Z * envelopeWrapper) : bool :=
  String.eqb (index p.2) idx && matches_type (e p.2) ty.

Definition selection (idx : string) (start end_ : Z) (ty : EnvelopeType)
    (l : list (Z * envelopeWrapper)) : list (Z * envelopeWrapper) :=
  filter (λ p, wanted idx ty p = true) (filter (λ p, in_window start end_ p = true) l).

Lemma Get_visit_supported idx ty limit e0 i res :
  supported ty →
  Get_visit idx ty limit e0 i res =
  let res' := if String.eqb i idx && matches_type e0 ty then res ++ [e0] else res in
  Ok (res', limit <=? Z.of_nat (length res')).
Proof.
  intros Hty. unfold Get_visit. rewrite checkEnvelopeType_supported by done.
  by destruct (String.eqb i idx).
Qed.

Lemma scan_Get_visit_total idx start end_ ty limit l res :
  supported ty →
  ∃ res' stop, scan l start end_ (Get_visit idx ty limit) res = Ok (res', stop).
Proof.
  intros Hty. revert res. induction l as [|[t w] l IH]; intros res; simpl; [eauto|].
  destruct (start <=? t); [|apply IH]. destruct (end_ <=? t); [eauto|].
  rewrite Get_visit_supported by done. simpl.
  match goal with |- context [if ?b then Ok (?r, true) else _] =>
      destruct b; [eauto|apply IH] end.
Qed.

Lemma filter_window_above start end_ (l : list (Z * envelopeWrapper)) :
  Forall (λ p, end_ ≤ p.1) l →
  filter (λ p, in_window start end_ p = true) l = [].
Proof.
  induction 1 as [|p l Hp _ IH]; [done|]. rewrite filter_cons, IH.
  unfold in_window. destruct (Z.ltb_spec p.1 end_); [lia|].
  rewrite andb_false_r. by rewrite decide_False.
Qed.

Lemma scan_Get_visit idx start end_ ty limit l res :
  supported ty → sorted l → Z.of_nat (length res) < limit →
  ∃ stop,
    scan l start end_ (Get_visit idx ty limit) res =
    Ok (res ++ take (Z.to_nat limit - length res)
                    ((λ p, e p.2) <$> selection idx start end_ ty l), stop).
Proof.
  intros Hty. revert res. induction l as [|[t w] l IH]; intros res Hs Hlen.
  { exists false. simpl. by rewrite take_nil, app_nil_r. }
  pose proof Hs as [Hlt Hs']%sorted_cons. unfold selection. simpl.
  destruct (Z.leb_spec start t) as [Hst|Hst].
  2:{ rewrite filter_cons_False; [by apply IH|].
      unfold in_window. simpl. destruct (Z.leb_spec start t); [lia|done]. }
  destruct (Z.leb_spec end_ t) as [Hen|Hen].
  - exists true. rewrite filter_cons_False.
    2:{ unfold in_window. simpl. destruct (Z.ltb_spec t end_); [lia|].
        by rewrite andb_false_r. }
    rewrite filter_window_above.
    2:{ eapply Forall_impl; [done|]. simpl. intros; lia. }
    rewrite filter_nil. simpl. by rewrite take_nil, app_nil_r.
  - rewrite filter_cons_True.
    2:{ unfold in_window. simpl. destruct (Z.leb_spec start t); [|lia].
        by destruct (Z.ltb_spec t end_); [|lia]. }
    rewrite Get_visit_supported by done. simpl.
    destruct (String.eqb (index w) idx && matches_type (e w) ty) eqn:Hw.
    + rewrite filter_cons_True by done. simpl.
      destruct (Z.leb_spec limit (Z.of_nat (length (res ++ [e w])))) as [Hle|Hgt].
      * exists true. rewrite length_app in Hle. simpl in Hle.
        replace (Z.to_nat limit - length res)%nat with 1%nat by lia.
        simpl. by rewrite take_0.
      * destruct (IH (res ++ [e w]) Hs' Hgt) as [stop ->]. exists stop.
        rewrite length_app in *. simpl in *.
        replace (Z.to_nat limit - length res)%nat
          with (S (Z.to_nat limit - (length res + 1)))%nat by lia.
        simpl. by rewrite <-app_assoc.
    + rewrite filter_cons_False by (unfold wanted; simpl; by rewrite Hw).
      destruct (Z.leb_spec limit (Z.of_nat (length res))); [lia|].
      by apply IH.
Qed.

(** *** [treeStorage]: what is registered under which key *)

Definition registered (o : treeStorage) (key : Z) (tr : handle) : Prop :=
  tr ∈ values_at key o.

Record treeStorage_ok (o : treeStorage) : Prop := {
  ts_bst : avltree.bst (t o);
  ts_slot : ∀ key values,
    avltree.Get key (t o) = Some values → values ≠ [] ∧ NoDup values;
}.

Lemma elem_of_remove_first tr h values :
  NoDup values → h ∈ remove_first tr values ↔ h ∈ values ∧ h ≠ tr.
Proof.
  induction 1 as [|v vs Hv _ IH]; simpl; [set_solver|].
  destruct (Nat.eqb_spec v tr) as [->|Hne].
  - rewrite elem_of_cons. split; [|naive_solver].
    intros Hh. split; [by right|]. by intros ->.
  - rewrite !elem_of_cons, IH. naive_solver.
Qed.

Lemma NoDup_remove_first tr values : NoDup values → NoDup (remove_first tr values).
Proof.
  induction 1 as [|v vs Hv Hnd IH]; simpl; [constructor|].
  destruct (Nat.eqb_spec v tr); [done|]. constructor; [|done].
  rewrite elem_of_remove_first by done. naive_solver.
Qed.

Lemma treeStorage_ok_new : treeStorage_ok newTreeStorage.
Proof. split; [apply avltree.bst_NewWith|done]. Qed.


Lemma values_at_Put k' key tr o :
  avltree.bst (t o) →
  values_at k' (treeStorage_Put key tr o) =
  if k' =? key then values_at key o ++ [tr] else values_at k' o.
Proof.
  intros Hb. unfold values_at at 1, treeStorage_Put. simpl.
  rewrite avltree.Get_Put by done. by destruct (k' =? key).
Qed.

Lemma values_at_Remove k' key tr o :
  avltree.bst (t o) →
  values_at k' (treeStorage_Remove key tr o) =
  if k' =? key then remove_first tr (values_at key o) else values_at k' o.
Proof.
  intros Hb. unfold values_at at 1, treeStorage_Remove.
  destruct (Nat.eqb_spec (length (remove_first tr (values_at key o))) 0) as [E|E]; simpl.
  - rewrite avltree.Get_Remove by done. destruct (k' =? key); [|done].
    by destruct (remove_first tr (values_at key o)).
  - rewrite avltree.Get_Put by done. by destruct (k' =? key).
Qed.

Lemma treeStorage_ok_Put key tr o :
  treeStorage_ok o → ¬ registered o key tr → treeStorage_ok (treeStorage_Put key tr o).
Proof.
  intros [Hb Hslot] Hnr. split; simpl; [by apply avltree.bst_Put|].
  intros k' values. rewrite avltree.Get_Put by done.
  destruct (Z.eqb_spec k' key) as [->|]; [|apply Hslot].
  intros [= <-]. split; [by destruct (values_at key o)|].
  apply NoDup_app. split_and!.
  - unfold values_at. destruct (avltree.Get key (t o)) eqn:E; [|constructor].
    by apply Hslot in E as [_ ?].
  - intros h Hh ->%list_elem_of_singleton. by apply Hnr.
  - apply NoDup_singleton.
Qed.

Lemma treeStorage_ok_Remove key tr o :
  treeStorage_ok o → treeStorage_ok (treeStorage_Remove key tr o).
Proof.
  intros [Hb Hslot]. unfold treeStorage_Remove.
  destruct (Nat.eqb_spec (length (remove_first tr (values_at key o))) 0) as [E|E].
  - split; simpl; [by apply avltree.bst_Remove|].
    intros k' values. rewrite avltree.Get_Remove by done.
    destruct (k' =? key); [done|apply Hslot].
  - split; simpl; [by apply avltree.bst_Put|].
    intros k' values. rewrite avltree.Get_Put by done.
    destruct (Z.eqb_spec k' key) as [->|]; [|apply Hslot].
    intros [= <-]. split; [by intros E'; rewrite E' in E|].
    apply NoDup_remove_first. unfold values_at.
    destruct (avltree.Get key (t o)) eqn:E'; [|constructor].
    by apply Hslot in E' as [_ ?].
Qed.

Lemma NoDup_values_at key o : treeStorage_ok o → NoDup (values_at key o).
Proof.
  intros [Hb Hslot]. unfold values_at.
  destruct (avltree.Get key (t o)) eqn:E'; [|constructor].
  by apply Hslot in E' as [_ ?].
Qed.

Lemma registered_Put k' h key tr o :
  treeStorage_ok o →
  registered (treeStorage_Put key tr o) k' h ↔
  registered o k' h ∨ (k' = key ∧ h = tr).
Proof.
  intros [Hb _]. unfold registered. rewrite values_at_Put by done.
  destruct (Z.eqb_spec k' key) as [->|]; [|naive_solver].
  rewrite elem_of_app, list_elem_of_singleton. naive_solver.
Qed.

Lemma registered_Remove k' h key tr o :
  treeStorage_ok o →
  registered (treeStorage_Remove key tr o) k' h ↔
  registered o k' h ∧ ¬ (k' = key ∧ h = tr).
Proof.
  intros Hok. pose proof (NoDup_values_at key o Hok). destruct Hok as [Hb _].
  unfold registered. rewrite values_at_Remove by done.
  destruct (Z.eqb_spec k' key) as [->|]; [|naive_solver].
  rewrite elem_of_remove_first by done. naive_solver.
Qed.

Lemma treeStorage_Left_Ok o key tr :
  treeStorage_ok o → treeStorage_Left o = Ok (key, tr) →
  (∃ rest, values_at key o = tr :: rest) ∧
  ∀ k' h, registered o k' h → key ≤ k'.
Proof.
  intros [Hb Hslot]. unfold treeStorage_Left.
  destruct (avltree.Left (t o)) as [[k values]|] eqn:E; [|done].
  destruct values as [|v rest]; [done|]. intros [= -> ->].
  apply avltree.Left_Some in E as [HG Hmin]; [|done]. split.
  - exists rest. unfold values_at. by rewrite HG.
  - intros k' h. unfold registered, values_at.
    destruct (avltree.Get k' (t o)) eqn:E'; [|by intros ?%elem_of_nil].
    intros _. apply Hmin. by rewrite E'.
Qed.

Lemma treeStorage_Left_registered o key tr :
  treeStorage_ok o → treeStorage_Left o = Ok (key, tr) → registered o key tr.
Proof.
  intros Hok HL. destruct (treeStorage_Left_Ok _ _ _ Hok HL) as [[rest Hr] _].
  unfold registered. rewrite Hr. left.
Qed.

Lemma treeStorage_Left_total o key h :
  treeStorage_ok o → registered o key h →
  ∃ k tr, treeStorage_Left o = Ok (k, tr).
Proof.
  intros [Hb Hslot]. unfold registered, values_at, treeStorage_Left.
  destruct (avltree.Get key (t o)) as [values|] eqn:E; [|by intros ?%elem_of_nil].
  intros _. apply avltree.Get_Some_Size in E; [|done].
  destruct (avltree.Left_is_Some _ E) as [[k vs] HL]. rewrite HL.
  apply avltree.Left_Some in HL as [HG _]; [|done].
  apply Hslot in HG as [Hne _]. destruct vs; [done|]. eauto.
Qed.

Lemma treeStorage_Left_Panic o m :
  treeStorage_ok o → treeStorage_Left o = Panic m → ∀ key h, ¬ registered o key h.
Proof.
  intros Hok HP key h Hr.
  destruct (treeStorage_Left_total _ _ _ Hok Hr) as (k & tr & E). congruence.
Qed.

(** *** The store invariant *)

Definition min_key (n : avltree.Node envelopeWrapper) : option Z :=
  fst <$> avltree.Left n.

(** An index tree is a search tree whose keys are the timestamps of the
    envelopes they hold, all wrapped with the name of the index. *)
Definition tree_ok (idx : string) (n : avltree.Node envelopeWrapper) : Prop :=
  avltree.bst n ∧
  ∀ k w, avltree.Get k n = Some w → k = Timestamp (e w) ∧ index w = idx.

Definition msum (m : gmap string Z) : Z := map_fold (λ _ n acc, n + acc) 0 m.

(** The sum of the sizes of all per-source indexes. *)
Definition total (s : Store) : Z :=
  msum ((λ tr, avltree.Size (deref s tr)) <$> indexes s).

Record store_ok (s : Store) : Prop := {
  ok_alloc : ∀ idx tr, indexes s !! idx = Some tr → (tr < length (heap s))%nat;
  ok_inj : ∀ i1 i2 tr,
    indexes s !! i1 = Some tr → indexes s !! i2 = Some tr → i1 = i2;
  ok_tree : ∀ idx tr, indexes s !! idx = Some tr → tree_ok idx (deref s tr);
  ok_nonempty : ∀ idx tr, indexes s !! idx = Some tr → 0 < avltree.Size (deref s tr);
  ok_oldest : treeStorage_ok (oldestValueTree s);
  ok_registered : ∀ key tr,
    registered (oldestValueTree s) key tr ↔
    ∃ idx, indexes s !! idx = Some tr ∧ min_key (deref s tr) = Some key;
  ok_count : count s = total s;
}.

(** The invariant with the tree [tr0] of index [idx0] under
    construction: nothing is required of its contents or registration. *)
Record store_pre (idx0 : string) (tr0 : handle) (s : Store) : Prop := {
  pre_idx : indexes s !! idx0 = Some tr0;
  pre_alloc : ∀ idx tr, indexes s !! idx = Some tr → (tr < length (heap s))%nat;
  pre_inj : ∀ i1 i2 tr,
    indexes s !! i1 = Some tr → indexes s !! i2 = Some tr → i1 = i2;
  pre_tree : ∀ idx tr, indexes s !! idx = Some tr → tr ≠ tr0 →
    tree_ok idx (deref s tr) ∧ 0 < avltree.Size (deref s tr);
  pre_oldest : treeStorage_ok (oldestValueTree s);
  pre_registered : ∀ key tr, tr ≠ tr0 →
    (registered (oldestValueTree s) key tr ↔
     ∃ idx, indexes s !! idx = Some tr ∧ min_key (deref s tr) = Some key);
  pre_count : count s = total s;
}.

Lemma msum_empty : msum ∅ = 0.
Proof. apply map_fold_empty. Qed.

Lemma msum_insert i x (m : gmap string Z) :
  m !! i = None → msum (<[i:=x]> m) = x + msum m.
Proof.
  intros. unfold msum. apply (map_fold_insert_L (λ _ n acc, n + acc)); [|done].
  intros; lia.
Qed.

Lemma msum_delete i x (m : gmap string Z) :
  m !! i = Some x → msum (delete i m) = msum m - x.
Proof.
  intros Hi. rewrite <-(insert_delete_id m i x) at 2 by done.
  rewrite msum_insert by apply lookup_delete_eq. lia.
Qed.

Lemma msum_update i x y (m : gmap string Z) :
  m !! i = Some y → msum (<[i:=x]> m) = msum m - y + x.
Proof.
  intros Hi. rewrite <-insert_delete_eq.
  rewrite msum_insert by apply lookup_delete_eq.
  rewrite (msum_delete _ _ _ Hi). lia.
Qed.

Lemma store_ok_NewStore size maxPerSource : store_ok (NewStore size maxPerSource).
Proof.
  split; simpl; try done.
  - apply treeStorage_ok_new.
  - intros key tr. split; [by intros ?%elem_of_nil|].
    by intros (idx & ? & _).
Qed.

Lemma deref_insert_eq s tr n hp :
  hp = heap s → (tr < length hp)%nat →
  default avltree.Nil (<[tr := n]> hp !! tr) = n.
Proof. intros -> ?. by rewrite list_lookup_insert_eq. Qed.

Lemma store_pre_of_ok s idx tr :
  store_ok s → indexes s !! idx = Some tr → store_pre idx tr s.
Proof.
  intros [] Hi. split; try done.
  intros idx' tr' ? _. split; eauto.
Qed.

Lemma deref_update s s' tr0 t' tr :
  heap s' = <[tr0 := t']> (heap s) →
  deref s' tr = if decide (tr = tr0 ∧ (tr0 < length (heap s))%nat) then t' else deref s tr.
Proof.
  intros Hh. unfold deref. rewrite Hh. case_decide as Hd.
  - destruct Hd as [-> ?]. by rewrite list_lookup_insert_eq.
  - destruct (decide (tr = tr0)) as [->|].
    + rewrite list_insert_ge; [done|]. lia.
    + by rewrite list_lookup_insert_ne.
Qed.

Lemma total_update idx0 tr0 s s' t' :
  store_pre idx0 tr0 s →
  indexes s' = indexes s → heap s' = <[tr0 := t']> (heap s) →
  total s' = total s - avltree.Size (deref s tr0) + avltree.Size t'.
Proof.
  intros Hpre Hi Hh. unfold total. rewrite Hi.
  erewrite <-(msum_update idx0 _ _ (_ <$> indexes s)).
  2:{ rewrite lookup_fmap, (pre_idx _ _ _ Hpre). done. }
  f_equal. apply map_eq. intros idx. rewrite lookup_fmap.
  destruct (decide (idx = idx0)) as [->|Hne].
  - rewrite lookup_insert_eq, (pre_idx _ _ _ Hpre). simpl.
    rewrite (deref_update s s' tr0 t') by done.
    rewrite decide_True; [done|]. split; [done|].
    eapply pre_alloc; [done|]. apply (pre_idx _ _ _ Hpre).
  - rewrite lookup_insert_ne, lookup_fmap by done.
    destruct (indexes s !! idx) as [tr|] eqn:E; [|done]. simpl.
    rewrite (deref_update s s' tr0 t') by done.
    rewrite decide_False; [done|]. intros [-> _].
    apply Hne. eapply pre_inj; [done..|]. apply (pre_idx _ _ _ Hpre).
Qed.

Lemma store_ok_update idx0 tr0 s s' t' :
  store_pre idx0 tr0 s →
  indexes s' = indexes s → heap s' = <[tr0 := t']> (heap s) →
  count s' = count s + (avltree.Size t' - avltree.Size (deref s tr0)) →
  tree_ok idx0 t' → 0 < avltree.Size t' →
  treeStorage_ok (oldestValueTree s') →
  (∀ key tr, tr ≠ tr0 →
     registered (oldestValueTree s') key tr ↔ registered (oldestValueTree s) key tr) →
  (∀ key, registered (oldestValueTree s') key tr0 ↔ min_key t' = Some key) →
  store_ok s'.
Proof.
  intros Hpre Hi Hh Hc Ht' Hsz Hok Hreg Hreg0.
  pose proof (pre_idx _ _ _ Hpre) as Hidx0.
  pose proof (pre_alloc _ _ _ Hpre _ _ Hidx0) as Hlt0.
  assert (Hd0 : deref s' tr0 = t').
  { rewrite (deref_update s s' tr0 t') by done. by rewrite decide_True. }
  assert (Hd : ∀ tr, tr ≠ tr0 → deref s' tr = deref s tr).
  { intros tr ?. rewrite (deref_update s s' tr0 t') by done.
    rewrite decide_False; [done|]. by intros [? _]. }
  split.
  - intros idx tr. rewrite Hi, Hh, length_insert. eapply pre_alloc; done.
  - rewrite Hi. eapply pre_inj; done.
  - intros idx tr. rewrite Hi. intros Hx.
    destruct (decide (tr = tr0)) as [->|Hne].
    + rewrite Hd0. by rewrite (pre_inj _ _ _ Hpre _ _ _ Hx Hidx0).
    + rewrite Hd by done. by edestruct (pre_tree _ _ _ Hpre) as [? ?]; [eassumption..|].
  - intros idx tr. rewrite Hi. intros Hx.
    destruct (decide (tr = tr0)) as [->|Hne].
    + by rewrite Hd0.
    + rewrite Hd by done. by edestruct (pre_tree _ _ _ Hpre) as [? ?]; [eassumption..|].
  - done.
  - intros key tr. rewrite Hi. destruct (decide (tr = tr0)) as [->|Hne].
    + rewrite Hreg0, Hd0. split; [eauto|]. by intros (_ & _ & ?).
    + rewrite Hreg, Hd by done. by apply (pre_registered _ _ _ Hpre).
  - rewrite Hc, (pre_count _ _ _ Hpre), (total_update idx0 tr0 s s' t') by done. lia.
Qed.

Lemma store_ok_delete idx0 tr0 s s' t' :
  store_pre idx0 tr0 s →
  indexes s' = delete idx0 (indexes s) → heap s' = <[tr0 := t']> (heap s) →
  count s' = count s - avltree.Size (deref s tr0) →
  treeStorage_ok (oldestValueTree s') →
  (∀ key tr, tr ≠ tr0 →
     registered (oldestValueTree s') key tr ↔ registered (oldestValueTree s) key tr) →
  (∀ key, ¬ registered (oldestValueTree s') key tr0) →
  store_ok s'.
Proof.
  intros Hpre Hi Hh Hc Hok Hreg Hreg0.
  pose proof (pre_idx _ _ _ Hpre) as Hidx0.
  assert (Hne : ∀ idx tr, indexes s' !! idx = Some tr →
                  indexes s !! idx = Some tr ∧ tr ≠ tr0).
  { intros idx tr. rewrite Hi. intros [? Hx]%lookup_delete_Some. split; [done|].
    intros ->. by pose proof (pre_inj _ _ _ Hpre _ _ _ Hx Hidx0). }
  assert (Hd : ∀ tr, tr ≠ tr0 → deref s' tr = deref s tr).
  { intros tr ?. rewrite (deref_update s s' tr0 t') by done.
    rewrite decide_False; [done|]. by intros [? _]. }
  split.
  - intros idx tr [Hx _]%Hne. rewrite Hh, length_insert. eapply pre_alloc; done.
  - intros i1 i2 tr [H1 _]%Hne [H2 _]%Hne. eapply pre_inj; done.
  - intros idx tr [Hx ?]%Hne. rewrite Hd by done. by edestruct (pre_tree _ _ _ Hpre) as [? ?]; [eassumption..|].
  - intros idx tr [Hx ?]%Hne. rewrite Hd by done. by edestruct (pre_tree _ _ _ Hpre) as [? ?]; [eassumption..|].
  - done.
  - intros key tr. destruct (decide (tr = tr0)) as [->|Hn].
    + split; [by intros ?%Hreg0|]. intros (idx & [_ ?]%Hne & _). done.
    + rewrite Hreg, Hd by done. rewrite (pre_registered _ _ _ Hpre) by done.
      split; intros (idx & Hx & ?); exists idx; (split; [|done]).
      * rewrite Hi. apply lookup_delete_Some. split; [|done]. intros ->.
        rewrite Hidx0 in Hx. naive_solver.
      * by apply Hne.
  - rewrite Hc, (pre_count _ _ _ Hpre). unfold total. rewrite Hi.
    rewrite fmap_delete.
    erewrite (msum_delete idx0 (avltree.Size (deref s' tr0)) ).
    2:{ by rewrite lookup_fmap, Hidx0. }
    assert (((λ tr, avltree.Size (deref s' tr)) <$> indexes s) =
            <[idx0 := avltree.Size (deref s' tr0)]>
              ((λ tr, avltree.Size (deref s tr)) <$> indexes s)) as ->.
    { apply map_eq. intros idx. rewrite lookup_fmap.
      destruct (decide (idx = idx0)) as [->|Hn].
      - by rewrite lookup_insert_eq, Hidx0.
      - rewrite lookup_insert_ne, lookup_fmap by done.
        destruct (indexes s !! idx) as [tr|] eqn:E; [|done]. simpl.
        rewrite Hd; [done|]. intros ->. apply Hn. eapply pre_inj; done. }
    erewrite msum_update by (by rewrite lookup_fmap, Hidx0). simpl. lia.
Qed.

(** The contents of an index, oldest first (empty when the index does
    not exist). *)
Definition contents (s : Store) (idx : string) : list (Z * envelopeWrapper) :=
  match indexes s !! idx with
  | Some tr => avltree.elements (deref s tr)
  | None => []
  end.

(** What [Put] does to the contents of its index: when the index is at
    its quota the oldest entry goes, then the envelope is put under its
    timestamp. *)
Definition evict (maxPerSource : Z) (l : list (Z * envelopeWrapper))
    : list (Z * envelopeWrapper) :=
  if maxPerSource <=? Z.of_nat (length l) then tail l else l.

(** The statements of [Put_insert] after the index tree [t] has been
    located or created. *)
Definition Put_fill (e : Envelope) (index : string) (t : handle) (s : Store)
    : result Store :=
  '(oldest, hasOldest) ←
    (if 0 <? avltree.Size (deref s t)
     then k ← Left_Key (deref s t); Ok (k, true)
     else Ok (0, false));
  let preSize := avltree.Size (deref s t) in
  let s :=
    if maxPerSource s <=? preSize
    then incExpired 1 (mutate t (avltree.Remove oldest) s)
    else s in
  let s := mutate t (avltree.Put (Timestamp e) {| e := e; index := index |}) s in
  let s := set_count (λ c, c + (avltree.Size (deref s t) - preSize)) s in
  newOldest ← Left_Key (deref s t);
  Ok (if negb (oldest =? newOldest) && hasOldest
      then set_oldestValueTree
             (λ o, treeStorage_Put newOldest t (treeStorage_Remove oldest t o)) s
      else s).

Lemma Put_insert_unfold e index s :
  Put_insert e index s =
  let s := incIngress 1 s in
  match indexes s !! index with
  | Some t => Put_fill e index t s
  | None =>
      let t := length (heap s) in
      Put_fill e index t
        (set_oldestValueTree (treeStorage_Put (Timestamp e) t)
           (set_indexes (<[index := t]>)
              (set_heap (λ hp, hp ++ [avltree.NewWith]) s)))
  end.
Proof. unfold Put_insert, Put_fill. simpl. by destruct (indexes s !! index). Qed.

Lemma tree_ok_Nil idx : tree_ok idx avltree.Nil.
Proof. split; [apply avltree.bst_NewWith|done]. Qed.

Lemma tree_ok_Put idx e0 n :
  tree_ok idx n →
  tree_ok idx (avltree.Put (Timestamp e0) {| e := e0; index := idx |} n).
Proof.
  intros [Hb Hk]. split; [by apply avltree.bst_Put|].
  intros k w. rewrite avltree.Get_Put by done.
  destruct (Z.eqb_spec k (Timestamp e0)) as [->|]; [|apply Hk].
  by intros [= <-].
Qed.

Lemma tree_ok_Remove idx k n : tree_ok idx n → tree_ok idx (avltree.Remove k n).
Proof.
  intros [Hb Hk]. split; [by apply avltree.bst_Remove|].
  intros k' w. rewrite avltree.Get_Remove by done.
  destruct (k' =? k); [done|apply Hk].
Qed.

Lemma min_key_elements n :
  min_key n = fst <$> head (avltree.elements n).
Proof. unfold min_key. by rewrite avltree.Left_elements. Qed.

Lemma Left_Key_elements (n : avltree.Node envelopeWrapper) :
  Left_Key n =
  match avltree.elements n with
  | (k, _) :: _ => Ok k
  | [] => Panic nil_deref
  end.
Proof.
  unfold Left_Key. rewrite avltree.Left_elements.
  by destruct (avltree.elements n) as [|[] ?].
Qed.

Lemma ins_list_not_nil {V} k (v : V) l : ins_list k v l ≠ [].
Proof. destruct l as [|[k' v'] l]; simpl; [done|]. by destruct (k ?= k'). Qed.

Lemma sorted_tail {V} (l : list (Z * V)) : sorted l → sorted (tail l).
Proof. destruct l as [|[k v] l]; [done|]. by intros [_ ?]%sorted_cons. Qed.

Lemma evict_nil m : evict m [] = [].
Proof. unfold evict. simpl. destruct (m <=? Z.of_nat 0); reflexivity. Qed.

Lemma heap_mutate tr f s : heap (mutate tr f s) = <[tr := f (deref s tr)]> (heap s).
Proof. done. Qed.

Lemma deref_mutate tr f s :
  (tr < length (heap s))%nat → deref (mutate tr f s) tr = f (deref s tr).
Proof. intros. unfold deref at 1. rewrite heap_mutate. by rewrite list_lookup_insert_eq. Qed.

Lemma deref_mutate_ne tr tr' f s :
  tr' ≠ tr → deref (mutate tr f s) tr' = deref s tr'.
Proof. intros. unfold deref at 1. rewrite heap_mutate. by rewrite list_lookup_insert_ne. Qed.

Lemma Put_fill_spec e0 idx tr s :
  store_pre idx tr s →
  tree_ok idx (deref s tr) →
  (∀ key, registered (oldestValueTree s) key tr ↔
          Some key = if avltree.Size (deref s tr) =? 0 then Some (Timestamp e0)
                     else min_key (deref s tr)) →
  ∃ s', Put_fill e0 idx tr s = Ok s' ∧ store_ok s' ∧
    indexes s' = indexes s ∧
    avltree.elements (deref s' tr) =
      ins_list (Timestamp e0) {| e := e0; index := idx |}
        (evict (maxPerSource s) (avltree.elements (deref s tr))) ∧
    (∀ tr', tr' ≠ tr → deref s' tr' = deref s tr') ∧
    size s' = size s ∧ maxPerSource s' = maxPerSource s ∧
    Ingress s' = Ingress s ∧ Egress s' = Egress s ∧ CachePeriod s' = CachePeriod s ∧
    Expired s' = Expired s +
      (if maxPerSource s <=? Z.of_nat (length (avltree.elements (deref s tr)))
       then 1 else 0) ∧
    count s' = count s + (avltree.Size (deref s' tr) - avltree.Size (deref s tr)).
Proof.
  intros Hpre Htok Hreg.
  pose proof (pre_idx _ _ _ Hpre) as Hidx.
  pose proof (pre_alloc _ _ _ Hpre _ _ Hidx) as Hlt.
  unfold Put_fill.
  set (t0 := deref s tr) in *.
  set (w := {| e := e0; index := idx |}).
  set (l0 := avltree.elements t0).
  assert (Hsz : avltree.Size t0 = Z.of_nat (length l0)) by apply avltree.Size_elements.
  assert (Hmk : min_key t0 = fst <$> head l0) by apply min_key_elements.
  assert (HLK := Left_Key_elements t0). fold l0 in HLK.
  (* the state after the eviction step *)
  set (oldest0 := match l0 with (k, _) :: _ => k | [] => 0 end).
  set (s2 := if maxPerSource s <=? avltree.Size t0
             then incExpired 1 (mutate tr (avltree.Remove oldest0) s) else s).
  set (t1 := if maxPerSource s <=? avltree.Size t0
             then avltree.Remove oldest0 t0 else t0).
  assert (Ht1 : deref s2 tr = t1).
  { unfold s2, t1. destruct (maxPerSource s <=? avltree.Size t0); [|done].
    by apply deref_mutate. }
  assert (Hh2 : heap s2 = <[tr := t1]> (heap s)).
  { unfold s2, t1. destruct (maxPerSource s <=? avltree.Size t0); [done|].
    symmetry. apply list_insert_id. unfold t0, deref.
    destruct (heap s !! tr) eqn:E; [done|]. apply lookup_ge_None in E. lia. }
  assert (Hel1 : avltree.elements t1 = evict (maxPerSource s) l0).
  { unfold t1, evict. rewrite <-Hsz.
    destruct (maxPerSource s <=? avltree.Size t0); [|done].
    rewrite avltree.elements_Remove by apply Htok. fold l0. unfold oldest0.
    destruct l0 as [|[k0 w0] l']; [done|]. simpl. by rewrite Z.eqb_refl. }
  assert (Htok1 : tree_ok idx t1).
  { unfold t1. destruct (maxPerSource s <=? avltree.Size t0); [|done].
    by apply tree_ok_Remove. }
  set (t' := avltree.Put (Timestamp e0) w t1).
  assert (Htok' : tree_ok idx t') by (by apply tree_ok_Put).
  assert (Hel' : avltree.elements t' = ins_list (Timestamp e0) w (evict (maxPerSource s) l0)).
  { unfold t'. rewrite avltree.elements_Put by apply Htok1. by rewrite Hel1. }
  set (s3 := mutate tr (avltree.Put (Timestamp e0) w) s2).
  set (s4 := set_count (λ c, c + (avltree.Size (deref s3 tr) - avltree.Size t0)) s3).
  assert (Hlt2 : (tr < length (heap s2))%nat) by (by rewrite Hh2, length_insert).
  assert (Hd3 : deref s3 tr = t').
  { unfold s3. rewrite deref_mutate by done. by rewrite Ht1. }
  assert (Hd4 : deref s4 tr = t') by done.
  assert (Hh4 : heap s4 = <[tr := t']> (heap s)).
  { unfold s4, s3. simpl. rewrite Ht1, Hh2. by rewrite list_insert_insert_eq. }
  assert (Hc4 : count s4 = count s + (avltree.Size t' - avltree.Size t0)).
  { unfold s4. simpl. rewrite Hd3. unfold s2.
    by destruct (maxPerSource s <=? avltree.Size t0). }
  assert (Hsz' : 0 < avltree.Size t').
  { rewrite avltree.Size_elements, Hel'.
    pose proof (ins_list_not_nil (Timestamp e0) w (evict (maxPerSource s) l0)).
    destruct (ins_list _ _ _); [done|]. simpl. lia. }
  assert (HLK' : ∃ newOldest, Left_Key t' = Ok newOldest ∧ min_key t' = Some newOldest).
  { rewrite Left_Key_elements, min_key_elements.
    destruct (avltree.elements t') as [|[k ?] ?] eqn:E; [|eauto].
    rewrite avltree.Size_elements, E in Hsz'. simpl in Hsz'. lia. }
  destruct HLK' as (newOldest & HLK' & Hmk').
  set (s5 := if negb (oldest0 =? newOldest) && (0 <? avltree.Size t0)
      then set_oldestValueTree
             (λ o, treeStorage_Put newOldest tr (treeStorage_Remove oldest0 tr o)) s4
      else s4).
  exists s5. split.
  { rewrite <-Hd4 in HLK'. clearbody l0. unfold s5.
    destruct l0 as [|[k0 w0] l'].
    - assert (0 <? avltree.Size t0 = false) as -> by (apply Z.ltb_ge; simpl in Hsz; lia).
      cbn [mbind result_bind].
      change (deref (set_count _ _) tr) with (deref s4 tr). rewrite HLK'.
      cbn [mbind result_bind]. by rewrite !andb_false_r.
    - assert (0 <? avltree.Size t0 = true) as -> by (apply Z.ltb_lt; simpl in Hsz; lia).
      rewrite HLK. cbn [mbind result_bind].
      change (deref (set_count _ _) tr) with (deref s4 tr). rewrite HLK'.
      cbn [mbind result_bind]. done. }
  assert (Hfr : ∀ tr', tr' ≠ tr → deref s4 tr' = deref s tr').
  { intros tr' ?. unfold deref. rewrite Hh4. by rewrite list_lookup_insert_ne. }
  assert (Hmeta : indexes s4 = indexes s ∧ size s4 = size s ∧
                  maxPerSource s4 = maxPerSource s ∧ Ingress s4 = Ingress s ∧
                  Egress s4 = Egress s ∧ CachePeriod s4 = CachePeriod s ∧
                  oldestValueTree s4 = oldestValueTree s ∧
                  Expired s4 = Expired s +
                    (if maxPerSource s <=? Z.of_nat (length l0) then 1 else 0)).
  { unfold s4, s3, s2. rewrite <-Hsz.
    destruct (maxPerSource s <=? avltree.Size t0); simpl; split_and!; (done || lia). }
  destruct Hmeta as (Hi4 & ? & ? & ? & ? & ? & Ho4 & ?).
  assert (Hs5 : heap s5 = heap s4 ∧ indexes s5 = indexes s4 ∧ count s5 = count s4 ∧
                size s5 = size s4 ∧ maxPerSource s5 = maxPerSource s4 ∧
                Ingress s5 = Ingress s4 ∧ Egress s5 = Egress s4 ∧
                CachePeriod s5 = CachePeriod s4 ∧ Expired s5 = Expired s4).
  { unfold s5. by destruct (negb (oldest0 =? newOldest) && (0 <? avltree.Size t0)). }
  destruct Hs5 as (Hh5 & Hi5 & Hc5 & ? & ? & ? & ? & ? & ?).
  assert (Hd5 : ∀ x, deref s5 x = deref s4 x).
  { intros x. unfold deref. by rewrite Hh5. }
  split; [|split_and!; try congruence].
  2:{ intros tr' ?. rewrite Hd5. by apply Hfr. }
  assert (Hmk0 : 0 < avltree.Size t0 → min_key t0 = Some oldest0).
  { rewrite Hmk, Hsz. unfold oldest0. destruct l0 as [|[??]?]; simpl; [lia|done]. }
  assert (Hok := pre_oldest _ _ _ Hpre).
  clearbody s4.
  eapply (store_ok_update idx tr s s5 t'); try done; try congruence.
  - rewrite Hc5. exact Hc4.
  - unfold s5. destruct (negb (oldest0 =? newOldest) && (0 <? avltree.Size t0)) eqn:Hc;
      simpl; rewrite Ho4; [|done].
    apply andb_true_iff in Hc as [Hne%negb_true_iff%Z.eqb_neq Hpos%Z.ltb_lt].
    apply treeStorage_ok_Put; [by apply treeStorage_ok_Remove|].
    rewrite registered_Remove by done. intros [Hr _]. apply Hreg in Hr.
    destruct (Z.eqb_spec (avltree.Size t0) 0); [lia|].
    rewrite Hmk0 in Hr by done. congruence.
  - intros key tr' Hne'. unfold s5.
    destruct (negb (oldest0 =? newOldest) && (0 <? avltree.Size t0)) eqn:Hc;
      simpl; rewrite Ho4; [|done].
    rewrite registered_Put by (by apply treeStorage_ok_Remove).
    rewrite registered_Remove by done. naive_solver.
  - intros key. rewrite Hmk'. unfold s5.
    destruct (negb (oldest0 =? newOldest) && (0 <? avltree.Size t0)) eqn:Hc;
      simpl; rewrite Ho4.
    + apply andb_true_iff in Hc as [Hne%negb_true_iff%Z.eqb_neq Hpos%Z.ltb_lt].
      rewrite registered_Put by (by apply treeStorage_ok_Remove).
      rewrite registered_Remove, Hreg by done.
      destruct (Z.eqb_spec (avltree.Size t0) 0); [lia|].
      rewrite Hmk0 by done. naive_solver.
    + rewrite Hreg. destruct (Z.eqb_spec (avltree.Size t0) 0) as [Hz|Hnz].
      * assert (l0 = []) as Hl0 by (destruct l0; [done|simpl in Hsz; lia]).
        rewrite min_key_elements, Hel', Hl0 in Hmk'.
        rewrite evict_nil in Hmk'. simpl in Hmk'. split; congruence.
      * assert (0 < avltree.Size t0) as Hpos by (rewrite Hsz in *; lia).
        rewrite Hmk0 by done.
        apply andb_false_iff in Hc as [Hc%negb_false_iff%Z.eqb_eq|Hc%Z.ltb_ge]; [|lia].
        split; congruence.
Qed.

Lemma store_ok_ext s s' :
  heap s' = heap s → indexes s' = indexes s →
  oldestValueTree s' = oldestValueTree s → count s' = count s →
  store_ok s → store_ok s'.
Proof.
  destruct s, s'. simpl. intros -> -> -> -> []. split; done.
Qed.

Lemma Put_insert_spec e0 idx s :
  store_ok s →
  ∃ s', Put_insert e0 idx s = Ok s' ∧ store_ok s' ∧
    contents s' idx =
      ins_list (Timestamp e0) {| e := e0; index := idx |}
        (evict (maxPerSource s) (contents s idx)) ∧
    (∀ idx', idx' ≠ idx → contents s' idx' = contents s idx') ∧
    size s' = size s ∧ maxPerSource s' = maxPerSource s ∧
    Ingress s' = Ingress s + 1 ∧ Egress s' = Egress s ∧
    CachePeriod s' = CachePeriod s ∧
    Expired s' = Expired s +
      (if maxPerSource s <=? Z.of_nat (length (contents s idx)) then 1 else 0) ∧
    count s' = count s + (Z.of_nat (length (contents s' idx)) -
                          Z.of_nat (length (contents s idx))).
Proof.
  intros Hok. rewrite Put_insert_unfold. cbv zeta.
  set (s0 := incIngress 1 s).
  assert (Hok0 : store_ok s0) by (by apply (store_ok_ext s)).
  change (indexes s0) with (indexes s). change (heap s0) with (heap s).
  destruct (indexes s !! idx) as [tr|] eqn:Hidx.
  - assert (contents s idx = avltree.elements (deref s0 tr)) as ->
      by (unfold contents; by rewrite Hidx).
    destruct (Put_fill_spec e0 idx tr s0) as (s' & HP & Hok' & Hi & Hel & Hfr & ? & ? & ? & ? & ? & ? & Hcnt).
    + by apply store_pre_of_ok.
    + by apply (ok_tree s0 Hok0).
    + intros key. rewrite (ok_registered s0 Hok0).
      pose proof (ok_nonempty s0 Hok0 _ _ Hidx).
      destruct (Z.eqb_spec (avltree.Size (deref s0 tr)) 0); [lia|].
      split; [intros (idx' & ? & ?); congruence|eauto].
    + exists s'. split; [done|]. split; [done|]. split_and!; try done; try (etrans; [eassumption|reflexivity]).
      * unfold contents. rewrite Hi. change (indexes s0) with (indexes s).
        by rewrite Hidx.
      * intros idx' Hne. unfold contents. rewrite Hi.
        change (indexes s0) with (indexes s).
        destruct (indexes s !! idx') as [tr'|] eqn:E; [|done].
        rewrite Hfr; [done|]. intros ->. apply Hne. by eapply (ok_inj s Hok).
      * rewrite Hcnt. unfold contents. rewrite Hi. change (indexes s0) with (indexes s).
        rewrite Hidx, !avltree.Size_elements. done.
  - assert (contents s idx = []) as -> by (unfold contents; by rewrite Hidx).
    set (tr := length (heap s)).
    set (s1 := set_oldestValueTree _ _).
    assert (Hnr : ∀ key, ¬ registered (oldestValueTree s) key tr).
    { intros key (idx' & Hx & _)%(ok_registered s Hok).
      apply (ok_alloc s Hok) in Hx. unfold tr in Hx. lia. }
    assert (Hd1 : ∀ tr', (tr' < tr)%nat → deref s1 tr' = deref s tr').
    { intros tr' ?. unfold deref. simpl. by rewrite lookup_app_l. }
    assert (Hd1' : deref s1 tr = avltree.Nil).
    { unfold deref. simpl. by rewrite list_lookup_middle. }
    assert (Hpre : store_pre idx tr s1).
    { split; simpl.
      - apply lookup_insert_eq.
      - intros idx' tr' [[-> <-]|[_ Hx]]%lookup_insert_Some; rewrite length_app; simpl.
        + unfold tr. lia.
        + apply (ok_alloc s Hok) in Hx. lia.
      - intros i1 i2 tr' [[-> E1]|[? H1]]%lookup_insert_Some
                         [[-> E2]|[? H2]]%lookup_insert_Some; try done.
        + apply (ok_alloc s Hok) in H2. unfold tr in E1. lia.
        + apply (ok_alloc s Hok) in H1. unfold tr in E2. lia.
        + by eapply (ok_inj s Hok).
      - intros idx' tr' [[-> <-]|[? Hx]]%lookup_insert_Some Hne; [done|].
        rewrite Hd1 by (apply (ok_alloc s Hok) in Hx; unfold tr; lia).
        split; [by apply (ok_tree s Hok)|by apply (ok_nonempty s Hok idx')].
      - apply treeStorage_ok_Put; [apply (ok_oldest s Hok)|apply Hnr].
      - intros key tr' Hne. rewrite registered_Put by apply (ok_oldest s Hok).
        rewrite (ok_registered s Hok). split.
        + intros [(idx' & Hx & Hm)|[_ ?]]; [|done]. exists idx'.
          assert (idx' ≠ idx) by (intros ->; congruence).
          rewrite lookup_insert_ne by done. split; [done|].
          rewrite Hd1; [done|]. apply (ok_alloc s Hok) in Hx. unfold tr. lia.
        + intros (idx' & [[-> <-]|[? Hx]]%lookup_insert_Some & Hm); [done|].
          left. exists idx'. split; [done|].
          rewrite Hd1 in Hm; [done|]. apply (ok_alloc s Hok) in Hx. unfold tr. lia.
      - rewrite (ok_count s Hok). unfold total. simpl.
        rewrite fmap_insert, msum_insert by (by rewrite lookup_fmap, Hidx).
        rewrite Hd1'. change (avltree.Size avltree.Nil) with 0. rewrite Z.add_0_l.
        f_equal. apply map_eq. intros idx'. rewrite !lookup_fmap.
        destruct (indexes s !! idx') as [tr'|] eqn:E; [|done]. simpl.
        rewrite Hd1; [done|]. apply (ok_alloc s Hok) in E. unfold tr. lia. }
    destruct (Put_fill_spec e0 idx tr s1) as (s' & HP & Hok' & Hi & Hel & Hfr & ? & ? & ? & ? & ? & ? & Hcnt).
    + done.
    + rewrite Hd1'. apply tree_ok_Nil.
    + intros key. rewrite Hd1'. simpl.
      unfold s1. simpl. rewrite registered_Put by apply (ok_oldest s Hok).
      split; [intros [?%Hnr|[-> _]]; done|intros [= ->]; by right].
    + exists s'. split; [done|]. split; [done|]. rewrite Hd1' in *. split_and!; try done; try (etrans; [eassumption|reflexivity]).
      * unfold contents. rewrite Hi. simpl. by rewrite lookup_insert_eq.
      * intros idx' Hne. unfold contents. rewrite Hi. simpl.
        rewrite lookup_insert_ne by done.
        destruct (indexes s !! idx') as [tr'|] eqn:E; [|done].
        apply (ok_alloc s Hok) in E.
        rewrite Hfr by (unfold tr; lia). rewrite Hd1; [done|unfold tr; lia].
      * rewrite Hcnt. unfold contents. rewrite Hi. simpl.
        rewrite lookup_insert_eq, !avltree.Size_elements. simpl. done.
Qed.

Lemma deref_heap s s' tr : heap s' = heap s → deref s' tr = deref s tr.
Proof. unfold deref. by intros ->. Qed.

Lemma contents_sorted s idx : store_ok s → sorted (contents s idx).
Proof.
  intros Hok. unfold contents. destruct (indexes s !! idx) eqn:E; [|apply sorted_nil].
  by apply (ok_tree s Hok) in E as [? _].
Qed.

Lemma contents_nil s idx : store_ok s → contents s idx = [] ↔ indexes s !! idx = None.
Proof.
  intros Hok. unfold contents. destruct (indexes s !! idx) as [tr|] eqn:E; [|done].
  apply (ok_nonempty s Hok) in E. rewrite avltree.Size_elements in E.
  split; [|done]. intros E'. rewrite E' in E. simpl in E. lia.
Qed.

Lemma contents_elem s idx k w :
  store_ok s → (k, w) ∈ contents s idx → k = Timestamp (e w) ∧ index w = idx.
Proof.
  intros Hok. unfold contents. destruct (indexes s !! idx) as [tr|] eqn:E;
    [|by intros ?%elem_of_nil].
  apply (ok_tree s Hok) in E as [Hb Hk]. rewrite avltree.elem_of_elements by done.
  apply Hk.
Qed.

(** The oldest structure points at minimum timestamps: what
    [oldestValueTree.Left] returns is at most any stored timestamp. *)
Lemma oldest_Left_min s key tr :
  store_ok s → treeStorage_Left (oldestValueTree s) = Ok (key, tr) →
  ∀ idx p, p ∈ contents s idx → key ≤ p.1.
Proof.
  intros Hok HL idx p. unfold contents.
  destruct (indexes s !! idx) as [tr'|] eqn:E; [|by intros ?%elem_of_nil].
  pose proof (ok_tree s Hok _ _ E) as [Hb _]. unfold avltree.bst in Hb.
  destruct (avltree.elements (deref s tr')) as [|[m wm] l] eqn:El;
    [by intros ?%elem_of_nil|].
  intros Hp. pose proof (sorted_head_min _ _ _ _ Hb Hp).
  assert (registered (oldestValueTree s) m tr') as Hr.
  { apply (ok_registered s Hok). exists idx. split; [done|].
    by rewrite min_key_elements, El. }
  destruct (treeStorage_Left_Ok _ _ _ (ok_oldest s Hok) HL) as [_ Hmin].
  apply Hmin in Hr. lia.
Qed.

Lemma truncate_spec s :
  store_ok s → size s < count s → indexes s ≠ ∅ →
  ∃ s' idx key w rest,
    truncate s = Ok s' ∧ store_ok s' ∧
    contents s idx = (key, w) :: rest ∧
    (∀ idx' p, p ∈ contents s idx' → key ≤ p.1) ∧
    contents s' idx = rest ∧
    (∀ idx', idx' ≠ idx → contents s' idx' = contents s idx') ∧
    indexes s' = (if rest is [] then delete idx (indexes s) else indexes s) ∧
    count s' = count s - 1 ∧ Expired s' = Expired s + 1 ∧
    size s' = size s ∧ maxPerSource s' = maxPerSource s ∧
    Ingress s' = Ingress s ∧ Egress s' = Egress s ∧ CachePeriod s' = CachePeriod s.
Proof.
  intros Hok Hgt Hne. unfold truncate.
  destruct (Z.leb_spec (count s) (size s)); [lia|]. cbv zeta.
  set (s1 := incExpired 1 (set_count (λ c, c - 1) s)).
  change (oldestValueTree s1) with (oldestValueTree s).
  pose proof (ok_oldest s Hok) as Hoo.
  apply map_choose in Hne as (idx0 & tr0 & Hx0).
  destruct (avltree.Left_is_Some _ (ok_nonempty s Hok _ _ Hx0)) as [[m0 w0] HL0].
  assert (registered (oldestValueTree s) m0 tr0) as Hr0.
  { apply (ok_registered s Hok). exists idx0. split; [done|].
    unfold min_key. by rewrite HL0. }
  destruct (treeStorage_Left_total _ _ _ Hoo Hr0) as (key & tr & HL).
  rewrite HL. cbn [mbind result_bind].
  pose proof (treeStorage_Left_registered _ _ _ Hoo HL) as Hr.
  apply (ok_registered s Hok) in Hr as (idx & Hidx & Hmin).
  pose proof (ok_tree s Hok _ _ Hidx) as Htok.
  pose proof (ok_alloc s Hok _ _ Hidx) as Hlt.
  set (t0 := deref s tr) in *.
  set (s2 := set_oldestValueTree _ s1).
  change (deref s2 tr) with t0.
  unfold min_key in Hmin. destruct (avltree.Left t0) as [[k w]|] eqn:HLt; [|done].
  simpl in Hmin. injection Hmin as ->.
  pose proof HLt as Hel. rewrite avltree.Left_elements in Hel.
  destruct (avltree.elements t0) as [|[k' w'] rest] eqn:El; [done|].
  simpl in Hel. injection Hel as -> ->.
  assert (index w = idx) as Hw.
  { destruct Htok as [Hb Hk]. apply (avltree.Left_Some _ _ _ Hb) in HLt as [HG _].
    by apply Hk in HG as [_ ?]. }
  rewrite Hw.
  set (t' := avltree.Remove key t0).
  assert (Hel' : avltree.elements t' = rest).
  { unfold t'. rewrite avltree.elements_Remove by apply Htok. rewrite El. simpl.
    by rewrite Z.eqb_refl. }
  assert (Hsz0 : avltree.Size t0 = Z.of_nat (S (length rest))).
  { by rewrite avltree.Size_elements, El. }
  assert (Hsz' : avltree.Size t' = Z.of_nat (length rest)).
  { by rewrite avltree.Size_elements, Hel'. }
  set (s3 := mutate tr (avltree.Remove key) s2).
  assert (Hd3 : deref s3 tr = t') by (by apply (deref_mutate tr _ s2)).
  rewrite Hd3.
  assert (Hregkey : ∀ k0, registered (oldestValueTree s) k0 tr → k0 = key).
  { intros k0 (idx' & Hx' & Hm)%(ok_registered s Hok). fold t0 in Hm.
    rewrite min_key_elements, El in Hm. by injection Hm. }
  assert (Hcont : contents s idx = (key, w) :: rest).
  { unfold contents. by rewrite Hidx. }
  assert (Hfr : ∀ tr', tr' ≠ tr → deref s3 tr' = deref s tr').
  { intros tr' ?. by apply (deref_mutate_ne tr tr' _ s2). }
  assert (Hcfr : ∀ (s' : Store) idx', idx' ≠ idx →
            (∀ tr', tr' ≠ tr → deref s' tr' = deref s tr') →
            (∀ i, i ≠ idx → indexes s' !! i = indexes s !! i) →
            contents s' idx' = contents s idx').
  { intros s' idx' Hn Hd Hi. unfold contents. rewrite Hi by done.
    destruct (indexes s !! idx') as [tr'|] eqn:E; [|done].
    rewrite Hd; [done|]. intros ->. apply Hn. by eapply (ok_inj s Hok). }
  destruct (Z.eqb_spec (avltree.Size t') 0) as [Hz|Hnz].
  - assert (rest = []) as -> by (destruct rest; [done|simpl in *; lia]).
    eexists _, idx, key, w, []. split; [done|].
    split_and!; try done.
    + eapply (store_ok_delete idx tr s _ t'); [by apply store_pre_of_ok|done|done|..].
      * simpl. fold t0. rewrite Hsz0. simpl. lia.
      * simpl. by apply treeStorage_ok_Remove.
      * intros k0 tr' ?. simpl. rewrite registered_Remove by done. naive_solver.
      * intros k0. simpl. rewrite registered_Remove by done.
        intros [Hk0%Hregkey ?]. naive_solver.
    + by apply (oldest_Left_min s key tr).
    + unfold contents. simpl. by rewrite lookup_delete_eq.
    + intros idx' ?. apply Hcfr; [done|done|].
      intros i ?. simpl. by rewrite lookup_delete_ne.
  - unfold Left_Key. rewrite avltree.Left_elements, Hel'.
    destruct rest as [|[k1 w1] rest']; [simpl in *; lia|].
    cbn [mbind result_bind head].
    eexists _, idx, key, w, _. split; [done|].
    split_and!; try done.
    + eapply (store_ok_update idx tr s _ t'); [by apply store_pre_of_ok|done|done|..].
      * simpl. fold t0. rewrite Hsz0, Hsz'. simpl length. lia.
      * by apply tree_ok_Remove.
      * rewrite Hsz'. simpl. lia.
      * simpl. apply treeStorage_ok_Put; [by apply treeStorage_ok_Remove|].
        rewrite registered_Remove by done. intros [Hk0%Hregkey ?]. naive_solver.
      * intros k0 tr' ?. simpl.
        rewrite registered_Put by (by apply treeStorage_ok_Remove).
        rewrite registered_Remove by done. naive_solver.
      * intros k0. simpl.
        rewrite registered_Put by (by apply treeStorage_ok_Remove).
        rewrite registered_Remove by done.
        rewrite min_key_elements, Hel'. simpl. split.
        -- intros [[Hk0%Hregkey ?]|[-> _]]; [naive_solver|done].
        -- intros [= ->]. by right.
    + by apply (oldest_Left_min s key tr).
    + unfold contents. change (indexes (set_oldestValueTree _ s3)) with (indexes s).
      rewrite Hidx. by rewrite (deref_heap s3), Hd3.
    + intros idx' ?. apply Hcfr; [done| |done].
      intros tr' ?. rewrite (deref_heap s3) by done. by apply Hfr.
Qed.

Lemma truncate_le s : count s ≤ size s → truncate s = Ok s.
Proof. intros. unfold truncate. by destruct (Z.leb_spec (count s) (size s)); [|lia]. Qed.

Lemma treeStorage_Left_empty s :
  store_ok s → indexes s = ∅ →
  ∃ m, treeStorage_Left (oldestValueTree s) = Panic m.
Proof.
  intros Hok He. destruct (treeStorage_Left (oldestValueTree s)) as [[key tr]|m] eqn:HL;
    [|eauto].
  apply treeStorage_Left_registered in HL; [|apply (ok_oldest s Hok)].
  apply (ok_registered s Hok) in HL as (idx & Hx & _). by rewrite He in Hx.
Qed.

Lemma treeStorage_Left_nonempty s :
  store_ok s → indexes s ≠ ∅ →
  ∃ key tr, treeStorage_Left (oldestValueTree s) = Ok (key, tr).
Proof.
  intros Hok (idx0 & tr0 & Hx0)%map_choose.
  destruct (avltree.Left_is_Some _ (ok_nonempty s Hok _ _ Hx0)) as [[m0 w0] HL0].
  apply (treeStorage_Left_total _ m0 tr0); [apply (ok_oldest s Hok)|].
  apply (ok_registered s Hok). exists idx0. split; [done|].
  unfold min_key. by rewrite HL0.
Qed.

Lemma truncate_empty_Panic s :
  store_ok s → size s < count s → indexes s = ∅ → ∃ m, truncate s = Panic m.
Proof.
  intros Hok Hgt He. unfold truncate.
  destruct (Z.leb_spec (count s) (size s)); [lia|]. cbv zeta.
  change (oldestValueTree (incExpired 1 (set_count (λ c, c - 1) s)))
    with (oldestValueTree s).
  destruct (treeStorage_Left_empty s Hok He) as [m ->]. eauto.
Qed.

(** [truncate] keeps the invariant; every index keeps its contents or
    loses its oldest entry. *)
Lemma truncate_ok s s' :
  store_ok s → truncate s = Ok s' →
  store_ok s' ∧
  (∀ idx, contents s' idx = contents s idx ∨ contents s' idx = tail (contents s idx)) ∧
  size s' = size s ∧ maxPerSource s' = maxPerSource s ∧ count s' ≤ count s ∧
  (size s < count s → count s' = count s - 1).
Proof.
  intros Hok HT. destruct (Z.le_gt_cases (count s) (size s)) as [Hle|Hgt].
  - rewrite truncate_le in HT by done. injection HT as <-.
    split_and!; auto; lia.
  - destruct (decide (indexes s = ∅)) as [He|Hne].
    { destruct (truncate_empty_Panic s Hok Hgt He) as [m Hm]. congruence. }
    destruct (truncate_spec s Hok Hgt Hne)
      as (s2 & idx & key & w & rest & HT' & Hok' & Hc & _ & Hc' & Hfr & _ & ? & _ & ? & ? & _).
    rewrite HT in HT'. injection HT' as <-. split_and!; try done; try lia.
    intros idx'. destruct (decide (idx' = idx)) as [->|Hn].
    + right. by rewrite Hc, Hc'.
    + left. by apply Hfr.
Qed.

Lemma Put_inv now e0 idx s s' :
  Put now e0 idx s = Ok s' →
  ∃ s1 s2 oldestValue tr,
    Put_insert e0 idx s = Ok s1 ∧ truncate s1 = Ok s2 ∧
    treeStorage_Left (oldestValueTree s2) = Ok (oldestValue, tr) ∧
    s' = setCachePeriod (Z.quot (wrap64 (now - oldestValue)) 1000000) s2.
Proof.
  unfold Put. destruct (Put_insert e0 idx s) as [s1|] eqn:E1; [|done].
  cbn [mbind result_bind]. destruct (truncate s1) as [s2|] eqn:E2; [|done].
  cbn [mbind result_bind].
  destruct (treeStorage_Left (oldestValueTree s2)) as [[ov tr]|] eqn:E3; [|done].
  cbn [mbind result_bind]. intros [= <-]. by exists s1, s2, ov, tr.
Qed.

(** Every index holds at most [maxPerSource] entries. *)
Definition capped (s : Store) : Prop :=
  ∀ idx, Z.of_nat (length (contents s idx)) ≤ maxPerSource s.

Lemma length_tail_le {A} (l : list A) : (length (tail l) ≤ length l)%nat.
Proof. destruct l; simpl; lia. Qed.

Lemma evict_sorted m (l : list (Z * envelopeWrapper)) : sorted l → sorted (evict m l).
Proof. unfold evict. destruct (_ <=? _); [apply sorted_tail|done]. Qed.

Lemma evict_length m (l : list (Z * envelopeWrapper)) :
  1 ≤ m → Z.of_nat (length l) ≤ m → Z.of_nat (length (evict m l)) < m.
Proof.
  intros ? ?. unfold evict. destruct (Z.leb_spec m (Z.of_nat (length l))); [|lia].
  destruct l; simpl in *; lia.
Qed.

Lemma evict_length_le m (l : list (Z * envelopeWrapper)) :
  (length (evict m l) ≤ length l)%nat.
Proof. unfold evict. destruct (_ <=? _); [apply length_tail_le|done]. Qed.

Lemma ins_list_length_le {V} k (v : V) l :
  sorted l → (length (ins_list k v l) ≤ S (length l))%nat.
Proof. intros Hs. rewrite ins_list_length by done. destruct (assoc k l); lia. Qed.

Lemma Put_insert_capped e0 idx s s1 :
  store_ok s → 1 ≤ maxPerSource s → capped s →
  Put_insert e0 idx s = Ok s1 → capped s1.
Proof.
  intros Hok Hm Hcap HP.
  destruct (Put_insert_spec e0 idx s Hok) as (s1' & HP' & _ & Hc & Hfr & _ & Hmx & _).
  rewrite HP in HP'. injection HP' as <-.
  intros idx'. rewrite Hmx. destruct (decide (idx' = idx)) as [->|Hn].
  - rewrite Hc.
    pose proof (evict_length _ _ Hm (Hcap idx)).
    pose proof (ins_list_length_le (Timestamp e0) {| e := e0; index := idx |} _
                  (evict_sorted (maxPerSource s) _ (contents_sorted s idx Hok))).
    lia.
  - rewrite Hfr by done. apply Hcap.
Qed.

Lemma contents_setCachePeriod v s idx : contents (setCachePeriod v s) idx = contents s idx.
Proof. done. Qed.

(** [Put] keeps the invariant, the configuration and the per-source cap. *)
Lemma Put_ok now e0 idx s s' :
  store_ok s → Put now e0 idx s = Ok s' →
  store_ok s' ∧ size s' = size s ∧ maxPerSource s' = maxPerSource s ∧
  (1 ≤ maxPerSource s → capped s → capped s') ∧
  (count s ≤ size s → count s' ≤ size s').
Proof.
  intros Hok (s1 & s2 & ov & tr & H1 & H2 & H3 & ->)%Put_inv.
  destruct (Put_insert_spec e0 idx s Hok)
    as (s1' & H1' & Hok1 & Hc1 & Hfr1 & Hsz1 & Hmx1 & _ & _ & _ & _ & Hcnt).
  rewrite H1 in H1'. injection H1' as <-.
  destruct (truncate_ok s1 s2 Hok1 H2) as (Hok2 & Hsub & Hsz2 & Hmx2 & Hle2 & Hdec).
  split_and!.
  - by apply (store_ok_ext s2).
  - simpl. congruence.
  - simpl. congruence.
  - intros Hm Hcap idx'. rewrite contents_setCachePeriod. simpl. rewrite Hmx2.
    pose proof (Put_insert_capped e0 idx s s1 Hok Hm Hcap H1 idx') as Hc.
    destruct (Hsub idx') as [->| ->]; [done|].
    pose proof (length_tail_le (contents s1 idx')). lia.
  - intros Hcs. simpl. rewrite Hsz2.
    destruct (Z.le_gt_cases (count s1) (size s1)); [lia|].
    rewrite Hdec by done.
    assert (count s1 ≤ count s + 1); [|lia].
    rewrite Hcnt, Hc1.
    pose proof (ins_list_length_le (Timestamp e0) {| e := e0; index := idx |} _
                  (evict_sorted (maxPerSource s) _ (contents_sorted s idx Hok))).
    pose proof (evict_length_le (maxPerSource s) (contents s idx)). lia.
Qed.

Lemma total_empty s : indexes s = ∅ → total s = 0.
Proof. intros He. unfold total. rewrite He, fmap_empty. apply msum_empty. Qed.

(** With a positive global cap [Put] always returns. *)
Lemma Put_total now e0 idx s :
  store_ok s → 1 ≤ size s → ∃ s', Put now e0 idx s = Ok s'.
Proof.
  intros Hok Hsz. unfold Put.
  destruct (Put_insert_spec e0 idx s Hok)
    as (s1 & -> & Hok1 & Hc1 & _ & Hsz1 & _).
  cbn [mbind result_bind].
  assert (Hne1 : indexes s1 ≠ ∅).
  { intros He. assert (indexes s1 !! idx = None) as Hn by (by rewrite He).
    apply (contents_nil s1 idx Hok1) in Hn. rewrite Hn in Hc1.
    symmetry in Hc1. by apply ins_list_not_nil in Hc1. }
  assert (∃ s2, truncate s1 = Ok s2 ∧ store_ok s2 ∧ indexes s2 ≠ ∅) as (s2 & -> & Hok2 & Hne2).
  { destruct (Z.le_gt_cases (count s1) (size s1)) as [Hle|Hgt].
    - exists s1. by rewrite truncate_le.
    - destruct (truncate_spec s1 Hok1 Hgt Hne1)
        as (s2 & ? & ? & ? & ? & -> & Hok2 & _ & _ & _ & _ & _ & Hcnt & _).
      exists s2. split_and!; [done..|]. intros He.
      pose proof (ok_count s2 Hok2) as Ht. rewrite (total_empty s2 He) in Ht. lia. }
  cbn [mbind result_bind].
  destruct (treeStorage_Left_nonempty s2 Hok2 Hne2) as (key & tr & ->).
  cbn [mbind result_bind]. eauto.
Qed.

(** *** Reachable states: [NewStore] followed by calls of [Put] and [Get].
    [P] restricts the pairs (envelope, index) given to [Put]. *)
Inductive reachable (P : Envelope → string → Prop) (size0 maxPerSource0 : Z)
    : Store → Prop :=
| reachable_NewStore : reachable P size0 maxPerSource0 (NewStore size0 maxPerSource0)
| reachable_Put s now e0 idx s' :
    reachable P size0 maxPerSource0 s → P e0 idx →
    Put now e0 idx s = Ok s' → reachable P size0 maxPerSource0 s'
| reachable_Get s idx start end_ ty limit res s' :
    reachable P size0 maxPerSource0 s →
    Get idx start end_ ty limit s = Ok (res, s') →
    reachable P size0 maxPerSource0 s'.

Definition any_index : Envelope → string → Prop := λ _ _, True.
(** [s.Put(e, e.GetSourceId())], the call made by the cache's ingress. *)
Definition own_index : Envelope → string → Prop := λ e0 idx, idx = SourceId e0.

Lemma Get_inv idx start end_ ty limit s res s' :
  Get idx start end_ ty limit s = Ok (res, s') →
  heap s' = heap s ∧ indexes s' = indexes s ∧
  oldestValueTree s' = oldestValueTree s ∧ count s' = count s ∧
  size s' = size s ∧ maxPerSource s' = maxPerSource s ∧
  Expired s' = Expired s ∧ Ingress s' = Ingress s ∧
  Egress s' = Egress s + Z.of_nat (length res).
Proof.
  unfold Get. destruct (indexes s !! idx) as [tr|].
  - destruct (treeTraverse _ _ _ _ _) as [[res' stop]|]; [|done].
    cbn [mbind result_bind]. intros [= <- <-]. done.
  - intros [= <- <-]. split_and!; try done. simpl. lia.
Qed.

Lemma contents_ext s s' idx :
  heap s' = heap s → indexes s' = indexes s → contents s' idx = contents s idx.
Proof. intros Hh Hi. unfold contents, deref. by rewrite Hh, Hi. Qed.

Lemma capped_NewStore size0 max0 : 0 ≤ max0 → capped (NewStore size0 max0).
Proof. intros ? idx. unfold contents. simpl. rewrite lookup_empty. simpl. lia. Qed.

Lemma reachable_ok P size0 max0 s :
  reachable P size0 max0 s →
  store_ok s ∧ size s = size0 ∧ maxPerSource s = max0 ∧
  (1 ≤ max0 → capped s) ∧ (0 ≤ size0 → count s ≤ size s).
Proof.
  induction 1 as [|s now e0 idx s' _ IH _ HP|s idx start end_ ty limit res s' _ IH HG].
  - split_and!; [apply store_ok_NewStore|done|done| |done].
    intros. apply capped_NewStore. lia.
  - destruct IH as (Hok & Hsz & Hmx & Hcap & Hcnt).
    destruct (Put_ok now e0 idx s s' Hok HP) as (? & ? & ? & Hcap' & Hcnt').
    split_and!; [done|congruence|congruence| |].
    + intros. apply Hcap'; [lia|auto].
    + intros. rewrite <-Hsz in *. intuition lia.
  - destruct IH as (Hok & Hsz & Hmx & Hcap & Hcnt).
    apply Get_inv in HG as (Hh & Hi & Ho & Hc & ? & Hm' & _).
    split_and!; [by apply (store_ok_ext s)|congruence|congruence| |].
    + intros ? idx'. rewrite (contents_ext s s') by done. rewrite Hm'. by apply Hcap.
    + intros. rewrite <-Hsz in *. intuition lia.
Qed.

Lemma reachable_own_index size0 max0 s :
  reachable own_index size0 max0 s →
  ∀ idx k w, (k, w) ∈ contents s idx → SourceId (e w) = idx.
Proof.
  induction 1 as [|s now e0 idx s' Hr IH HP HPut|s idx start end_ ty limit res s' _ IH HG].
  - intros idx k w. unfold contents. simpl. rewrite lookup_empty. by intros ?%elem_of_nil.
  - apply reachable_ok in Hr as (Hok & _).
    apply Put_inv in HPut as (s1 & s2 & ov & tr & H1 & H2 & H3 & ->).
    destruct (Put_insert_spec e0 idx s Hok)
      as (s1' & H1' & Hok1 & Hc1 & Hfr1 & _).
    rewrite H1 in H1'. injection H1' as <-.
    destruct (truncate_ok s1 s2 Hok1 H2) as (Hok2 & Hsub & _).
    intros idx' k w. rewrite contents_setCachePeriod. intros Hin.
    assert ((k, w) ∈ contents s1 idx') as Hin1.
    { destruct (Hsub idx') as [E|E]; rewrite E in Hin; [done|].
      destruct (contents s1 idx'); [done|]. by right. }
    destruct (decide (idx' = idx)) as [->|Hn].
    + rewrite Hc1 in Hin1. apply elem_of_ins_list in Hin1.
      2:{ apply evict_sorted. by apply contents_sorted. }
      destruct Hin1 as [[= -> ->]|[Hin1 _]]; [by rewrite HP|].
      apply (IH idx k w). unfold evict in Hin1.
      destruct (_ <=? _); [|done]. destruct (contents s idx); [done|]. by right.
    + rewrite Hfr1 in Hin1 by done. by apply (IH idx' k w).
  - apply Get_inv in HG as (Hh & Hi & _). intros idx' k w.
    rewrite (contents_ext s s') by done. apply IH.
Qed.

(** *** [Get] *)

Lemma treeTraverse_Get_visit_total idx start end_ ty limit n res :
  supported ty →
  ∃ res' stop, treeTraverse n start end_ (Get_visit idx ty limit) res = Ok (res', stop).
Proof.
  intros Hty. revert res. induction n as [|c0 IH0 t w h c1 IH1]; intros res; simpl; [eauto|].
  destruct (start <=? t); [|apply IH1].
  destruct (IH0 res) as (res0 & [|] & ->); cbn [mbind result_bind]; [eauto|].
  destruct (end_ <=? t); [eauto|].
  rewrite Get_visit_supported by done. cbv zeta. cbn [mbind result_bind].
  match goal with |- context [if ?b then Ok (?r, true) else _] =>
      destruct b; [eauto|apply IH1] end.
Qed.

Lemma Get_total idx start end_ ty limit s :
  supported ty → ∃ res s', Get idx start end_ ty limit s = Ok (res, s').
Proof.
  intros Hty. unfold Get. destruct (indexes s !! idx) as [tr|]; [|eauto].
  destruct (treeTraverse_Get_visit_total idx start end_ ty limit (deref s tr) [] Hty)
    as (res & stop & ->).
  cbn [mbind result_bind]. eauto.
Qed.

(** For a positive limit [Get] returns the first [limit] wanted
    envelopes of the index, oldest first. *)
Lemma Get_spec idx start end_ ty limit s :
  store_ok s → supported ty → 1 ≤ limit →
  ∃ s', Get idx start end_ ty limit s =
        Ok (take (Z.to_nat limit)
              ((λ p, e p.2) <$> selection idx start end_ ty (contents s idx)), s').
Proof.
  intros Hok Hty Hl. unfold Get, contents.
  destruct (indexes s !! idx) as [tr|] eqn:E.
  - pose proof (ok_tree s Hok _ _ E) as [Hb _].
    rewrite treeTraverse_scan by done.
    destruct (scan_Get_visit idx start end_ ty limit (avltree.elements (deref s tr)) []
                Hty Hb) as [stop ->]; [simpl; lia|].
    cbn [mbind result_bind]. simpl. rewrite Nat.sub_0_r. eauto.
  - eexists. unfold selection. rewrite !filter_nil. simpl. by rewrite take_nil.
Qed.

Lemma elem_of_selection idx start end_ ty l p :
  p ∈ selection idx start end_ ty l ↔
  p ∈ l ∧ start ≤ p.1 < end_ ∧ index p.2 = idx ∧ matches_type (e p.2) ty = true.
Proof.
  unfold selection. rewrite !list_elem_of_filter. unfold wanted, in_window.
  rewrite !andb_true_iff, Z.leb_le, Z.ltb_lt, String.eqb_eq. naive_solver.
Qed.

Lemma selection_sublist idx start end_ ty l :
  selection idx start end_ ty l `sublist_of` l.
Proof. unfold selection. etrans; apply sublist_filter. Qed.

Lemma StronglySorted_sublist {A} (R : relation A) (l1 l2 : list A) :
  l1 `sublist_of` l2 → StronglySorted R l2 → StronglySorted R l1.
Proof.
  induction 1 as [|x l1 l2 Hsub IH|x l1 l2 Hsub IH]; [done|..].
  - intros [Hx Hs]%StronglySorted_cons. apply StronglySorted_cons. split; [|auto].
    rewrite Forall_forall in *. intros y Hy. apply Hx. by eapply elem_of_sublist.
  - intros [_ Hs]%StronglySorted_cons. auto.
Qed.

Lemma Get_unsupported idx start end_ limit s res s' :
  store_ok s → Get idx start end_ other_type limit s = Ok (res, s') → res = [].
Proof.
  intros Hok. unfold Get. destruct (indexes s !! idx) as [tr|] eqn:E; [|by intros [= <- _]].
  pose proof (ok_tree s Hok _ _ E) as [Hb Hk].
  rewrite treeTraverse_scan by done.
  assert (Hidx : ∀ p, p ∈ avltree.elements (deref s tr) → index p.2 = idx).
  { intros [k w] Hp. apply avltree.elem_of_elements in Hp; [|done].
    by apply Hk in Hp as [_ ?]. }
  assert (∀ r stop, scan (avltree.elements (deref s tr)) start end_
                      (Get_visit idx other_type limit) [] = Ok (r, stop) → r = []) as Hscan.
  { induction (avltree.elements (deref s tr)) as [|[t w] l IH]; simpl.
    - by intros r stop [= <- _].
    - intros r stop. destruct (start <=? t).
      + destruct (end_ <=? t); [by intros [= <- _]|].
        unfold Get_visit. pose proof (Hidx (t, w) ltac:(left)) as Hi. simpl in Hi.
        by rewrite Hi, String.eqb_refl.
      + apply IH. intros p Hp. apply Hidx. by right. }
  destruct (scan _ _ _ _ _) as [[r stop]|] eqn:Es; [|done].
  cbn [mbind result_bind]. intros [= <- _]. by eapply Hscan.
Qed.

Lemma reachable_mono (P Q : Envelope → string → Prop) size0 max0 s :
  (∀ e0 i, P e0 i → Q e0 i) → reachable P size0 max0 s → reachable Q size0 max0 s.
Proof.
  intros HPQ. induction 1; [constructor|eapply reachable_Put|eapply reachable_Get]; eauto.
Qed.

(** What [Get] returns, spelled out for a positive limit. *)
Lemma Get_result idx start end_ ty limit s res s' :
  store_ok s → 1 ≤ limit → Get idx start end_ ty limit s = Ok (res, s') →
  ∃ picked,
    res = (λ p, e p.2) <$> picked ∧
    picked `sublist_of` contents s idx ∧
    (length picked ≤ Z.to_nat limit)%nat ∧
    ∀ p, p ∈ picked → start ≤ p.1 < end_ ∧ index p.2 = idx.
Proof.
  intros Hok Hl HG.
  assert (ty = other_type ∨ supported ty) as [->|Hty]
    by (destruct ty; (by left) || (by right)).
  - apply Get_unsupported in HG as ->; [|done]. exists []. split_and!; try done.
    + apply sublist_nil_l.
    + simpl. lia.
    + by intros p ?%elem_of_nil.
  - destruct (Get_spec idx start end_ ty limit s Hok Hty Hl) as [s'' HG'].
    rewrite HG in HG'. injection HG' as -> _.
    exists (take (Z.to_nat limit) (selection idx start end_ ty (contents s idx))).
    split_and!.
    + by rewrite fmap_take.
    + etrans; [apply sublist_take|apply selection_sublist].
    + rewrite length_take. lia.
    + intros p Hp. eapply elem_of_sublist in Hp; [|apply sublist_take].
      apply elem_of_selection in Hp. naive_solver.
Qed.

(** *** Scenarios of [store_test.go] *)

(** [buildEnvelope] of the store's tests. *)
Definition buildEnvelope (timestamp : Z) (sourceID : string) : Envelope :=
  {| Timestamp := timestamp; SourceId := sourceID; Message := None |}.

(** A run of [s.Put(e, e.GetSourceId())] calls, as the tests and the
    cache's ingress make them. *)
Fixpoint PutAll (now : Z) (es : list Envelope) (s : Store) : result Store :=
  match es with
  | [] => Ok s
  | e0 :: es' => s' ← Put now e0 (SourceId e0) s; PutAll now es' s'
  end.

Lemma reachable_PutAll size0 max0 now es s s' :
  reachable own_index size0 max0 s → PutAll now es s = Ok s' →
  reachable own_index size0 max0 s'.
Proof.
  revert s. induction es as [|e0 es IH]; simpl; intros s Hr.
  - by intros [= <-].
  - destruct (Put now e0 (SourceId e0) s) as [s1|] eqn:E; [|done].
    cbn [mbind result_bind]. apply IH. by eapply reachable_Put.
Qed.

(** The state a run ends in ([s] itself when the run panics). *)
Definition after (now : Z) (es : list Envelope) (s : Store) : Store :=
  match PutAll now es s with Ok s' => s' | Panic _ => s end.

Definition timestamps (es : list Envelope) : list Z := Timestamp <$> es.

Definition one_to_four : list Envelope :=
  [buildEnvelope 1 "a"; buildEnvelope 2 "a"; buildEnvelope 3 "a"; buildEnvelope 4 "a"].

Definition got (idx : string) (start end_ : Z) (ty : EnvelopeType) (limit : Z)
    (s : Store) : list Envelope * Store :=
  match Get idx start end_ ty limit s with
  | Ok r => r
  | Panic _ => ([], s)
  end.




(** The registration of the indexes in [oldestValueTree]: every index
    of the map is non-empty and registered once, under its minimum
    timestamp and no other key; every registered tree is an index of the
    map. *)
Definition registration_inv (s : Store) : Prop :=
  (∀ idx tr, indexes s !! idx = Some tr →
     0 < avltree.Size (deref s tr) ∧
     ∃ key, min_key (deref s tr) = Some key ∧
            (∀ k, registered (oldestValueTree s) k tr ↔ k = key) ∧
            NoDup (values_at key (oldestValueTree s))) ∧
  (∀ k tr, registered (oldestValueTree s) k tr →
     ∃ idx, indexes s !! idx = Some tr).

Lemma store_ok_registration s : store_ok s → registration_inv s.
Proof.
  intros Hok. split.
  - intros idx tr Hx. split; [by apply (ok_nonempty s Hok idx)|].
    destruct (avltree.Left_is_Some _ (ok_nonempty s Hok _ _ Hx)) as [[key w] HL].
    assert (min_key (deref s tr) = Some key) as Hm by (unfold min_key; by rewrite HL).
    exists key. split_and!; [done| |apply NoDup_values_at, (ok_oldest s Hok)].
    intros k. rewrite (ok_registered s Hok). split.
    + intros (idx' & _ & Hm'). congruence.
    + intros ->. eauto.
  - intros k tr (idx & ? & _)%(ok_registered s Hok). eauto.
Qed.

(** [C1] does not hold of this [Put].  Two envelopes with the
    same timestamp and source: the second [Put] replaces the first, the
    index holds one entry and [count] is 1; and the four envelopes of the
    test "increments the timestamp as necessary to prevent overwrites"
    leave three entries, not four. *)
Theorem Put_same_timestamp_overwrites :
  let e1 := {| Timestamp := 1; SourceId := "a";
               Message := Some (Envelope_Log (Some {| Payload := "first" |})) |} in
  let e2 := {| Timestamp := 1; SourceId := "a";
               Message := Some (Envelope_Log (Some {| Payload := "second" |})) |} in
  (∃ s, PutAll 0 [e1; e2] (NewStore 5 10) = Ok s ∧
        contents s "a" = [(1, {| e := e2; index := "a" |})] ∧ count s = 1) ∧
  (∃ s, PutAll 0 [buildEnvelope 1 "a"; buildEnvelope 1 "a";
                  buildEnvelope 3 "a"; buildEnvelope 4 "a"] (NewStore 5 10) = Ok s ∧
        (contents s "a").*1 = [1; 3; 4] ∧ count s = 3).
Proof.
  split; eexists; (split; [vm_compute; reflexivity|]); split; vm_compute; reflexivity.
Qed.

(** [C2], as stated, fails twice.  With [limit = 0] the visitor appends
    the first matching envelope before it tests the limit, so one
    envelope is returned.  And [Get] selects by the index an envelope
    was filed under, not by the envelope's source id: an envelope of
    source "b" put under index "a" is returned by a [Get] for "a". *)
Lemma Get_limit_zero_and_foreign_index :
  (∃ s res s',
     reachable own_index 5 10 s ∧
     Get "a" 0 9999 nil_type 0 s = Ok (res, s') ∧
     timestamps res = [1] ∧ ¬ (Z.of_nat (length res) ≤ 0)) ∧
  (∃ s res s',
     reachable any_index 5 10 s ∧
     Get "a" 0 9999 nil_type 10 s = Ok (res, s') ∧
     SourceId <$> res = ["b"] ∧ ¬ (∀ e0, e0 ∈ res → SourceId e0 = "a")).
Proof.
  split.
  - exists (after 0 one_to_four (NewStore 5 10)).
    exists (got "a" 0 9999 nil_type 0 (after 0 one_to_four (NewStore 5 10))).1.
    exists (got "a" 0 9999 nil_type 0 (after 0 one_to_four (NewStore 5 10))).2.
    split_and!.
    + apply (reachable_PutAll 5 10 0 one_to_four (NewStore 5 10)); [constructor|].
      vm_compute. reflexivity.
    + vm_compute. reflexivity.
    + vm_compute. reflexivity.
    + vm_compute. intros H. apply H. reflexivity.
  - set (s := match Put 0 (buildEnvelope 1 "b") "a" (NewStore 5 10) with
              | Ok s => s | Panic _ => NewStore 5 10 end).
    exists s, (got "a" 0 9999 nil_type 10 s).1, (got "a" 0 9999 nil_type 10 s).2.
    split_and!.
    + apply (reachable_Put any_index 5 10 (NewStore 5 10) 0 (buildEnvelope 1 "b") "a");
        [constructor|done|]. vm_compute. reflexivity.
    + vm_compute. reflexivity.
    + vm_compute. reflexivity.
    + intros H. specialize (H (buildEnvelope 1 "b")).
      assert (buildEnvelope 1 "b" ∈ (got "a" 0 9999 nil_type 10 s).1) as Hin
        by (vm_compute; left).
      specialize (H Hin). discriminate H.
Qed.

(** [C2], amended: on every reachable store, a [Get] with a limit of at
    least one returns envelopes whose timestamps lie in [[start, end)],
    that are stored under the requested index (and carry it as source id
    when every [Put] used the envelope's source id as index), at most
    [limit] of them, in strictly ascending timestamp order; without an
    index for the source the result is empty. *)
Theorem Get_window_ascending_limited
    P size0 max0 s idx start end_ ty limit res s' :
  reachable P size0 max0 s → 1 ≤ limit →
  Get idx start end_ ty limit s = Ok (res, s') →
  (∀ e0, e0 ∈ res → start ≤ Timestamp e0 < end_) ∧
  (∀ e0, e0 ∈ res →
     ∃ w, (Timestamp e0, w) ∈ contents s idx ∧ e w = e0 ∧ index w = idx) ∧
  ((∀ e0 i, P e0 i → i = SourceId e0) → ∀ e0, e0 ∈ res → SourceId e0 = idx) ∧
  Z.of_nat (length res) ≤ limit ∧
  StronglySorted Z.lt (timestamps res) ∧
  (indexes s !! idx = None → res = []).
Proof.
  intros Hr Hl HG. pose proof (reachable_ok _ _ _ _ Hr) as (Hok & _).
  destruct (Get_result idx start end_ ty limit s res s' Hok Hl HG)
    as (picked & -> & Hsub & Hlen & Hp).
  assert (Hin : ∀ p, p ∈ picked → p ∈ contents s idx ∧ p.1 = Timestamp (e p.2)).
  { intros [k w] Hin. eapply elem_of_sublist in Hin; [|done]. split; [done|].
    by apply (contents_elem s idx k w Hok) in Hin as [-> _]. }
  split_and!.
  - intros e0 (p & -> & Hin')%list_elem_of_fmap.
    destruct (Hin p Hin') as [_ <-]. by destruct (Hp p Hin') as [? _].
  - intros e0 (p & -> & Hin')%list_elem_of_fmap. exists p.2.
    destruct (Hin p Hin') as [? <-]. destruct (Hp p Hin') as [_ ?].
    destruct p. by split_and!.
  - intros HP e0 (p & -> & Hin')%list_elem_of_fmap.
    destruct (Hin p Hin') as [Hc _]. destruct p as [k w].
    apply (reachable_own_index size0 max0 s) in Hc; [done|].
    eapply reachable_mono; [|done]. intros e1 i ?. by apply HP.
  - rewrite length_fmap. lia.
  - unfold timestamps. rewrite <-list_fmap_compose.
    assert ((Timestamp ∘ (λ p, e p.2)) <$> picked = picked.*1) as ->.
    { apply list_fmap_ext. intros i p Hi. apply list_elem_of_lookup_2 in Hi.
      simpl. by destruct (Hin p Hi) as [_ ->]. }
    eapply StronglySorted_sublist; [by apply fmap_sublist|].
    by apply contents_sorted.
  - intros Hn. apply (contents_nil s idx Hok) in Hn. rewrite Hn in Hsub.
    apply sublist_nil_r in Hsub. by rewrite Hsub.
Qed.

Lemma Get_window_ascending_limited_witness :
  let s := after 0 one_to_four (NewStore 5 10) in
  let r := got "a" 0 4 nil_type 10 s in
  (reachable own_index 5 10 s ∧ 1 ≤ 10 ∧ Get "a" 0 4 nil_type 10 s = Ok r) ∧
  timestamps r.1 = [1; 2; 3] ∧
  (∀ e0, e0 ∈ r.1 → 0 ≤ Timestamp e0 < 4) ∧
  Z.of_nat (length r.1) ≤ 10 ∧
  StronglySorted Z.lt (timestamps r.1).
Proof.
  cbv zeta.
  assert (Hr : reachable own_index 5 10 (after 0 one_to_four (NewStore 5 10))).
  { apply (reachable_PutAll 5 10 0 one_to_four (NewStore 5 10)); [constructor|].
    vm_compute. reflexivity. }
  assert (HG : Get "a" 0 4 nil_type 10 (after 0 one_to_four (NewStore 5 10)) =
               Ok (got "a" 0 4 nil_type 10 (after 0 one_to_four (NewStore 5 10))))
    by (vm_compute; reflexivity).
  split; [split_and!; [exact Hr|lia|exact HG]|].
  split; [vm_compute; reflexivity|].
  destruct (Get_window_ascending_limited own_index 5 10
              (after 0 one_to_four (NewStore 5 10)) "a" 0 4 nil_type 10
              (got "a" 0 4 nil_type 10 (after 0 one_to_four (NewStore 5 10))).1
              (got "a" 0 4 nil_type 10 (after 0 one_to_four (NewStore 5 10))).2
              Hr ltac:(lia))
    as (Hw & _ & _ & Hlen & Hsorted & _).
  - rewrite HG. by destruct (got _ _ _ _ _ _).
  - split_and!; [exact Hw|exact Hlen|exact Hsorted].
Defined.

(** [C3], as stated, fails for a per-source cap of zero: [Put] always
    stores the new envelope, so an index holds one entry. *)
Lemma Put_cap_zero_exceeded :
  ∃ s tr,
    reachable own_index 5 0 s ∧ indexes s !! "b" = Some tr ∧
    avltree.Size (deref s tr) = 1 ∧
    ¬ (avltree.Size (deref s tr) ≤ maxPerSource s).
Proof.
  exists (after 0 [buildEnvelope 1 "b"] (NewStore 5 0)), 0%nat. split_and!.
  - apply (reachable_PutAll 5 0 0 [buildEnvelope 1 "b"] (NewStore 5 0)); [constructor|].
    vm_compute. reflexivity.
  - vm_compute. reflexivity.
  - vm_compute. reflexivity.
  - vm_compute. intros H. apply H. reflexivity.
Qed.

(** [C3], amended: with a per-source cap of at least one, in every
    state reached from the empty store each index holds at most
    [maxPerSource] entries and [count] is the sum of the sizes of the
    indexes; a [Put] into a full index first drops its oldest entry and
    increments [Expired], then inserts.  (With a [size] of at least one
    every [Put] returns.) *)
Theorem Put_keeps_cap_and_count P size0 max0 s :
  reachable P size0 max0 s → 1 ≤ max0 →
  (∀ idx tr, indexes s !! idx = Some tr → avltree.Size (deref s tr) ≤ max0) ∧
  count s = total s ∧
  (∀ e0 idx s1,
     Put_insert e0 idx s = Ok s1 →
     max0 ≤ Z.of_nat (length (contents s idx)) →
     contents s1 idx =
       ins_list (Timestamp e0) {| e := e0; index := idx |} (tail (contents s idx)) ∧
     Expired s1 = Expired s + 1) ∧
  (1 ≤ size0 → ∀ now e0 idx, ∃ s', Put now e0 idx s = Ok s').
Proof.
  intros Hr Hm. destruct (reachable_ok _ _ _ _ Hr) as (Hok & Hsz & Hmx & Hcap & _).
  split_and!; [| | |intros Hs now e0 idx; apply Put_total; [done|lia]].
  - intros idx tr Hx. specialize (Hcap Hm idx). unfold contents in Hcap.
    rewrite Hx, <-avltree.Size_elements in Hcap. lia.
  - apply (ok_count s Hok).
  - intros e0 idx s1 HP Hfull.
    destruct (Put_insert_spec e0 idx s Hok) as (s1' & HP' & _ & Hc & _ & _ & _ & _ & _ & _ & HE & _).
    rewrite HP in HP'. injection HP' as <-. rewrite Hc, HE. unfold evict.
    rewrite Hmx. by destruct (Z.leb_spec max0 (Z.of_nat (length (contents s idx)))); [|lia].
Qed.

Lemma Put_keeps_cap_and_count_witness :
  let s := after 0 [buildEnvelope 1 "b"; buildEnvelope 2 "a";
                    buildEnvelope 3 "a"; buildEnvelope 4 "a"] (NewStore 5 2) in
  (reachable own_index 5 2 s ∧ 1 ≤ 2) ∧
  (∀ idx tr, indexes s !! idx = Some tr → avltree.Size (deref s tr) ≤ 2) ∧
  count s = total s ∧ count s = 3 ∧ Expired s = 1.
Proof.
  cbv zeta.
  set (es := [buildEnvelope 1 "b"; buildEnvelope 2 "a";
              buildEnvelope 3 "a"; buildEnvelope 4 "a"]).
  assert (Hr : reachable own_index 5 2 (after 0 es (NewStore 5 2))).
  { apply (reachable_PutAll 5 2 0 es (NewStore 5 2)); [constructor|].
    vm_compute. reflexivity. }
  split; [split; [exact Hr|lia]|].
  destruct (Put_keeps_cap_and_count own_index 5 2 (after 0 es (NewStore 5 2)) Hr ltac:(lia))
    as (Hcap & Hcount & _).
  split_and!; [exact Hcap|exact Hcount|vm_compute; reflexivity|vm_compute; reflexivity].
Defined.






(** [C9]: the invariant [store_ok] of the store, which holds of
    [NewStore], is kept by every [Put] and by every [truncate]; it
    makes every index of the map non-empty and registered in
    [oldestValueTree] exactly once, under the key that is its current
    minimum timestamp, and every registered tree an index of the map.
    (With a [size] of at least one every [Put] returns.) *)
Theorem Put_truncate_keep_registration s :
  store_ok s →
  registration_inv s ∧
  (∀ now e0 idx s', Put now e0 idx s = Ok s' → store_ok s' ∧ registration_inv s') ∧
  (∀ e0 idx s', Put_insert e0 idx s = Ok s' → store_ok s' ∧ registration_inv s') ∧
  (∀ s', truncate s = Ok s' → store_ok s' ∧ registration_inv s') ∧
  (1 ≤ size s → ∀ now e0 idx, ∃ s', Put now e0 idx s = Ok s').
Proof.
  intros Hok. split_and!; [| | | |intros Hs now e0 idx; by apply Put_total].
  - by apply store_ok_registration.
  - intros now e0 idx s' HP. destruct (Put_ok now e0 idx s s' Hok HP) as [Hok' _].
    split; [done|by apply store_ok_registration].
  - intros e0 idx s' HP.
    destruct (Put_insert_spec e0 idx s Hok) as (s1 & HP' & Hok' & _).
    rewrite HP in HP'. injection HP' as <-.
    split; [done|by apply store_ok_registration].
  - intros s' HT. destruct (truncate_ok s s' Hok HT) as [Hok' _].
    split; [done|by apply store_ok_registration].
Qed.

Lemma Put_truncate_keep_registration_witness :
  store_ok (NewStore 5 10) ∧
  registration_inv (NewStore 5 10) ∧
  (∀ now e0 idx s', Put now e0 idx (NewStore 5 10) = Ok s' →
     store_ok s' ∧ registration_inv s').
Proof.
  pose proof (Put_truncate_keep_registration (NewStore 5 10) (store_ok_NewStore 5 10))
    as (H1 & H2 & _).
  split_and!; [apply store_ok_NewStore|exact H1|exact H2].
Defined.

(** [C10]: when the filter is [nil] or a pointer to one of the five
    message types, [checkEnvelopeType] never reaches [panic("unknown
    type")] and [Get] returns, on any store and for any arguments; with
    the [nil] filter every envelope is accepted. *)
Theorem Get_returns_for_supported_filter ty idx start end_ limit s :
  ty ∈ [nil_type; ptr_Log; ptr_Counter; ptr_Gauge; ptr_Timer; ptr_Event] →
  (∀ e0, ∃ b, checkEnvelopeType e0 ty = Ok b) ∧
  (∃ res s', Get idx start end_ ty limit s = Ok (res, s')) ∧
  (∀ e0, checkEnvelopeType e0 nil_type = Ok true).
Proof.
  intros Hty. assert (supported ty) as Hs.
  { intros ->. set_solver. }
  split_and!.
  - intros e0. rewrite checkEnvelopeType_supported by done. eauto.
  - by apply Get_total.
  - done.
Qed.

Lemma Get_returns_for_supported_filter_witness :
  let s := after 0 one_to_four (NewStore 5 10) in
  ptr_Log ∈ [nil_type; ptr_Log; ptr_Counter; ptr_Gauge; ptr_Timer; ptr_Event] ∧
  (∃ res s', Get "a" 0 9999 ptr_Log 10 s = Ok (res, s')) ∧
  (∀ e0, checkEnvelopeType e0 nil_type = Ok true).
Proof.
  cbv zeta.
  assert (Hin : ptr_Log ∈ [nil_type; ptr_Log; ptr_Counter; ptr_Gauge; ptr_Timer; ptr_Event])
    by (right; left).
  split; [exact Hin|].
  destruct (Get_returns_for_supported_filter ptr_Log "a" 0 9999 10
              (after 0 one_to_four (NewStore 5 10)) Hin) as (_ & HG & Hnil).
  split; [exact HG|exact Hnil].
Defined.

End store.

(** ** The routing hash: Go's [hash/crc64] and [logcache.setupRouting]

    [uint64] values are integers in [[0, 2^64)]. *)

Module crc64.

(** [ECMA] is the ECMA polynomial, defined in ECMA 182 (reversed
    representation). *)
Definition ECMA : Z := 0xC96C5795D7870F42.

Definition uint64_max : Z := 2 ^ 64 - 1.

(** One round of the inner loop of [makeTable]. *)
Definition shift1 (poly crc : Z) : Z :=
  if Z.land crc 1 =? 1 then Z.lxor (Z.shiftr crc 1) poly else Z.shiftr crc 1.

(** [Table] is a 256-word table representing the polynomial. *)
Notation Table := (list Z) (only parsing).

(** [MakeTable] returns a [Table] constructed from the polynomial:
    entry [i] is [i] after eight rounds. *)
Definition MakeTable (poly : Z) : Table :=
  (λ i : nat, Nat.iter 8 (shift1 poly) (Z.of_nat i)) <$> seq 0 256.

Definition entry (tab : Table) (i : Z) : Z := tab !!! Z.to_nat i.

(** [update]: complement, one table step per byte, complement.  (For a
    long input Go switches to an eight-byte-at-a-time variant of the same
    function.) *)
Definition update (crc : Z) (tab : Table) (p : list Z) : Z :=
  let crc := Z.lxor crc uint64_max in
  let crc :=
    foldl (λ crc v, Z.lxor (entry tab (Z.lxor (Z.land crc 255) v)) (Z.shiftr crc 8))
          crc p in
  Z.lxor crc uint64_max.

(** [Checksum] returns the CRC-64 checksum of [data] using the
    polynomial represented by the table. *)
Definition Checksum (data : list Z) (tab : Table) : Z := update 0 tab data.

End crc64.

Module logcache.

(** [[]byte(s)]: the bytes of a Go string (its UTF-8 encoding). *)
Definition bytes (s : string) : list Z :=
  (λ c, Z.of_N (Ascii.N_of_ascii c)) <$> String.list_ascii_of_string s.

Definition tableECMA : crc64.Table := crc64.MakeTable crc64.ECMA.

(** The [hasher] closure of [setupRouting]. *)
Definition hasher (s : string) : Z := crc64.Checksum (bytes s) tableECMA.

End logcache.

Module crc64_facts.
Import crc64 logcache.

Definition is_uint64 (x : Z) : Prop := 0 ≤ x < 2 ^ 64.

Lemma lxor_uint64 x y : is_uint64 x → is_uint64 y → is_uint64 (Z.lxor x y).
Proof.
  intros [Hx0 Hx] [Hy0 Hy].
  assert (0 ≤ Z.lxor x y) by (apply Z.lxor_nonneg; tauto).
  split; [done|].
  destruct (decide (Z.lxor x y = 0)) as [->|Hne]; [lia|].
  assert (0 < Z.lxor x y) by lia.
  apply Z.log2_lt_pow2; [done|].
  eapply Z.le_lt_trans; [apply Z.log2_lxor; lia|].
  apply Z.max_lub_lt.
  - destruct (decide (x = 0)) as [->|]; [simpl; lia|]. apply Z.log2_lt_pow2; lia.
  - destruct (decide (y = 0)) as [->|]; [simpl; lia|]. apply Z.log2_lt_pow2; lia.
Qed.

Lemma shiftr_uint64 x n : 0 ≤ n → is_uint64 x → is_uint64 (Z.shiftr x n).
Proof.
  intros Hn [Hx0 Hx]. rewrite Z.shiftr_div_pow2 by done. split.
  - apply Z.div_pos; [done|]. by apply Z.pow_pos_nonneg.
  - eapply Z.le_lt_trans; [|done]. apply Z.div_le_upper_bound.
    + by apply Z.pow_pos_nonneg.
    + assert (1 ≤ 2 ^ n) by (pose proof (Z.pow_pos_nonneg 2 n); lia). nia.
Qed.

Lemma tableECMA_uint64 : Forall is_uint64 tableECMA.
Proof.
  apply Forall_forall. intros x Hx.
  assert (forallb (λ x, (0 <=? x) && (x <? 2 ^ 64)) tableECMA = true) as Hall
    by (vm_compute; reflexivity).
  rewrite forallb_forall in Hall. apply list_elem_of_In, Hall in Hx.
  apply andb_true_iff in Hx as [?%Z.leb_le ?%Z.ltb_lt]. by split.
Qed.

Lemma entry_uint64 i : is_uint64 (entry tableECMA i).
Proof.
  unfold entry. rewrite list_lookup_total_alt.
  destruct (tableECMA !! Z.to_nat i) as [x|] eqn:E; simpl.
  - eapply Forall_lookup_1; [apply tableECMA_uint64|done].
  - unfold is_uint64. lia.
Qed.

Lemma hasher_uint64 s : is_uint64 (hasher s).
Proof.
  unfold hasher, Checksum, update. cbv zeta.
  assert (Hmax : is_uint64 uint64_max) by (unfold is_uint64, uint64_max; lia).
  apply lxor_uint64; [|done].
  assert (Hinit : is_uint64 (Z.lxor 0 uint64_max)) by (by apply lxor_uint64).
  revert Hinit. generalize (Z.lxor 0 uint64_max). 
  induction (bytes s) as [|v p IH]; intros crc Hcrc; simpl; [done|].
  apply IH. apply lxor_uint64; [apply entry_uint64|by apply shiftr_uint64].
Qed.

(** [C8]: the routing hash is Go's table-driven CRC-64 over the ECMA
    polynomial, applied to the bytes of the source id; it hashes
    "source-0" to 7700738999732113484 and "source-1" to
    15704273932878139171 (so the first falls into the lower half of the
    64-bit ring and the second into the upper half), and it yields the
    check value 0x995DC9BBDF1939FA of the reflected CRC-64 with the ECMA
    polynomial on "123456789". *)
Theorem hasher_is_crc64_ecma :
  (∀ s, hasher s = Checksum (bytes s) (MakeTable ECMA) ∧ 0 ≤ hasher s < 2 ^ 64) ∧
  hasher "source-0" = 7700738999732113484 ∧
  hasher "source-1" = 15704273932878139171 ∧
  hasher "source-0" ≤ 9223372036854775807 < hasher "source-1" ∧
  hasher "123456789" = 0x995DC9BBDF1939FA.
Proof.
  split; [intros s; split; [reflexivity|apply hasher_uint64]|].
  assert (H0 : hasher "source-0" = 7700738999732113484) by (vm_compute; reflexivity).
  assert (H1 : hasher "source-1" = 15704273932878139171) by (vm_compute; reflexivity).
  split_and!; [exact H0|exact H1|rewrite H0; lia|rewrite H1; lia|vm_compute; reflexivity].
Qed.
End crc64_facts.

(** ** The ring between [Send] and the flusher: [go-diodes]

    [diodes.OneToOne] of code.cloudfoundry.org/go-diodes, the ring
    buffer the batched client is built on: the writer never waits and
    overwrites the oldest slot; the reader detects that it was lapped by
    the sequence number of the bucket it finds and reports how many
    entries it skips to the alerter. *)

Module diodes.
Import loggregator_v2.

Definition uint64 (x : Z) : Z := x mod 2 ^ 64.

Record bucket := { data : Envelope; seq : Z }.

Record OneToOne := {
  buffer : list (option bucket);
  writeIndex : Z;
  readIndex : Z;
}.

(** [NewOneToOne(size, alerter)]; the alerter is called by the owner of
    the ring with the count [TryNext] reports. *)
Definition NewOneToOne (size : Z) : OneToOne :=
  {| buffer := replicate (Z.to_nat size) None; writeIndex := 0; readIndex := 0 |}.

(** [Set] sets the data in the next slot of the ring buffer. *)
Definition Set_ (x : Envelope) (d : OneToOne) : OneToOne :=
  let idx := writeIndex d mod Z.of_nat (length (buffer d)) in
  let newBucket := {| data := x; seq := writeIndex d |} in
  {| buffer := <[Z.to_nat idx := Some newBucket]> (buffer d);
     writeIndex := uint64 (writeIndex d + 1);
     readIndex := readIndex d |}.

(** [TryNext]: the next value if there is one, the number of dropped
    entries passed to [alerter.Alert] if the reader was lapped, and the
    ring afterwards (the slot read is swapped for [nil]). *)
Definition TryNext (d : OneToOne) : option Envelope * option Z * OneToOne :=
  let idx := readIndex d mod Z.of_nat (length (buffer d)) in
  let result := default None (buffer d !! Z.to_nat idx) in
  let d := {| buffer := <[Z.to_nat idx := None]> (buffer d);
              writeIndex := writeIndex d; readIndex := readIndex d |} in
  match result with
  | None => (None, None, d)
  | Some result =>
      if seq result <? readIndex d then (None, None, d)
      else
        let '(alert, d) :=
          if readIndex d <? seq result
          then (Some (seq result - readIndex d),
                {| buffer := buffer d; writeIndex := writeIndex d;
                   readIndex := seq result |})
          else (None, d) in
        (Some (data result), alert,
         {| buffer := buffer d; writeIndex := writeIndex d;
            readIndex := uint64 (readIndex d + 1) |})
  end.


Definition Sets (xs : list Envelope) (d : OneToOne) : OneToOne :=
  foldl (λ d x, Set_ x d) d xs.

Lemma Sets_cons x xs d : Sets (x :: xs) d = Sets xs (Set_ x d).
Proof. done. Qed.

Lemma Sets_length xs d : length (buffer (Sets xs d)) = length (buffer d).
Proof.
  revert d. induction xs as [|x xs IH]; intros d; [done|].
  rewrite Sets_cons, IH. simpl. by rewrite length_insert.
Qed.

Lemma Sets_readIndex xs d : readIndex (Sets xs d) = readIndex d.
Proof.
  revert d. induction xs as [|x xs IH]; intros d; [done|].
  by rewrite Sets_cons, IH.
Qed.

Lemma Sets_writeIndex xs d :
  0 ≤ writeIndex d → writeIndex d + Z.of_nat (length xs) < 2 ^ 64 →
  writeIndex (Sets xs d) = writeIndex d + Z.of_nat (length xs).
Proof.
  revert d. induction xs as [|x xs IH]; intros d Hw Hlt; [simpl; lia|].
  simpl in Hlt.
  assert (uint64 (writeIndex d + 1) = writeIndex d + 1) as Hu
    by (unfold uint64; apply Z.mod_small; lia).
  rewrite Sets_cons, IH; simpl; rewrite Hu; lia.
Qed.

Lemma Sets_app xs ys d : Sets (xs ++ ys) d = Sets ys (Sets xs d).
Proof. apply foldl_app. Qed.


(** What [TryNext] delivers was written at or after the read index,
    and the read index moves past it. *)
Lemma TryNext_delivers d x dropped d' :
  TryNext d = (Some x, dropped, d') → 0 ≤ readIndex d →
  ∃ bk, data bk = x ∧ readIndex d ≤ seq bk ∧ readIndex d' = uint64 (seq bk + 1) ∧
        dropped = (if readIndex d <? seq bk then Some (seq bk - readIndex d) else None).
Proof.
  unfold TryNext. cbv zeta.
  destruct (default None _) as [bk|]; [|done]. simpl.
  destruct (Z.ltb_spec (seq bk) (readIndex d)); [done|].
  destruct (Z.ltb_spec (readIndex d) (seq bk)); intros [= <- <- <-] ?; exists bk; simpl.
  - split_and!; [done|lia|done|]. by destruct (Z.ltb_spec (readIndex d) (seq bk)); [|lia].
  - split_and!; [done|lia| |].
    + by replace (seq bk) with (readIndex d) by lia.
    + by destruct (Z.ltb_spec (readIndex d) (seq bk)); [lia|].
Qed.

(** [k] successive calls of [TryNext]: what each returned (the value,
    and the count passed to the alerter), and the ring afterwards. *)
Fixpoint TryNexts (k : nat) (d : OneToOne) : list (option Envelope * option Z) * OneToOne :=
  match k with
  | O => ([], d)
  | S k' =>
      let '(e, dropped, d) := TryNext d in
      let '(rs, d) := TryNexts k' d in
      ((e, dropped) :: rs, d)
  end.

(** Slot [j] of a fresh ring of capacity [N] after the writes [xs], at
    most [2 N] of them: the write of the second lap if there was one,
    else the write of the first lap if there was one. *)
Definition slot_after (N : nat) (xs : list Envelope) (j : nat) : option bucket :=
  match xs !! (j + N)%nat with
  | Some x => Some {| data := x; seq := Z.of_nat (j + N) |}
  | None =>
      match xs !! j with
      | Some x => Some {| data := x; seq := Z.of_nat j |}
      | None => None
      end
  end.

Lemma Sets_snoc xs x d : Sets (xs ++ [x]) d = Set_ x (Sets xs d).
Proof. by rewrite Sets_app. Qed.

Lemma Sets_fresh N xs :
  (0 < N)%nat → (length xs ≤ 2 * N)%nat → Z.of_nat N < 2 ^ 62 →
  writeIndex (Sets xs (NewOneToOne (Z.of_nat N))) = Z.of_nat (length xs) ∧
  readIndex (Sets xs (NewOneToOne (Z.of_nat N))) = 0 ∧
  length (buffer (Sets xs (NewOneToOne (Z.of_nat N)))) = N ∧
  ∀ j, (j < N)%nat →
       buffer (Sets xs (NewOneToOne (Z.of_nat N))) !! j = Some (slot_after N xs j).
Proof.
  intros HN Hlen Hsmall.
  assert (E : NewOneToOne (Z.of_nat N) =
              {| buffer := replicate N None; writeIndex := 0; readIndex := 0 |})
    by (unfold NewOneToOne; by rewrite Nat2Z.id).
  rewrite E. clear E.
  induction xs as [|x xs IH] using rev_ind.
  - simpl. split_and!; [done|done|by rewrite length_replicate|].
    intros j Hj. unfold slot_after. simpl. by apply lookup_replicate_2.
  - rewrite length_app in Hlen. simpl in Hlen.
    destruct IH as (Hw & Hr & Hl & Hb); [lia|].
    rewrite Sets_snoc, length_app. simpl. rewrite Hw, Hr, Hl, length_insert, Hl.
    assert (uint64 (Z.of_nat (length xs) + 1) = Z.of_nat (length xs) + 1) as ->
      by (unfold uint64; apply Z.mod_small; lia).
    split_and!; [lia|done|done|].
    intros j Hj.
    assert (Hidx : Z.to_nat (Z.of_nat (length xs) mod Z.of_nat N) =
                   if decide (length xs < N)%nat then length xs else (length xs - N)%nat).
    { destruct (decide (length xs < N)%nat).
      - rewrite Z.mod_small by lia. lia.
      - replace (Z.of_nat (length xs)) with (Z.of_nat (length xs - N) + 1 * Z.of_nat N) by lia.
        rewrite Z.mod_add by lia. rewrite Z.mod_small by lia. lia. }
    rewrite Hidx. unfold slot_after.
    destruct (decide (length xs < N)%nat) as [Hlt|Hge].
    + destruct (decide (j = length xs)) as [->|Hne].
      * rewrite list_lookup_insert_eq by lia.
        rewrite (lookup_ge_None_2 (xs ++ [x])) by (rewrite length_app; simpl; lia).
        by rewrite lookup_app_r, Nat.sub_diag by lia.
      * rewrite list_lookup_insert_ne by done. rewrite Hb by done. unfold slot_after.
        rewrite (lookup_ge_None_2 (xs ++ [x])) by (rewrite length_app; simpl; lia).
        rewrite (lookup_ge_None_2 xs (j + N)) by lia.
        destruct (decide (j < length xs)%nat).
        -- by rewrite lookup_app_l by lia.
        -- rewrite (lookup_ge_None_2 (xs ++ [x]) j) by (rewrite length_app; simpl; lia).
           by rewrite (lookup_ge_None_2 xs j) by lia.
    + destruct (decide (j = (length xs - N)%nat)) as [->|Hne].
      * rewrite list_lookup_insert_eq by lia.
        replace (length xs - N + N)%nat with (length xs) by lia.
        by rewrite lookup_app_r, Nat.sub_diag by lia.
      * rewrite list_lookup_insert_ne by done. rewrite Hb by done. unfold slot_after.
        destruct (decide (j + N < length xs)%nat).
        -- by rewrite !lookup_app_l by lia.
        -- rewrite (lookup_ge_None_2 (xs ++ [x]) (j + N))
             by (rewrite length_app; simpl; lia).
           rewrite (lookup_ge_None_2 xs (j + N)) by lia.
           by rewrite lookup_app_l by lia.
Qed.

(** The reader has nothing to read: the slot under the read index is
    empty, or holds an entry older than the read index. *)
Definition stale (d : OneToOne) : Prop :=
  ∀ bk, buffer d !! Z.to_nat (readIndex d mod Z.of_nat (length (buffer d))) = Some (Some bk) →
        seq bk < readIndex d.

Lemma TryNext_stale d : stale d → ∃ d', TryNext d = (None, None, d') ∧ stale d'.
Proof.
  intros Hs. unfold TryNext. cbv zeta.
  set (idx := Z.to_nat (readIndex d mod Z.of_nat (length (buffer d)))) in *.
  assert (Hs' : stale {| buffer := <[idx := None]> (buffer d);
                         writeIndex := writeIndex d; readIndex := readIndex d |}).
  { intros bk. simpl. rewrite length_insert. fold idx.
    destruct (decide (idx < length (buffer d))%nat).
    - by rewrite list_lookup_insert_eq.
    - by rewrite lookup_ge_None_2 by (rewrite length_insert; lia). }
  destruct (buffer d !! idx) as [[bk|]|] eqn:E; simpl; [|by eexists..].
  specialize (Hs bk E). destruct (Z.ltb_spec (seq bk) (readIndex d)); [|lia].
  by eexists.
Qed.

Lemma TryNexts_stale k d :
  stale d → omap fst (TryNexts k d).1 = [] ∧ omap snd (TryNexts k d).1 = [].
Proof.
  revert d. induction k as [|k IH]; intros d Hs; [done|].
  destruct (TryNext_stale d Hs) as (d' & HT & Hs'). simpl. rewrite HT.
  specialize (IH d' Hs'). destruct (TryNexts k d') as [rs d'']. exact IH.
Qed.




End diodes.

(** ** The batched ingress client: [internal/routing] *)

Module routing.
Import loggregator_v2.

Definition Millisecond : Z := 1000000.
Definition Second : Z := 1000 * Millisecond.

(** [rpc.SendRequest], [rpc.SendResponse] and the part of a
    [context.Context] the client sets. *)
Record EnvelopeBatch := { Batch : list Envelope }.
Record SendRequest := { Envelopes : option EnvelopeBatch; LocalOnly : bool }.
Inductive SendResponse := Build_SendResponse.
Record Context := { Timeout : option Z }.

Definition Background : Context := {| Timeout := None |}.
Definition WithTimeout (parent : Context) (timeout : Z) : Context :=
  {| Timeout := Some (match Timeout parent with
                      | Some t => Z.min t timeout
                      | None => timeout
                      end) |}.

(** [in.GetEnvelopes().GetBatch()]: the getters are nil-safe. *)
Definition GetBatch (in_ : option SendRequest) : list Envelope :=
  match in_ with
  | Some {| Envelopes := Some b |} => Batch b
  | _ => []
  end.

(** A unary [Send] received by the peer [c]. *)
Record Call := { call_ctx : Context; call_in : SendRequest }.

(** [go-batching]'s [Batcher], as the interface [start] uses: [Write]
    and [Flush] hand zero or more batches to the writer. *)
Class Batcher (B : Type) := {
  NewBatcher : Z → Z → B;
  Batcher_Write : Z → Envelope → B → B * list (list Envelope);
  Batcher_Flush : Z → B → B * list (list Envelope);
}.

(** The batcher of go-batching: a batch is written out when it has
    [size] entries, or on [Flush] once [interval] has passed since the
    last write. *)
Record SizeIntervalBatcher := {
  bsize : Z; binterval : Z; batch : list Envelope; lastWrite : Z;
}.

Definition writeBatch (now : Z) (b : SizeIntervalBatcher)
    : SizeIntervalBatcher * list (list Envelope) :=
  match batch b with
  | [] => (b, [])
  | _ => ({| bsize := bsize b; binterval := binterval b; batch := [];
             lastWrite := now |}, [batch b])
  end.

Definition SizeIntervalBatcher_Flush (now : Z) (b : SizeIntervalBatcher)
    : SizeIntervalBatcher * list (list Envelope) :=
  if now - lastWrite b <? binterval b then (b, []) else writeBatch now b.

Definition SizeIntervalBatcher_Write (now : Z) (x : Envelope) (b : SizeIntervalBatcher)
    : SizeIntervalBatcher * list (list Envelope) :=
  let b := {| bsize := bsize b; binterval := binterval b;
              batch := batch b ++ [x]; lastWrite := lastWrite b |} in
  if bsize b <=? Z.of_nat (length (batch b)) then writeBatch now b
  else SizeIntervalBatcher_Flush now b.

Global Instance size_interval_batcher : Batcher SizeIntervalBatcher := {|
  NewBatcher size interval :=
    {| bsize := size; binterval := interval; batch := []; lastWrite := 0 |};
  Batcher_Write := SizeIntervalBatcher_Write;
  Batcher_Flush := SizeIntervalBatcher_Flush;
|}.

(** [BatchedIngressClient].  [c] is the peer, seen as the calls it has
    received so far; [log] is what was written to the logger and
    [incDroppedMetric] the counter the dropped envelopes are added to. *)
Record BatchedIngressClient := {
  c : list Call;
  buffer : diodes.OneToOne;
  size : Z;
  interval : Z;
  log : list string;
  incDroppedMetric : Z;
}.

Definition set_buffer (d : diodes.OneToOne) (b : BatchedIngressClient) : BatchedIngressClient :=
  {| c := c b; buffer := d; size := size b; interval := interval b;
     log := log b; incDroppedMetric := incDroppedMetric b |}.

Definition Printf (line : string) (b : BatchedIngressClient) : BatchedIngressClient :=
  {| c := c b; buffer := buffer b; size := size b; interval := interval b;
     log := log b ++ [line]; incDroppedMetric := incDroppedMetric b |}.

(** The [diodes.AlertFunc] given to [NewOneToOne]. *)
Definition alert (dropped : Z) (b : BatchedIngressClient) : BatchedIngressClient :=
  let b := Printf ("dropped " +:+ pretty dropped +:+ " envelopes") b in
  {| c := c b; buffer := buffer b; size := size b; interval := interval b;
     log := log b; incDroppedMetric := incDroppedMetric b + dropped |}.

(** [NewBatchedIngressClient]; the flusher it starts is [start] below. *)
Definition NewBatchedIngressClient (size interval : Z) : BatchedIngressClient :=
  {| c := []; buffer := diodes.NewOneToOne 10000; size := size; interval := interval;
     log := []; incDroppedMetric := 0 |}.

(** [Send] batches envelopes before shipping them to the client. *)
Definition Send (ctx : Context) (in_ : option SendRequest) (b : BatchedIngressClient)
    : BatchedIngressClient * (SendResponse * option string) :=
  let b := foldl (λ b x, set_buffer (diodes.Set_ x (buffer b)) b) b (GetBatch in_) in
  (b, (Build_SendResponse, None)).

Section flusher.
(** The peer answers a call with an error or [nil]; its answer may
    depend on everything it has received before. *)
Context (c_Send : list Call → Call → option string).
Context `{Batcher B}.

(** [write]: one unary [Send] to the peer per batch. *)
Definition write (batch : list Envelope) (b : BatchedIngressClient) : BatchedIngressClient :=
  let e := batch in
  let ctx := WithTimeout Background (3 * Second) in
  let call := {| call_ctx := ctx;
                 call_in := {| LocalOnly := true;
                               Envelopes := Some {| Batch := e |} |} |} in
  let err := c_Send (c b) call in
  let b := {| c := c b ++ [call]; buffer := buffer b; size := size b;
              interval := interval b; log := log b;
              incDroppedMetric := incDroppedMetric b |} in
  match err with
  | Some err => Printf ("failed to write envelope: " +:+ err) b
  | None => b
  end.

(** One pass through the [for] loop of [start], at clock reading
    [now]; [batcher] is the loop's local batcher.  (After an empty read
    the loop sleeps 50 ms before its next pass.) *)
Definition start_pass (now : Z) (st : BatchedIngressClient * B) : BatchedIngressClient * B :=
  let '(b, batcher) := st in
  let '(e, dropped, d) := diodes.TryNext (buffer b) in
  let b := set_buffer d b in
  let b := match dropped with Some n => alert n b | None => b end in
  let '(batcher, batches) :=
    match e with
    | None => Batcher_Flush now batcher
    | Some e => Batcher_Write now e batcher
    end in
  (foldl (λ b batch, write batch b) b batches, batcher).

(** [start]: the batcher is created, then the loop runs; [clock] gives
    the clock reading of each pass made so far. *)
Definition start_loop (clock : list Z) (st : BatchedIngressClient * B) : BatchedIngressClient * B :=
  foldl (λ st now, start_pass now st) st clock.

Definition start (clock : list Z) (b : BatchedIngressClient) : BatchedIngressClient * B :=
  start_loop clock (b, NewBatcher (size b) (interval b)).



End flusher.


(** The call [write] makes for a batch. *)
Definition peer_call (batch : list Envelope) : Call :=
  {| call_ctx := {| Timeout := Some (3 * Second) |};
     call_in := {| LocalOnly := true; Envelopes := Some {| Batch := batch |} |} |}.


Section flusher_facts.
Context (c_Send : list Call → Call → option string).
Context `{Batcher B}.


Lemma write_log batch b :
  log (write c_Send batch b) =
  log b ++ match c_Send (c b) (peer_call batch) with
           | Some err => ["failed to write envelope: " +:+ err]
           | None => []
           end.
Proof.
  unfold write. cbv zeta. change (WithTimeout Background (3 * Second))
    with {| Timeout := Some (3 * Second) |}.
  fold (peer_call batch). destruct (c_Send _ _); simpl; [done|by rewrite app_nil_r].
Qed.











End flusher_facts.



Lemma Send_buffer ctx in_ b :
  buffer (Send ctx in_ b).1 = diodes.Sets (GetBatch in_) (buffer b).
Proof.
  unfold Send. cbn [fst]. revert b.
  induction (GetBatch in_) as [|x xs IH]; intros b; [done|].
  rewrite diodes.Sets_cons. simpl. by rewrite IH.
Qed.

Lemma Send_frame ctx in_ b :
  c (Send ctx in_ b).1 = c b ∧ log (Send ctx in_ b).1 = log b ∧
  incDroppedMetric (Send ctx in_ b).1 = incDroppedMetric b ∧
  size (Send ctx in_ b).1 = size b ∧ interval (Send ctx in_ b).1 = interval b.
Proof.
  unfold Send. cbn [fst]. revert b.
  induction (GetBatch in_) as [|x xs IH]; intros b; [done|]. simpl.
  destruct (IH (set_buffer (diodes.Set_ x (buffer b)) b)) as (-> & -> & -> & -> & ->).
  done.
Qed.

(** The line [write] logs when the peer answers with an error. *)
Definition write_failure (line : string) : Prop :=
  ∃ err, line = "failed to write envelope: " +:+ err.

Section overflow.
Context (c_Send : list Call → Call → option string).
Context `{Batcher B}.

Lemma writes_frame batches b :
  incDroppedMetric (foldl (λ b batch, write c_Send batch b) b batches) = incDroppedMetric b ∧
  buffer (foldl (λ b batch, write c_Send batch b) b batches) = buffer b ∧
  ∃ errs, log (foldl (λ b batch, write c_Send batch b) b batches) = log b ++ errs ∧
          Forall write_failure errs.
Proof.
  revert b. induction batches as [|batch batches IH]; intros b; simpl.
  - split_and!; [done..|]. exists []. by rewrite app_nil_r.
  - destruct (IH (write c_Send batch b)) as (-> & -> & errs & -> & Herrs).
    rewrite write_log. split_and!.
    + unfold write. cbv zeta. by destruct (c_Send _ _).
    + unfold write. cbv zeta. by destruct (c_Send _ _).
    + eexists. rewrite <-app_assoc. split; [done|].
      apply Forall_app. split; [|done].
      destruct (c_Send _ _) as [err|]; [|done].
      apply Forall_singleton. by exists err.
Qed.

(** One pass of the flusher: the ring is what [TryNext] leaves, the
    counter grows by the count given to the alerter, and the log by the
    alerter's line and by write failures. *)
Lemma start_pass_ring now b batcher :
  buffer (start_pass c_Send now (b, batcher)).1 = (diodes.TryNext (buffer b)).2 ∧
  incDroppedMetric (start_pass c_Send now (b, batcher)).1 =
    incDroppedMetric b + default 0 (diodes.TryNext (buffer b)).1.2 ∧
  ∃ errs,
    log (start_pass c_Send now (b, batcher)).1 =
      log b ++ match (diodes.TryNext (buffer b)).1.2 with
               | Some n => ["dropped " +:+ pretty n +:+ " envelopes"]
               | None => []
               end ++ errs ∧
    Forall write_failure errs.
Proof.
  unfold start_pass. destruct (diodes.TryNext (buffer b)) as [[e0 dropped] d].
  destruct (match e0 with
            | Some e1 => Batcher_Write now e1 batcher
            | None => Batcher_Flush now batcher
            end) as [batcher' batches].
  cbn [fst snd].
  match goal with
  | |- context [foldl _ ?b0 batches] =>
      destruct (writes_frame batches b0) as (-> & -> & errs & -> & Herrs)
  end.
  destruct dropped as [n|]; simpl.
  - split_and!; [done..|]. exists errs. by rewrite <-app_assoc.
  - split_and!; [done|lia|]. by exists errs.
Qed.

Lemma start_loop_cons now clock st :
  start_loop c_Send (now :: clock) st = start_loop c_Send clock (start_pass c_Send now st).
Proof. done. Qed.

(** The passes of the flusher read the ring as [TryNexts] does. *)
Lemma start_loop_ring clock b batcher :
  buffer (start_loop c_Send clock (b, batcher)).1 =
  (diodes.TryNexts (length clock) (buffer b)).2.
Proof.
  revert b batcher. induction clock as [|now clock IH]; intros b batcher; [done|].
  rewrite start_loop_cons.
  destruct (start_pass_ring now b batcher) as (Hb & _).
  destruct (start_pass c_Send now (b, batcher)) as [b' batcher'].
  rewrite IH. cbn [fst] in Hb. rewrite Hb. simpl.
  destruct (diodes.TryNext (buffer b)) as [[e0 dropped] d]. simpl.
  by destruct (diodes.TryNexts (length clock) d).
Qed.

(** Passes in which the alerter is not called leave the counter alone
    and add write failures to the log at most. *)
Lemma start_loop_quiet clock b batcher :
  omap snd (diodes.TryNexts (length clock) (buffer b)).1 = [] →
  incDroppedMetric (start_loop c_Send clock (b, batcher)).1 = incDroppedMetric b ∧
  ∃ errs, log (start_loop c_Send clock (b, batcher)).1 = log b ++ errs ∧
          Forall write_failure errs.
Proof.
  revert b batcher. induction clock as [|now clock IH]; intros b batcher Hq.
  - split; [done|]. exists []. by rewrite app_nil_r.
  - rewrite start_loop_cons.
    destruct (start_pass_ring now b batcher) as (Hb & Hm & errs & Hl & Herrs).
    destruct (start_pass c_Send now (b, batcher)) as [b' batcher'].
    cbn [fst] in Hb, Hm, Hl. simpl in Hq.
    destruct (diodes.TryNext (buffer b)) as [[e0 dropped] d]. simpl in Hb, Hm, Hl.
    destruct (diodes.TryNexts (length clock) d) as [rs d'] eqn:Hrs.
    assert (dropped = None ∧ omap snd rs = []) as [-> Hrs'].
    { destruct dropped; [done|]. split; [done|exact Hq]. }
    destruct (IH b' batcher') as (-> & errs' & -> & Herrs').
    { by rewrite Hb, Hrs. }
    split; [simpl in Hm; lia|]. exists (errs ++ errs'). rewrite Hl. simpl.
    rewrite app_assoc. split; [done|]. by apply Forall_app.
Qed.
End overflow.



End routing.

(** ** More on the store: what [Get] returns, what a [Put] keeps, the
    metrics *)

Module store_props.
Import loggregator_v2 store.

(** The envelopes held under [idx], oldest first. *)
Definition stored (s : Store) (idx : string) : list Envelope :=
  (λ p, e p.2) <$> contents s idx.

(** The window test of [treeTraverse] ([t >= start], not [t >= end]) on
    an envelope's timestamp. *)
Definition inside (start end_ : Z) (e0 : Envelope) : bool :=
  (start <=? Timestamp e0) && (Timestamp e0 <? end_).

(** [checkEnvelopeType] as a test: whether it returns [true]. *)
Definition accepts (ty : EnvelopeType) (e0 : Envelope) : bool :=
  match checkEnvelopeType e0 ty with
  | Ok b => b
  | Panic _ => false
  end.

(** A callback for [treeTraverse] that never stops the walk and
    records what it is given. *)
Definition collect (e0 : Envelope) (idx : string) (st : list (Envelope * string))
    : result (list (Envelope * string) * bool) :=
  Ok (st ++ [(e0, idx)], false).

Lemma accepts_matches_type ty e0 : ty ≠ other_type → accepts ty e0 = matches_type e0 ty.
Proof. intros Hty. unfold accepts. by rewrite checkEnvelopeType_supported. Qed.

Lemma selection_stored s idx start end_ ty :
  store_ok s → ty ≠ other_type →
  (λ p, e p.2) <$> selection idx start end_ ty (contents s idx) =
  filter (λ e0, inside start end_ e0 && accepts ty e0 = true) (stored s idx).
Proof.
  intros Hok Hty. unfold stored, selection.
  assert (Hall : ∀ p, p ∈ contents s idx → p.1 = Timestamp (e p.2) ∧ index p.2 = idx).
  { intros [k w] Hin. by apply (contents_elem s idx k w Hok) in Hin. }
  induction (contents s idx) as [|p l IH]; [done|].
  destruct (Hall p ltac:(left)) as [Hk Hi].
  specialize (IH (λ q Hq, Hall q ltac:(by right))).
  assert (in_window start end_ p = inside start end_ (e p.2)) as Hw
    by (unfold in_window, inside; by rewrite Hk).
  assert (wanted idx ty p = accepts ty (e p.2)) as Ha.
  { unfold wanted. rewrite Hi, String.eqb_refl. simpl. by rewrite accepts_matches_type. }
  rewrite fmap_cons.
  destruct (inside start end_ (e p.2)) eqn:E1.
  - rewrite (filter_cons_True _ p) by (by rewrite Hw).
    destruct (accepts ty (e p.2)) eqn:E2.
    + rewrite (filter_cons_True _ p) by (by rewrite Ha).
      rewrite (filter_cons_True _ (e p.2)) by (by rewrite E1, E2).
      rewrite fmap_cons. by f_equal.
    + rewrite (filter_cons_False _ p) by (by rewrite Ha).
      by rewrite (filter_cons_False _ (e p.2)) by (by rewrite E1, E2).
  - rewrite (filter_cons_False _ p) by (by rewrite Hw).
    by rewrite (filter_cons_False _ (e p.2)) by (by rewrite E1).
Qed.

Lemma stored_ext s s' idx :
  heap s' = heap s → indexes s' = indexes s → stored s' idx = stored s idx.
Proof. intros. unfold stored. by rewrite (contents_ext s s'). Qed.

(** [X1]: on a store reached by [Put]s and [Get]s, a [Get] with a
    supported filter and a limit of at least one returns exactly the
    [limit] oldest envelopes of the index whose timestamp lies in
    [[start, end)] and which pass the type filter; it adds their number
    to [Egress] and changes nothing else of what the store holds. *)
Theorem Get_returns_oldest_matching
    P size0 max0 s idx start end_ ty limit res s' :
  reachable P size0 max0 s → ty ≠ other_type → 1 ≤ limit →
  Get idx start end_ ty limit s = Ok (res, s') →
  res = take (Z.to_nat limit)
          (filter (λ e0, inside start end_ e0 && accepts ty e0 = true) (stored s idx)) ∧
  Egress s' = Egress s + Z.of_nat (length res) ∧
  (∀ i, stored s' i = stored s i) ∧
  count s' = count s ∧ Expired s' = Expired s ∧ Ingress s' = Ingress s.
Proof.
  intros Hr Hty Hl HG. destruct (reachable_ok _ _ _ _ Hr) as (Hok & _).
  destruct (Get_spec idx start end_ ty limit s Hok Hty Hl) as [s'' HG'].
  rewrite HG in HG'. injection HG' as -> _.
  apply Get_inv in HG as (Hh & Hi & _ & Hc & _ & _ & HE & HI & HEg).
  split_and!; [by rewrite selection_stored|done| |done..].
  intros i. by apply stored_ext.
Qed.

Lemma Get_returns_oldest_matching_witness :
  let s := after 0 one_to_four (NewStore 5 10) in
  let r := got "a" 2 9999 nil_type 2 s in
  (reachable own_index 5 10 s ∧ nil_type ≠ other_type ∧ 1 ≤ 2 ∧
   Get "a" 2 9999 nil_type 2 s = Ok r) ∧
  timestamps r.1 = [2; 3] ∧
  r.1 = take (Z.to_nat 2)
          (filter (λ e0, inside 2 9999 e0 && accepts nil_type e0 = true) (stored s "a")) ∧
  Egress r.2 = Egress s + Z.of_nat (length r.1).
Proof.
  cbv zeta.
  set (s := after 0 one_to_four (NewStore 5 10)).
  assert (Hr : reachable own_index 5 10 s).
  { apply (reachable_PutAll 5 10 0 one_to_four (NewStore 5 10)); [constructor|].
    vm_compute. reflexivity. }
  assert (HG : Get "a" 2 9999 nil_type 2 s = Ok (got "a" 2 9999 nil_type 2 s))
    by (vm_compute; reflexivity).
  split; [split_and!; [exact Hr|discriminate|lia|exact HG]|].
  split; [vm_compute; reflexivity|].
  destruct (Get_returns_oldest_matching own_index 5 10 s "a" 2 9999 nil_type 2
              (got "a" 2 9999 nil_type 2 s).1 (got "a" 2 9999 nil_type 2 s).2
              Hr ltac:(discriminate) ltac:(lia))
    as (Hres & HEg & _).
  - rewrite HG. by destruct (got _ _ _ _ _ _).
  - split; [exact Hres|exact HEg].
Defined.


Lemma total_nonneg s : 0 ≤ total s.
Proof.
  unfold total. generalize (indexes s). intros m.
  induction m as [|i x m Hi _ IH] using map_first_key_ind.
  - by rewrite fmap_empty, msum_empty.
  - rewrite fmap_insert, msum_insert by (by rewrite lookup_fmap, Hi).
    pose proof (avltree.Size_nonneg (deref s x)). lia.
Qed.

(** The steps of a [Put] that returns. *)
Lemma Put_steps now e0 idx s s' :
  store_ok s → Put now e0 idx s = Ok s' →
  ∃ s1 s2 ov tr,
    Put_insert e0 idx s = Ok s1 ∧ store_ok s1 ∧ indexes s1 ≠ ∅ ∧
    truncate s1 = Ok s2 ∧ store_ok s2 ∧
    treeStorage_Left (oldestValueTree s2) = Ok (ov, tr) ∧
    s' = setCachePeriod (Z.quot (wrap64 (now - ov)) 1000000) s2.
Proof.
  intros Hok (s1 & s2 & ov & tr & H1 & H2 & H3 & ->)%Put_inv.
  destruct (Put_insert_spec e0 idx s Hok) as (s1' & H1' & Hok1 & Hc1 & _).
  rewrite H1 in H1'. injection H1' as <-.
  exists s1, s2, ov, tr. split_and!; [done|done| |done| |done|done].
  - intros He. assert (indexes s1 !! idx = None) as Hn by (by rewrite He).
    apply (contents_nil s1 idx Hok1) in Hn. rewrite Hn in Hc1.
    symmetry in Hc1. by apply ins_list_not_nil in Hc1.
  - by destruct (truncate_ok s1 s2 Hok1 H2).
Qed.

(** What [truncate] does to the counters. *)
Lemma truncate_counters s s' :
  store_ok s → indexes s ≠ ∅ → truncate s = Ok s' →
  Ingress s' = Ingress s ∧ Egress s' = Egress s ∧
  ((count s ≤ size s ∧ count s' = count s ∧ Expired s' = Expired s) ∨
   (size s < count s ∧ count s' = count s - 1 ∧ Expired s' = Expired s + 1)).
Proof.
  intros Hok Hne HT. destruct (Z.le_gt_cases (count s) (size s)) as [Hle|Hgt].
  - rewrite truncate_le in HT by done. injection HT as <-. split_and!; [done..|]. by left.
  - destruct (truncate_spec s Hok Hgt Hne)
      as (s2 & ? & ? & ? & ? & HT' & _ & _ & _ & _ & _ & _ & Hc & HE & _ & _ & HI & HEg & _).
    rewrite HT in HT'. injection HT' as <-. split_and!; [done..|]. right. lia.
Qed.

(** [X2]: the store never holds more than [size] envelopes: on every
    state reached from [NewStore size maxPerSource] with [size >= 0],
    [count] lies between 0 and [size]. *)
Theorem count_within_size P size0 max0 s :
  reachable P size0 max0 s → 0 ≤ size0 → 0 ≤ count s ≤ size0.
Proof.
  intros Hr Hs. destruct (reachable_ok _ _ _ _ Hr) as (Hok & Hsz & _ & _ & Hc).
  rewrite <-Hsz. split; [|by apply Hc].
  rewrite (ok_count s Hok). apply total_nonneg.
Qed.

Lemma count_within_size_witness :
  let s := after 0 one_to_four (NewStore 5 10) in
  (reachable own_index 5 10 s ∧ 0 ≤ 5) ∧ 0 ≤ count s ≤ 5.
Proof.
  cbv zeta.
  assert (Hr : reachable own_index 5 10 (after 0 one_to_four (NewStore 5 10))).
  { apply (reachable_PutAll 5 10 0 one_to_four (NewStore 5 10)); [constructor|].
    vm_compute. reflexivity. }
  split; [split; [exact Hr|lia]|].
  apply (count_within_size own_index 5 10 _ Hr). lia.
Defined.


(** [X3]: the metrics add up: with a per-source cap of at least one,
    the envelopes held plus the envelopes expired never exceed the
    envelopes ingested, and [Expired] never decreases below zero. *)
Theorem Expired_and_count_within_Ingress P size0 max0 s :
  reachable P size0 max0 s → 1 ≤ max0 →
  count s + Expired s ≤ Ingress s ∧ 0 ≤ Expired s ∧ 0 ≤ count s.
Proof.
  intros Hr Hm.
  induction Hr as [|s now e0 idx s' Hr IH _ HP|s idx start end_ ty limit res s' Hr IH HG].
  - done.
  - destruct IH as (Hacc & HE & Hc).
    destruct (reachable_ok _ _ _ _ Hr) as (Hok & _ & Hmx & _).
    destruct (Put_steps now e0 idx s s' Hok HP)
      as (s1 & s2 & ov & tr & H1 & Hok1 & Hne1 & H2 & Hok2 & _ & ->).
    destruct (Put_insert_spec e0 idx s Hok)
      as (s1' & H1' & _ & Hc1 & _ & _ & _ & HI1 & _ & _ & HE1 & Hcnt1).
    rewrite H1 in H1'. injection H1' as <-.
    destruct (truncate_counters s1 s2 Hok1 Hne1 H2) as (HI2 & _ & Hcase).
    pose proof (ins_list_length_le (Timestamp e0) {| e := e0; index := idx |} _
                  (evict_sorted (maxPerSource s) _ (contents_sorted s idx Hok))) as Hins.
    rewrite <-Hc1 in Hins.
    assert (Hd : count s1 + Expired s1 ≤ count s + Expired s + 1 ∧ Expired s ≤ Expired s1).
    { rewrite HE1, Hcnt1. unfold evict in Hc1, Hins.
      destruct (Z.leb_spec (maxPerSource s) (Z.of_nat (length (contents s idx)))).
      - destruct (contents s idx); simpl in *; lia.
      - lia. }
    assert (0 ≤ count s2) by (rewrite (ok_count s2 Hok2); apply total_nonneg).
    simpl. destruct Hd as [Hd1 Hd2]. destruct Hcase as [(? & ? & ?)|(? & ? & ?)]; lia.
  - destruct IH as (Hacc & HE & Hc).
    apply Get_inv in HG as (_ & _ & _ & -> & _ & _ & -> & -> & _). done.
Qed.

Lemma Expired_and_count_within_Ingress_witness :
  let s := after 0 [buildEnvelope 1 "b"; buildEnvelope 2 "a";
                    buildEnvelope 3 "a"; buildEnvelope 4 "a"] (NewStore 5 2) in
  (reachable own_index 5 2 s ∧ 1 ≤ 2) ∧
  (count s = 3 ∧ Expired s = 1 ∧ Ingress s = 4) ∧
  count s + Expired s ≤ Ingress s ∧ 0 ≤ Expired s ∧ 0 ≤ count s.
Proof.
  cbv zeta.
  set (es := [buildEnvelope 1 "b"; buildEnvelope 2 "a";
              buildEnvelope 3 "a"; buildEnvelope 4 "a"]).
  assert (Hr : reachable own_index 5 2 (after 0 es (NewStore 5 2))).
  { apply (reachable_PutAll 5 2 0 es (NewStore 5 2)); [constructor|].
    vm_compute. reflexivity. }
  split; [split; [exact Hr|lia]|].
  split; [split_and!; vm_compute; reflexivity|].
  apply (Expired_and_count_within_Ingress own_index 5 2 _ Hr). lia.
Defined.


Lemma stored_setCachePeriod v s idx : stored (setCachePeriod v s) idx = stored s idx.
Proof. done. Qed.

Lemma elem_of_stored s idx e0 :
  store_ok s →
  e0 ∈ stored s idx ↔ (Timestamp e0, {| e := e0; index := idx |}) ∈ contents s idx.
Proof.
  intros Hok. unfold stored. rewrite list_elem_of_fmap. split.
  - intros ([k [e1 i]] & -> & Hin). simpl.
    by destruct (contents_elem s idx _ _ Hok Hin) as [-> <-].
  - intros Hin. by exists (Timestamp e0, {| e := e0; index := idx |}).
Qed.

(** The oldest entry of the store, as [oldestValueTree] gives it. *)
Lemma oldest_Left_stored s ov tr :
  store_ok s → treeStorage_Left (oldestValueTree s) = Ok (ov, tr) →
  ∃ i oldest rest,
    stored s i = oldest :: rest ∧ Timestamp oldest = ov ∧
    ∀ i' e1, e1 ∈ stored s i' → ov ≤ Timestamp e1.
Proof.
  intros Hok HL.
  pose proof (treeStorage_Left_registered _ _ _ (ok_oldest s Hok) HL) as Hreg.
  apply (ok_registered s Hok) in Hreg as (i & Hi & Hmin).
  rewrite min_key_elements in Hmin.
  assert (Hc : contents s i = avltree.elements (deref s tr))
    by (unfold contents; by rewrite Hi).
  destruct (avltree.elements (deref s tr)) as [|[k w] rest] eqn:E; [done|].
  injection Hmin as ->. exists i, (e w), ((λ p, e p.2) <$> rest). split_and!.
  - unfold stored. by rewrite Hc.
  - assert ((ov, w) ∈ contents s i) as Hin by (rewrite Hc; left).
    by destruct (contents_elem s i _ _ Hok Hin) as [-> _].
  - intros i' e1 Hin. apply (elem_of_stored s i' e1 Hok) in Hin.
    apply (oldest_Left_min s ov tr Hok HL i' _ Hin).
Qed.

(** [X4]: after a [Put] the cache-period gauge is the age, in
    milliseconds, of the oldest envelope the store holds across all
    sources: [(now - oldest) / time.Millisecond], in [int64]
    arithmetic. *)
Theorem Put_sets_CachePeriod_to_oldest_age P size0 max0 s now e0 idx s' :
  reachable P size0 max0 s → Put now e0 idx s = Ok s' →
  ∃ i oldest rest,
    stored s' i = oldest :: rest ∧
    (∀ i' e1, e1 ∈ stored s' i' → Timestamp oldest ≤ Timestamp e1) ∧
    CachePeriod s' = Z.quot (wrap64 (now - Timestamp oldest)) 1000000 ∧
    (0 ≤ now - Timestamp oldest < 2 ^ 63 →
     CachePeriod s' = (now - Timestamp oldest) / 1000000).
Proof.
  intros Hr HP. destruct (reachable_ok _ _ _ _ Hr) as (Hok & _).
  destruct (Put_steps now e0 idx s s' Hok HP)
    as (s1 & s2 & ov & tr & _ & _ & _ & _ & Hok2 & HL & ->).
  destruct (oldest_Left_stored s2 ov tr Hok2 HL) as (i & oldest & rest & Hst & <- & Hmin).
  exists i, oldest, rest. split_and!; [done|done|done|].
  intros Hrange. simpl.
  assert (wrap64 (now - Timestamp oldest) = now - Timestamp oldest) as ->.
  { unfold wrap64. rewrite Z.mod_small; lia. }
  apply Z.quot_div_nonneg; lia.
Qed.

Lemma Put_sets_CachePeriod_to_oldest_age_witness :
  let s := after 0 one_to_four (NewStore 5 10) in
  let s' := after 5000001 [buildEnvelope 5 "b"] s in
  (reachable own_index 5 10 s ∧ Put 5000001 (buildEnvelope 5 "b") "b" s = Ok s') ∧
  CachePeriod s' = 5 ∧
  ∃ i oldest rest,
    stored s' i = oldest :: rest ∧
    (∀ i' e1, e1 ∈ stored s' i' → Timestamp oldest ≤ Timestamp e1) ∧
    CachePeriod s' = Z.quot (wrap64 (5000001 - Timestamp oldest)) 1000000.
Proof.
  cbv zeta.
  set (s := after 0 one_to_four (NewStore 5 10)).
  set (s' := after 5000001 [buildEnvelope 5 "b"] s).
  assert (Hr : reachable own_index 5 10 s).
  { apply (reachable_PutAll 5 10 0 one_to_four (NewStore 5 10)); [constructor|].
    vm_compute. reflexivity. }
  assert (HP : Put 5000001 (buildEnvelope 5 "b") "b" s = Ok s') by (vm_compute; reflexivity).
  split; [split; [exact Hr|exact HP]|].
  split; [vm_compute; reflexivity|].
  destruct (Put_sets_CachePeriod_to_oldest_age own_index 5 10 s 5000001
              (buildEnvelope 5 "b") "b" s' Hr HP)
    as (i & oldest & rest & H1 & H2 & H3 & _).
  exists i, oldest, rest. split_and!; [exact H1|exact H2|exact H3].
Defined.


Lemma indexes_empty_contents s :
  store_ok s → (∀ i, contents s i = []) → indexes s = ∅.
Proof.
  intros Hok Hall. apply map_empty. intros i. by apply (contents_nil s i Hok).
Qed.

(** A [Put] into an empty store without room for one envelope: the
    envelope is inserted, [truncate] removes it again, and the read of
    the oldest timestamp finds [oldestValueTree] empty. *)
Lemma Put_empty_no_room now e0 idx s :
  store_ok s → indexes s = ∅ → size s ≤ 0 → ∃ msg, Put now e0 idx s = Panic msg.
Proof.
  intros Hok He Hsz. unfold Put.
  destruct (Put_insert_spec e0 idx s Hok)
    as (s1 & -> & Hok1 & Hc1 & Hfr1 & Hsz1 & _ & _ & _ & _ & _ & Hcnt1).
  cbn [mbind result_bind].
  assert (Hnil : ∀ i, contents s i = []).
  { intros i. apply (contents_nil s i Hok). by rewrite He. }
  rewrite Hnil, evict_nil in Hc1. simpl in Hc1.
  assert (Hcount : count s1 = 1).
  { rewrite Hcnt1, Hc1, Hnil, (ok_count s Hok), (total_empty s He). simpl. lia. }
  assert (Hne1 : indexes s1 ≠ ∅).
  { intros He1. assert (indexes s1 !! idx = None) as Hn by (by rewrite He1).
    apply (contents_nil s1 idx Hok1) in Hn. by rewrite Hn in Hc1. }
  destruct (truncate_spec s1 Hok1 ltac:(lia) Hne1)
    as (s2 & i & key & w & rest & -> & Hok2 & Hi & _ & Hi' & Hfr2 & _).
  cbn [mbind result_bind].
  assert (i = idx) as ->.
  { destruct (decide (i = idx)) as [|Hne]; [done|].
    rewrite Hfr1, Hnil in Hi by done. done. }
  rewrite Hc1 in Hi. injection Hi as <- <- <-.
  assert (indexes s2 = ∅) as He2.
  { apply (indexes_empty_contents s2 Hok2). intros i.
    destruct (decide (i = idx)) as [->|Hne]; [done|].
    by rewrite Hfr2, Hfr1, Hnil. }
  destruct (treeStorage_Left_empty s2 Hok2 He2) as [msg ->]. by exists msg.
Qed.

(** Without room for one envelope no [Put] ever returns, so such a
    store stays empty. *)
Lemma reachable_no_room_empty P size0 max0 s :
  reachable P size0 max0 s → size0 ≤ 0 → indexes s = ∅.
Proof.
  intros Hr Hs.
  induction Hr as [|s now' e1 idx' s' Hr IH _ HP|s i start end_ ty limit res s' Hr IH HG].
  - done.
  - destruct (reachable_ok _ _ _ _ Hr) as (Hok & Hsz & _).
    destruct (Put_empty_no_room now' e1 idx' s Hok IH ltac:(lia)) as [msg Hp].
    by rewrite Hp in HP.
  - apply Get_inv in HG as (_ & -> & _). done.
Qed.

(** [X5]: a store created with a [size] of zero or less is unusable:
    every [Put] panics (the envelope is inserted, truncated away at once,
    and [Put] then dereferences the oldest entry of an empty tree), on
    every state such a store can reach. *)
Theorem Put_panics_without_capacity P size0 max0 s now e0 idx :
  reachable P size0 max0 s → size0 ≤ 0 → ∃ msg, Put now e0 idx s = Panic msg.
Proof.
  intros Hr Hs.
  pose proof (reachable_no_room_empty _ _ _ _ Hr Hs) as Hemp.
  destruct (reachable_ok _ _ _ _ Hr) as (Hok & Hsz & _).
  apply Put_empty_no_room; [done|done|lia].
Qed.

Lemma Put_panics_without_capacity_witness :
  (reachable own_index 0 10 (NewStore 0 10) ∧ 0 ≤ 0) ∧
  Put 0 (buildEnvelope 1 "a") "a" (NewStore 0 10) = Panic nil_deref ∧
  ∃ msg, Put 0 (buildEnvelope 1 "a") "a" (NewStore 0 10) = Panic msg.
Proof.
  assert (Hr : reachable own_index 0 10 (NewStore 0 10)) by constructor.
  split; [split; [exact Hr|lia]|].
  split; [vm_compute; reflexivity|].
  apply (Put_panics_without_capacity own_index 0 10 _ 0 (buildEnvelope 1 "a") "a" Hr). lia.
Defined.


(** [Get]'s walk with a filter of an unknown dynamic type: the first
    entry inside the window makes [checkEnvelopeType] panic. *)
Lemma scan_unknown_type idx start end_ limit l res :
  sorted l → Forall (λ p, index p.2 = idx) l →
  ∃ stop,
    scan l start end_ (Get_visit idx other_type limit) res =
    if existsb (in_window start end_) l then Panic "unknown type" else Ok (res, stop).
Proof.
  induction l as [|[t w] l IH]; intros Hs Hidx; [by exists false|].
  apply sorted_cons in Hs as [Hlt Hs]. apply Forall_cons in Hidx as [Hi Hidx].
  simpl in Hi. simpl. unfold in_window at 1. simpl.
  destruct (Z.leb_spec start t) as [Hst|Hst]; simpl; [|by apply IH].
  destruct (Z.leb_spec end_ t) as [Hen|Hen].
  - exists true. destruct (Z.ltb_spec t end_); [lia|]. simpl.
    assert (existsb (in_window start end_) l = false) as ->; [|done].
    apply not_true_is_false. intros ([k w'] & Hin & Hw)%existsb_exists.
    apply list_elem_of_In in Hin. rewrite Forall_forall in Hlt. specialize (Hlt _ Hin).
    unfold in_window in Hw. simpl in *.
    apply andb_true_iff in Hw as [_ ?%Z.ltb_lt]. lia.
  - exists false. destruct (Z.ltb_spec t end_); [|lia]. simpl.
    unfold Get_visit. by rewrite Hi, String.eqb_refl.
Qed.

Lemma incEgress_0 s : incEgress 0 s = s.
Proof. destruct s. unfold incEgress. simpl. by rewrite Z.add_0_r. Qed.

(** [X6]: a [Get] whose filter is of a type other than the five message
    types panics with "unknown type" exactly when the index holds an
    envelope inside the window; otherwise it returns nothing and leaves
    the store as it is. *)
Theorem Get_unknown_type_panics_on_first_entry
    P size0 max0 s idx start end_ limit :
  reachable P size0 max0 s →
  Get idx start end_ other_type limit s =
  if existsb (inside start end_) (stored s idx)
  then Panic "unknown type" else Ok ([], s).
Proof.
  intros Hr. destruct (reachable_ok _ _ _ _ Hr) as (Hok & _).
  assert (Hex : existsb (inside start end_) (stored s idx) =
                existsb (in_window start end_) (contents s idx)).
  { unfold stored.
    assert (Hall : ∀ p, p ∈ contents s idx → p.1 = Timestamp (e p.2)).
    { intros [k w] Hin. by apply (contents_elem s idx k w Hok) in Hin as [? _]. }
    induction (contents s idx) as [|p l IH]; [done|].
    rewrite fmap_cons. cbn [existsb].
    rewrite IH by (intros q Hq; apply Hall; by right).
    f_equal. unfold in_window, inside. by rewrite <-(Hall p) by left. }
  rewrite Hex. unfold Get, contents.
  destruct (indexes s !! idx) as [tr|] eqn:Hi; [|done].
  destruct (ok_tree s Hok idx tr Hi) as [Hb Hw].
  rewrite treeTraverse_scan by done.
  destruct (scan_unknown_type idx start end_ limit (avltree.elements (deref s tr)) [])
    as [stop ->]; [done| |].
  { apply Forall_forall. intros [k w] Hin. simpl.
    apply avltree.elem_of_elements in Hin; [|done]. by apply Hw in Hin as [_ ?]. }
  match goal with |- context [if ?b then _ else _] => destruct b end;
    cbn [mbind result_bind]; [done|]. simpl.
  by rewrite incEgress_0.
Qed.

Lemma Get_unknown_type_panics_on_first_entry_witness :
  let s := after 0 one_to_four (NewStore 5 10) in
  reachable own_index 5 10 s ∧
  Get "a" 0 9999 other_type 10 s = Panic "unknown type" ∧
  Get "a" 5 9999 other_type 10 s = Ok ([], s) ∧
  Get "a" 0 9999 other_type 10 s =
    if existsb (inside 0 9999) (stored s "a") then Panic "unknown type" else Ok ([], s).
Proof.
  cbv zeta.
  set (s := after 0 one_to_four (NewStore 5 10)).
  assert (Hr : reachable own_index 5 10 s).
  { apply (reachable_PutAll 5 10 0 one_to_four (NewStore 5 10)); [constructor|].
    vm_compute. reflexivity. }
  split; [exact Hr|].
  split; [vm_compute; reflexivity|].
  split; [vm_compute; reflexivity|].
  apply (Get_unknown_type_panics_on_first_entry own_index 5 10 s "a" 0 9999 10 Hr).
Defined.


Lemma filter_none {A} (P : A → Prop) `{!∀ x, Decision (P x)} (l : list A) :
  Forall (λ x, ¬ P x) l → filter P l = [].
Proof.
  induction 1 as [|x l Hx _ IH]; [done|]. by rewrite filter_cons_False.
Qed.

Lemma scan_collect start end_ l st :
  sorted l →
  ∃ stop,
    scan l start end_ collect st =
    Ok (st ++ ((λ p, (e p.2, index p.2)) <$> filter (λ p, start ≤ p.1 < end_) l), stop).
Proof.
  revert st. induction l as [|[t w] l IH]; intros st Hs.
  { exists false. simpl. by rewrite app_nil_r. }
  apply sorted_cons in Hs as [Hlt Hs]. simpl.
  destruct (Z.leb_spec start t) as [Hst|Hst].
  - destruct (Z.leb_spec end_ t) as [Hen|Hen].
    + exists true. rewrite filter_cons_False by (simpl; lia).
      assert (filter (λ p : Z * envelopeWrapper, start ≤ p.1 < end_) l = []) as ->.
      { apply filter_none. eapply Forall_impl; [done|]. simpl. intros; lia. }
      by rewrite app_nil_r.
    + change (collect (e w) (index w) st) with (Ok (st ++ [(e w, index w)], false)).
      cbn [mbind result_bind].
      destruct (IH (st ++ [(e w, index w)]) Hs) as [stop ->]. exists stop.
      rewrite filter_cons_True by (simpl; lia). by rewrite fmap_cons, <-app_assoc.
  - rewrite filter_cons_False by (simpl; lia). by apply IH.
Qed.

(** [X7]: [treeTraverse] over a search tree hands its callback the
    entries whose key lies in [[start, end)], each once and in ascending
    key order (as long as the callback does not stop the walk). *)
Theorem treeTraverse_visits_window_in_order
    (n : avltree.Node envelopeWrapper) start end_ :
  avltree.bst n →
  ∃ stop,
    treeTraverse n start end_ collect [] =
    Ok ((λ p, (e p.2, index p.2)) <$>
          filter (λ p, start ≤ p.1 < end_) (avltree.elements n), stop).
Proof.
  intros Hb. rewrite treeTraverse_scan by done.
  destruct (scan_collect start end_ (avltree.elements n) [] Hb) as [stop ->].
  by exists stop.
Qed.

Lemma treeTraverse_visits_window_in_order_witness :
  let w k := {| e := buildEnvelope k "a"; index := "a" |} in
  let n := avltree.Put 3 (w 3) (avltree.Put 1 (w 1) (avltree.Put 2 (w 2) avltree.NewWith)) in
  avltree.bst n ∧
  treeTraverse n 2 9 collect [] =
    Ok ([(buildEnvelope 2 "a", "a"); (buildEnvelope 3 "a", "a")], false) ∧
  ∃ stop,
    treeTraverse n 2 9 collect [] =
    Ok ((λ p, (e p.2, index p.2)) <$>
          filter (λ p, 2 ≤ p.1 < 9) (avltree.elements n), stop).
Proof.
  cbv zeta.
  set (w := λ k, {| e := buildEnvelope k "a"; index := "a" |}).
  assert (Hb : avltree.bst (avltree.Put 3 (w 3) (avltree.Put 1 (w 1)
                  (avltree.Put 2 (w 2) avltree.NewWith)))).
  { do 3 apply avltree.bst_Put. exact sorted_nil. }
  split; [exact Hb|].
  split; [vm_compute; reflexivity|].
  apply (treeTraverse_visits_window_in_order _ 2 9 Hb).
Defined.


Lemma filter_window_single t (w : envelopeWrapper) l :
  sorted l → (t, w) ∈ l →
  filter (λ p, in_window t (t + 1) p = true) l = [(t, w)].
Proof.
  induction l as [|[k v] l IH]; intros Hs Hin; [by apply elem_of_nil in Hin|].
  apply sorted_cons in Hs as [Hlt Hs].
  apply elem_of_cons in Hin as [[= <- <-]|Hin].
  - rewrite filter_cons_True.
    2:{ unfold in_window. simpl. apply andb_true_iff. rewrite Z.leb_le, Z.ltb_lt. lia. }
    f_equal. apply filter_none. eapply Forall_impl; [done|]. intros p Hp. simpl in Hp.
    unfold in_window. intros [_ ?%Z.ltb_lt]%andb_true_iff. lia.
  - rewrite Forall_forall in Hlt. pose proof (Hlt _ Hin) as Hk. simpl in Hk.
    rewrite filter_cons_False; [by apply IH|].
    unfold in_window. simpl. intros [?%Z.leb_le _]%andb_true_iff. lia.
Qed.

Lemma ins_list_below {V} k (v : V) l :
  Forall (λ p, k < p.1) l → ins_list k v l = (k, v) :: l.
Proof.
  destruct l as [|[k' v'] l]; [done|]. intros [Hk _]%Forall_cons. simpl in *.
  by destruct (Z.compare_spec k k'); [lia| |lia].
Qed.

(** [X8]: an envelope that was put can be read back: if the store
    had room left, or held an envelope older than the new one, then
    after [Put e index] a [Get] of [index] over the window
    [[e.Timestamp, e.Timestamp + 1)] returns exactly [e]. *)
Theorem Put_then_Get_returns_envelope
    P size0 max0 s now e0 idx s' limit :
  reachable P size0 max0 s → Put now e0 idx s = Ok s' →
  (count s < size0 ∨ ∃ i e1, e1 ∈ stored s i ∧ Timestamp e1 < Timestamp e0) →
  1 ≤ limit →
  ∃ s'', Get idx (Timestamp e0) (Timestamp e0 + 1) nil_type limit s' = Ok ([e0], s'').
Proof.
  intros Hr HP Hroom Hl.
  destruct (reachable_ok _ _ _ _ Hr) as (Hok & Hsz & _ & _ & Hcs).
  assert (Hsize : 1 ≤ size0).
  { destruct (Z.le_gt_cases size0 0) as [Hle|]; [|lia].
    destruct (Put_empty_no_room now e0 idx s Hok) as [msg Hp];
      [by apply (reachable_no_room_empty _ _ _ _ Hr)|lia|by rewrite Hp in HP]. }
  specialize (Hcs ltac:(lia)).
  destruct (Put_steps now e0 idx s s' Hok HP)
    as (s1 & s2 & ov & tr & H1 & Hok1 & Hne1 & H2 & Hok2 & _ & ->).
  destruct (Put_insert_spec e0 idx s Hok)
    as (s1' & H1' & _ & Hc1 & Hfr1 & Hsz1 & _ & _ & _ & _ & _ & Hcnt1).
  rewrite H1 in H1'. injection H1' as <-.
  set (w0 := {| e := e0; index := idx |}) in *.
  pose proof (contents_sorted s idx Hok) as Hsorted.
  pose proof (evict_sorted (maxPerSource s) _ Hsorted) as Hsorted'.
  assert (Hin1 : (Timestamp e0, w0) ∈ contents s1 idx).
  { rewrite Hc1. apply elem_of_ins_list; [done|]. by left. }
  assert (Hin2 : (Timestamp e0, w0) ∈ contents s2 idx).
  { destruct (Z.le_gt_cases (count s1) (size s1)) as [Hle|Hgt].
    { rewrite truncate_le in H2 by done. by injection H2 as <-. }
    destruct (truncate_spec s1 Hok1 Hgt Hne1)
      as (s2' & i & key & w & rest & H2' & _ & Hi & Hmin & Hi' & Hfr2 & _).
    rewrite H2 in H2'. injection H2' as <-.
    pose proof (ins_list_length_le (Timestamp e0) w0 _ Hsorted') as Hlen.
    rewrite <-Hc1 in Hlen.
    pose proof (evict_length_le (maxPerSource s) (contents s idx)) as Hev.
    destruct Hroom as [Hroom|(i1 & e1 & Hin & Hlt)]; [lia|].
    assert (Hnev : evict (maxPerSource s) (contents s idx) = contents s idx).
    { unfold evict in *.
      destruct (Z.leb_spec (maxPerSource s) (Z.of_nat (length (contents s idx)))); [|done].
      destruct (contents s idx); [done|]. simpl in *. lia. }
    apply (elem_of_stored s i1 e1 Hok) in Hin.
    assert (Hin' : (Timestamp e1, {| e := e1; index := i1 |}) ∈ contents s1 i1).
    { destruct (decide (i1 = idx)) as [->|Hne].
      - rewrite Hc1, Hnev. apply elem_of_ins_list; [done|]. right. simpl. split; [done|lia].
      - by rewrite Hfr1. }
    pose proof (Hmin _ _ Hin') as Hkey. simpl in Hkey.
    destruct (decide (i = idx)) as [->|Hne]; [|by rewrite Hfr2].
    rewrite Hi in Hin1. apply elem_of_cons in Hin1 as [[= ? ?]|Hin1]; [lia|].
    by rewrite Hi'. }
  assert (Hok' : store_ok (setCachePeriod (Z.quot (wrap64 (now - ov)) 1000000) s2))
    by (by apply (store_ok_ext s2)).
  destruct (Get_spec idx (Timestamp e0) (Timestamp e0 + 1) nil_type limit _ Hok')
    as [s'' ->]; [done|done|].
  exists s''. do 2 f_equal. rewrite contents_setCachePeriod. unfold selection.
  rewrite (filter_window_single _ w0) by (done || by apply contents_sorted).
  rewrite filter_cons_True by (unfold wanted; simpl; by rewrite String.eqb_refl).
  simpl. destruct (Z.to_nat limit) eqn:E; [lia|]. simpl. by rewrite take_nil.
Qed.

Lemma Put_then_Get_returns_envelope_witness :
  let s := after 0 one_to_four (NewStore 5 10) in
  let s' := after 0 [buildEnvelope 7 "b"] s in
  (reachable own_index 5 10 s ∧ Put 0 (buildEnvelope 7 "b") "b" s = Ok s' ∧
   count s < 5 ∧ 1 ≤ 3) ∧
  ∃ s'', Get "b" 7 (7 + 1) nil_type 3 s' = Ok ([buildEnvelope 7 "b"], s'').
Proof.
  cbv zeta.
  set (s := after 0 one_to_four (NewStore 5 10)).
  set (s' := after 0 [buildEnvelope 7 "b"] s).
  assert (Hr : reachable own_index 5 10 s).
  { apply (reachable_PutAll 5 10 0 one_to_four (NewStore 5 10)); [constructor|].
    vm_compute. reflexivity. }
  assert (HP : Put 0 (buildEnvelope 7 "b") "b" s = Ok s') by (vm_compute; reflexivity).
  assert (Hc : count s < 5) by (vm_compute; reflexivity).
  split; [split_and!; [exact Hr|exact HP|exact Hc|lia]|].
  apply (Put_then_Get_returns_envelope own_index 5 10 s 0 (buildEnvelope 7 "b") "b" s' 3
           Hr HP (or_introl Hc)). lia.
Defined.


(** [X9]: a full store drops an envelope older than everything it
    holds: when [count = size], the index has room under the per-source
    cap and the new envelope is older than every stored one, [Put]
    inserts it and [truncate] removes it at once; the store holds what
    it held before and [Expired] grows by one. *)
Theorem Put_older_than_all_into_full_store_is_dropped
    P size0 max0 s now e0 idx s' :
  reachable P size0 max0 s → Put now e0 idx s = Ok s' →
  count s = size0 → Z.of_nat (length (stored s idx)) < max0 →
  (∀ i e1, e1 ∈ stored s i → Timestamp e0 < Timestamp e1) →
  (∀ i, stored s' i = stored s i) ∧
  count s' = count s ∧ Expired s' = Expired s + 1 ∧ Ingress s' = Ingress s + 1.
Proof.
  intros Hr HP Hfull Hcap Hold.
  destruct (reachable_ok _ _ _ _ Hr) as (Hok & Hsz & Hmx & _).
  destruct (Put_steps now e0 idx s s' Hok HP)
    as (s1 & s2 & ov & tr & H1 & Hok1 & Hne1 & H2 & Hok2 & _ & ->).
  destruct (Put_insert_spec e0 idx s Hok)
    as (s1' & H1' & _ & Hc1 & Hfr1 & Hsz1 & _ & HI1 & _ & _ & HE1 & Hcnt1).
  rewrite H1 in H1'. injection H1' as <-.
  set (w0 := {| e := e0; index := idx |}) in *.
  unfold stored in Hcap. rewrite length_fmap in Hcap.
  assert (Hnev : evict (maxPerSource s) (contents s idx) = contents s idx).
  { unfold evict. destruct (Z.leb_spec (maxPerSource s) (Z.of_nat (length (contents s idx))));
      [lia|done]. }
  assert (Hbelow : ∀ i p, p ∈ contents s i → Timestamp e0 < p.1).
  { intros i [k w] Hin. destruct (contents_elem s i k w Hok Hin) as [-> Hi]. simpl.
    apply (Hold i). apply (elem_of_stored s i _ Hok).
    destruct w as [e1 i1]. simpl in *. by subst. }
  rewrite Hnev, ins_list_below in Hc1.
  2:{ apply Forall_forall. intros p Hin. by apply (Hbelow idx). }
  assert (Hgt : size s1 < count s1).
  { rewrite Hcnt1, Hc1, Hsz1. simpl. lia. }
  destruct (truncate_spec s1 Hok1 Hgt Hne1)
    as (s2' & i & key & w & rest & H2' & _ & Hi & Hmin & Hi' & Hfr2 & _ & Hc2 & HE2 & _ & _ & HI2 & _).
  rewrite H2 in H2'. injection H2' as <-.
  assert (i = idx) as ->.
  { destruct (decide (i = idx)) as [|Hne]; [done|]. exfalso.
    assert ((key, w) ∈ contents s i) as Hin by (rewrite <-Hfr1, Hi by done; left).
    apply Hbelow in Hin. simpl in Hin.
    assert ((Timestamp e0, w0) ∈ contents s1 idx) as Hin0 by (rewrite Hc1; left).
    apply Hmin in Hin0. simpl in Hin0. lia. }
  rewrite Hc1 in Hi. injection Hi as <- <- <-.
  split_and!.
  - intros i. rewrite stored_setCachePeriod. unfold stored.
    destruct (decide (i = idx)) as [->|Hne]; [by rewrite Hi'|by rewrite Hfr2, Hfr1].
  - simpl. rewrite Hc2, Hcnt1, Hc1. simpl. lia.
  - simpl. rewrite HE2, HE1.
    destruct (Z.leb_spec (maxPerSource s) (Z.of_nat (length (contents s idx)))); lia.
  - simpl. by rewrite HI2, HI1.
Qed.

Lemma Put_older_than_all_into_full_store_is_dropped_witness :
  let s := after 0 [buildEnvelope 2 "a"; buildEnvelope 3 "a"] (NewStore 2 10) in
  let s' := after 0 [buildEnvelope 1 "b"] s in
  (reachable own_index 2 10 s ∧ Put 0 (buildEnvelope 1 "b") "b" s = Ok s' ∧
   count s = 2 ∧ Z.of_nat (length (stored s "b")) < 10 ∧
   (∀ i e1, e1 ∈ stored s i → Timestamp (buildEnvelope 1 "b") < Timestamp e1)) ∧
  (∀ i, stored s' i = stored s i) ∧
  count s' = count s ∧ Expired s' = Expired s + 1 ∧ Ingress s' = Ingress s + 1.
Proof.
  cbv zeta.
  set (s := after 0 [buildEnvelope 2 "a"; buildEnvelope 3 "a"] (NewStore 2 10)).
  set (s' := after 0 [buildEnvelope 1 "b"] s).
  assert (Hr : reachable own_index 2 10 s).
  { apply (reachable_PutAll 2 10 0 [buildEnvelope 2 "a"; buildEnvelope 3 "a"] (NewStore 2 10));
      [constructor|]. vm_compute. reflexivity. }
  assert (HP : Put 0 (buildEnvelope 1 "b") "b" s = Ok s') by (vm_compute; reflexivity).
  assert (Hc : count s = 2) by (vm_compute; reflexivity).
  assert (Hl : Z.of_nat (length (stored s "b")) < 10) by (vm_compute; reflexivity).
  assert (Hold : ∀ i e1, e1 ∈ stored s i → Timestamp (buildEnvelope 1 "b") < Timestamp e1).
  { intros i e1 Hin. destruct (reachable_ok _ _ _ _ Hr) as (Hok & _).
    assert (Hi : i = "a").
    { destruct (decide (i = "a")) as [|Hne]; [done|]. exfalso.
      assert (stored s i = []) as Hnil; [|rewrite Hnil in Hin; by apply elem_of_nil in Hin].
      unfold stored.
      assert (contents s i = []) as ->; [|done].
      apply (contents_nil s i Hok).
      assert (indexes s = {["a" := 0%nat]}) as -> by (vm_compute; reflexivity).
      by apply lookup_singleton_ne. }
    subst i.
    assert (stored s "a" = [buildEnvelope 2 "a"; buildEnvelope 3 "a"]) as Hst
      by (vm_compute; reflexivity).
    rewrite Hst in Hin. simpl.
    apply elem_of_cons in Hin as [->|Hin]; [simpl; lia|].
    apply elem_of_cons in Hin as [->|Hin]; [simpl; lia|]. by apply elem_of_nil in Hin. }
  split; [split_and!; [exact Hr|exact HP|exact Hc|exact Hl|exact Hold]|].
  apply (Put_older_than_all_into_full_store_is_dropped own_index 2 10 s 0
           (buildEnvelope 1 "b") "b" s' Hr HP Hc Hl Hold).
Defined.





End store_props.

(** ** The node's own ingress client: [logcache.setupRouting]

    For its own index in the routing table the node registers an
    [IngressClientFunc] that puts every envelope of a request into the
    store, under the envelope's source id. *)

Module local_ingress.
Import loggregator_v2 store routing store_props.

(** The loop [for _, e := range r.GetEnvelopes().GetBatch()
    { s.Put(e, e.GetSourceId()) }]; [clock k] is the clock reading of
    the [k]-th [Put]. *)
Fixpoint Puts (clock : nat → Z) (batch : list Envelope) (s : Store) : result Store :=
  match batch with
  | [] => Ok s
  | e0 :: batch' =>
      s' ← Put (clock 0%nat) e0 (SourceId e0) s;
      Puts (λ k, clock (S k)) batch' s'
  end.

Definition IngressClientFunc (clock : nat → Z) (ctx : Context) (r : option SendRequest)
    (s : Store) : result (Store * (SendResponse * option string)) :=
  s' ← Puts clock (GetBatch r) s;
  Ok (s', (Build_SendResponse, None)).

Lemma Put_Ingress now e0 idx s s' :
  store_ok s → Put now e0 idx s = Ok s' → Ingress s' = Ingress s + 1.
Proof.
  intros Hok HP.
  destruct (Put_steps now e0 idx s s' Hok HP)
    as (s1 & s2 & ov & tr & H1 & Hok1 & Hne1 & H2 & _ & _ & ->).
  destruct (Put_insert_spec e0 idx s Hok) as (s1' & H1' & _ & _ & _ & _ & _ & HI1 & _).
  rewrite H1 in H1'. injection H1' as <-.
  destruct (truncate_counters s1 s2 Hok1 Hne1 H2) as (HI2 & _). simpl. lia.
Qed.

Lemma Puts_spec size0 max0 batch : ∀ clock s,
  reachable own_index size0 max0 s → 1 ≤ size0 →
  ∃ s', Puts clock batch s = Ok s' ∧ reachable own_index size0 max0 s' ∧
        Ingress s' = Ingress s + Z.of_nat (length batch).
Proof.
  induction batch as [|e0 batch IH]; intros clock s Hr Hs.
  - exists s. simpl. split_and!; [done|done|lia].
  - destruct (reachable_ok _ _ _ _ Hr) as (Hok & Hsz & _).
    destruct (Put_total (clock 0%nat) e0 (SourceId e0) s Hok ltac:(lia)) as [s1 HP].
    assert (Hr1 : reachable own_index size0 max0 s1).
    { by apply (reachable_Put own_index size0 max0 s (clock 0%nat) e0 (SourceId e0)). }
    destruct (IH (λ k, clock (S k)) s1 Hr1 Hs) as (s' & HPs & Hr' & HI).
    exists s'. simpl. rewrite HP. cbn [mbind result_bind].
    split_and!; [done|done|]. rewrite HI, (Put_Ingress _ _ _ _ _ Hok HP). lia.
Qed.

(** [X11]: the node's own ingress client never fails on a store with
    room for at least one envelope: it puts every envelope of the
    request, counts each in [Ingress], and returns an empty response with
    a nil error; afterwards every envelope the store holds is filed under
    its own source id. *)
Theorem local_ingress_files_by_source_id
    size0 max0 s clock ctx (r : option SendRequest) :
  reachable own_index size0 max0 s → 1 ≤ size0 →
  ∃ s',
    IngressClientFunc clock ctx r s = Ok (s', (Build_SendResponse, None)) ∧
    Ingress s' = Ingress s + Z.of_nat (length (GetBatch r)) ∧
    (∀ idx e1, e1 ∈ stored s' idx → SourceId e1 = idx) ∧
    0 ≤ count s' ≤ size0.
Proof.
  intros Hr Hs.
  destruct (Puts_spec size0 max0 (GetBatch r) clock s Hr Hs) as (s' & HP & Hr' & HI).
  exists s'. unfold IngressClientFunc. rewrite HP. cbn [mbind result_bind].
  destruct (reachable_ok _ _ _ _ Hr') as (Hok' & Hsz' & _ & _ & Hc').
  split_and!; [done|done| | |].
  - intros idx e1 ([k w] & -> & Hin)%list_elem_of_fmap. simpl.
    by apply (reachable_own_index size0 max0 s' Hr' idx k w).
  - rewrite (ok_count s' Hok'). apply total_nonneg.
  - rewrite <-Hsz'. apply Hc'. lia.
Qed.

Lemma local_ingress_files_by_source_id_witness :
  let r := Some {| Envelopes := Some {| Batch := one_to_four |}; LocalOnly := true |} in
  (reachable own_index 5 10 (NewStore 5 10) ∧ 1 ≤ 5) ∧
  ∃ s',
    IngressClientFunc (λ _, 0) Background r (NewStore 5 10) =
      Ok (s', (Build_SendResponse, None)) ∧
    Ingress s' = 4 ∧
    (∀ idx e1, e1 ∈ stored s' idx → SourceId e1 = idx).
Proof.
  cbv zeta.
  assert (Hr : reachable own_index 5 10 (NewStore 5 10)) by constructor.
  split; [split; [exact Hr|lia]|].
  destruct (local_ingress_files_by_source_id 5 10 (NewStore 5 10) (λ _, 0) Background
              (Some {| Envelopes := Some {| Batch := one_to_four |}; LocalOnly := true |})
              Hr ltac:(lia))
    as (s' & HS & HI & Hown & _).
  exists s'. split_and!; [exact HS|exact HI|exact Hown].
Defined.

End local_ingress.

(** ** The batched client below the capacity of its ring *)

Module routing_props.
Import loggregator_v2 diodes routing.

(** The ring while the reader works through a first lap that was never
    overwritten: [i] entries have been read. *)
Definition filling (N : nat) (xs : list Envelope) (i : nat) (d : OneToOne) : Prop :=
  readIndex d = Z.of_nat i ∧ length (diodes.buffer d) = N ∧
  (∀ j, (i ≤ j < N)%nat → diodes.buffer d !! j = Some (slot_after N xs j)) ∧
  (∀ j, (j < i)%nat → diodes.buffer d !! j = Some None).

Lemma filling_TryNexts N xs m : ∀ i d k,
  (0 < N)%nat → Z.of_nat N < 2 ^ 62 → (length xs ≤ N)%nat →
  (i + m = length xs)%nat → filling N xs i d → (m ≤ k)%nat →
  omap fst (TryNexts k d).1 = drop i xs ∧ omap snd (TryNexts k d).1 = [].
Proof.
  induction m as [|m IH]; intros i d k HN Hsmall Hlen Hi (Hr & Hl & Hfull & Hread) Hk.
  - rewrite drop_ge by lia. apply TryNexts_stale. intros bk. rewrite Hr, Hl.
    destruct (decide (i = N)) as [->|Hne].
    + rewrite Z.mod_same by lia. simpl. by rewrite Hread by lia.
    + rewrite Z.mod_small by lia. rewrite Nat2Z.id.
      rewrite Hfull by lia. unfold slot_after.
      rewrite (lookup_ge_None_2 xs (i + N)) by lia.
      by rewrite (lookup_ge_None_2 xs i) by lia.
  - destruct k as [|k]; [lia|].
    destruct (lookup_lt_is_Some_2 xs i ltac:(lia)) as [x Hx].
    assert (Hidx : Z.to_nat (readIndex d mod Z.of_nat (length (diodes.buffer d))) = i).
    { rewrite Hr, Hl. rewrite Z.mod_small by lia. lia. }
    assert (Hslot : diodes.buffer d !! i = Some (Some {| data := x; seq := Z.of_nat i |})).
    { rewrite Hfull by lia. unfold slot_after.
      rewrite (lookup_ge_None_2 xs (i + N)) by lia. by rewrite Hx. }
    assert (HT : TryNext d =
                 (Some x, None,
                  {| diodes.buffer := <[i := None]> (diodes.buffer d);
                     writeIndex := writeIndex d;
                     readIndex := Z.of_nat (S i) |})).
    { unfold TryNext. cbv zeta. rewrite Hidx, Hslot. simpl. rewrite Hr.
      rewrite Z.ltb_irrefl. simpl.
      assert (uint64 (Z.of_nat i + 1) = Z.of_nat (S i)) as ->; [|done].
      unfold uint64. rewrite Z.mod_small; lia. }
    simpl. rewrite HT.
    destruct (IH (S i) {| diodes.buffer := <[i := None]> (diodes.buffer d);
                          writeIndex := writeIndex d;
                          readIndex := Z.of_nat (S i) |} k) as [Hd Ha];
      [done|done|done|lia| |lia|].
    { split_and!; simpl.
      - done.
      - by rewrite length_insert.
      - intros j Hj. rewrite list_lookup_insert_ne by lia. apply Hfull. lia.
      - intros j Hj. destruct (decide (j = i)) as [->|].
        + rewrite list_lookup_insert_eq by lia. done.
        + rewrite list_lookup_insert_ne by done. apply Hread. lia. }
    destruct (TryNexts k _) as [rs d'']. split; [|exact Ha].
    rewrite (drop_S xs x i) by done.
    change (x :: omap fst rs = x :: drop (S i) xs). by f_equal.
Qed.

(** A fresh ring of capacity [N] that received at most [N] entries
    hands them all to the reader, in the order they were written, and
    never calls the alerter. *)
Lemma within_capacity_TryNexts N xs k :
  (0 < N)%nat → Z.of_nat N < 2 ^ 62 → (length xs ≤ N)%nat → (length xs ≤ k)%nat →
  omap fst (TryNexts k (Sets xs (NewOneToOne (Z.of_nat N)))).1 = xs ∧
  omap snd (TryNexts k (Sets xs (NewOneToOne (Z.of_nat N)))).1 = [].
Proof.
  intros HN Hsmall Hlen Hk.
  destruct (Sets_fresh N xs) as (Hw & Hr & Hl & Hb); [lia..|].
  apply (filling_TryNexts N xs (length xs) 0); [done|done|done|lia| |done].
  split_and!; [done|done| |intros; lia]. intros j Hj. apply Hb. lia.
Qed.

(** [X12]: below the capacity of the ring nothing is lost: when a
    fresh client is sent at most 10,000 envelopes before the flusher
    reads, the flusher's passes read exactly these envelopes, in the
    order they were sent; the dropped counter stays at zero and nothing
    but write failures is logged. *)
Theorem Send_within_capacity_loses_nothing
    (c_Send : list Call → Call → option string) `{Batcher B}
    (ctx : Context) (size0 interval0 : Z) (batcher : B)
    (es : list Envelope) (clock : list Z) :
  Z.of_nat (length es) ≤ 10000 → (length es ≤ length clock)%nat →
  let req := Some {| Envelopes := Some {| Batch := es |}; LocalOnly := false |} in
  let b1 := (Send ctx req (NewBatchedIngressClient size0 interval0)).1 in
  let b2 := (start_loop c_Send clock (b1, batcher)).1 in
  let reads := TryNexts (length clock) (buffer b1) in
  buffer b2 = reads.2 ∧
  omap fst reads.1 = es ∧ omap snd reads.1 = [] ∧
  incDroppedMetric b2 = 0 ∧ Forall write_failure (log b2).
Proof.
  intros Hlen Hclock. cbv zeta.
  set (b0 := NewBatchedIngressClient size0 interval0).
  set (req := Some {| Envelopes := Some {| Batch := es |}; LocalOnly := false |}).
  set (b1 := (Send ctx req b0).1).
  assert (Hb1 : buffer b1 = Sets es (NewOneToOne (Z.of_nat (Z.to_nat 10000)))).
  { unfold b1. rewrite Send_buffer. by rewrite Z2Nat.id by lia. }
  destruct (Send_frame ctx req b0) as (_ & Hlog1 & Hdrop1 & _). fold b1 in Hlog1, Hdrop1.
  destruct (within_capacity_TryNexts (Z.to_nat 10000) es (length clock))
    as [Hreads Halerts]; [lia..|].
  rewrite <-Hb1 in Hreads, Halerts.
  destruct (start_loop_quiet c_Send clock b1 batcher Halerts) as (Hm & errs & Hl & Herrs).
  split_and!; [apply start_loop_ring|done|done|by rewrite Hm, Hdrop1|].
  by rewrite Hl, Hlog1.
Qed.

Lemma Send_within_capacity_loses_nothing_witness :
  let es := [store.buildEnvelope 1 "a"; store.buildEnvelope 2 "b"] in
  let batcher : SizeIntervalBatcher := NewBatcher 100 (250 * Millisecond) in
  let req := Some {| Envelopes := Some {| Batch := es |}; LocalOnly := false |} in
  let b1 := (Send Background req (NewBatchedIngressClient 100 (250 * Millisecond))).1 in
  let b2 := (start_loop (λ _ _, None) [0; 0; 0] (b1, batcher)).1 in
  (Z.of_nat (length es) ≤ 10000 ∧ (length es ≤ length [0; 0; 0])%nat) ∧
  omap fst (TryNexts 3 (buffer b1)).1 = es ∧
  incDroppedMetric b2 = 0 ∧ Forall write_failure (log b2).
Proof.
  cbv zeta.
  set (es := [store.buildEnvelope 1 "a"; store.buildEnvelope 2 "b"]).
  assert (Hlen : Z.of_nat (length es) ≤ 10000) by (simpl; lia).
  assert (Hclock : (length es ≤ length [0; 0; 0])%nat) by (simpl; lia).
  split; [split; [exact Hlen|exact Hclock]|].
  destruct (Send_within_capacity_loses_nothing (λ _ _, None) Background
              100 (250 * Millisecond)
              (NewBatcher 100 (250 * Millisecond) : SizeIntervalBatcher)
              es [0; 0; 0] Hlen Hclock)
    as (_ & Hreads & _ & Hm & Hlog).
  split_and!; [exact Hreads|exact Hm|exact Hlog].
Defined.

End routing_props.

(** ** Groups: [internal/groups.Manager]

    The manager keeps, per group name, the source ids of the group and
    the requesters that read it, and tells its [DataStorage] about every
    change.  The storage is an interface: it is modelled by the calls it
    receives and by what it answers to [Get]. *)

Module groups.

(** The two gRPC status codes the manager uses, and an error made by
    [grpc.Errorf(code, format, ...)]. *)
Inductive Code := InvalidArgument | NotFound.
Record error := { code : Code; message : string }.

(** [logcache.EnvelopeTypes], a protobuf enum (an [int32]): the named
    values, and any other number. *)
Inductive EnvelopeTypes :=
| EnvelopeTypes_ANY
| EnvelopeTypes_LOG
| EnvelopeTypes_COUNTER
| EnvelopeTypes_GAUGE
| EnvelopeTypes_TIMER
| EnvelopeTypes_EVENT
| EnvelopeTypes_other (n : Z).

(** The request and response messages; a request pointer may be [nil],
    and the getters are nil-safe. *)
Module AddToGroupRequest.
Record t := { Name : string; SourceId : string }.
Definition GetName (r : option t) : string := from_option Name "" r.
Definition GetSourceId (r : option t) : string := from_option SourceId "" r.
End AddToGroupRequest.

Module RemoveFromGroupRequest.
Record t := { Name : string; SourceId : string }.
End RemoveFromGroupRequest.

Module GroupReadRequest.
Record t := {
  Name : string;
  RequesterId : Z;
  StartTime : Z;
  EndTime : Z;
  Limit : Z;
  EnvelopeType : EnvelopeTypes;
}.
End GroupReadRequest.

Module GroupRequest.
Record t := { Name : string }.
End GroupRequest.

Inductive AddToGroupResponse := Build_AddToGroupResponse.
Inductive RemoveFromGroupResponse := Build_RemoveFromGroupResponse.
Record GroupReadResponse := { Envelopes : option routing.EnvelopeBatch }.
Record GroupResponse := { SourceIds : list string; RequesterIds : list Z }.

(** A call received by the [DataStorage]; the two [time.Time] arguments
    of [Get] are given by their [UnixNano]. *)
Inductive DataStorage_call :=
| Get (name : string) (start end_ : Z) (envelopeType : store.EnvelopeType)
      (limit : Z) (requesterID : Z)
| Add (name sourceID : string)
| AddRequester (name : string) (requesterID : Z)
| Remove (name sourceID : string)
| RemoveRequester (name : string) (requesterID : Z).

(** [groupInfo]; [requesterIDs] maps a requester to the clock reading
    of its last read. *)
Record groupInfo := {
  sourceIDs : list string;
  requesterIDs : gmap Z Z;
}.

(** [Manager]; [s] is the storage, seen as the calls it has received. *)
Record Manager := {
  m : gmap string groupInfo;
  s : list DataStorage_call;
  requesterTimeout : Z;
}.

Definition NewManager (requesterTimeout : Z) : Manager :=
  {| m := ∅; s := []; requesterTimeout := requesterTimeout |}.

Definition set_m (f : gmap string groupInfo → gmap string groupInfo) (mgr : Manager) : Manager :=
  {| m := f (m mgr); s := s mgr; requesterTimeout := requesterTimeout mgr |}.

(** A method call on the storage. *)
Definition call (c : DataStorage_call) (mgr : Manager) : Manager :=
  {| m := m mgr; s := s mgr ++ [c]; requesterTimeout := requesterTimeout mgr |}.

(** [AddToGroup] creates the given group if it does not exist or adds
    the sourceID if it does. *)
Definition AddToGroup (r : option AddToGroupRequest.t) (mgr : Manager)
    : Manager * (option AddToGroupResponse * option error) :=
  let Name := AddToGroupRequest.GetName r in
  let SourceId := AddToGroupRequest.GetSourceId r in
  if String.eqb Name "" || String.eqb SourceId "" then
    (mgr, (None, Some {| code := InvalidArgument;
                         message := "name and source_id fields are required" |}))
  else if (128 <? String.length Name)%nat || (128 <? String.length SourceId)%nat then
    (mgr, (None, Some {| code := InvalidArgument;
                         message := "name and source_id fields can only be 128 bytes long" |}))
  else
    let gi :=
      match m mgr !! Name with
      | Some gi => gi
      | None => {| sourceIDs := []; requesterIDs := ∅ |}
      end in
    let gi := {| sourceIDs := sourceIDs gi ++ [SourceId]; requesterIDs := requesterIDs gi |} in
    let mgr := set_m (<[Name := gi]>) mgr in
    let mgr := call (Add Name SourceId) mgr in
    (mgr, (Some Build_AddToGroupResponse, None)).

(** The loop of [RemoveFromGroup]: the slice without the first entry
    equal to [x]. *)
Fixpoint remove_first (x : string) (sourceIDs : list string) : list string :=
  match sourceIDs with
  | [] => []
  | y :: ys => if String.eqb y x then ys else y :: remove_first x ys
  end.

(** [RemoveFromGroup] removes a source ID from the given group. If that
    was the last entry, then the group is removed. If the group already
    didn't exist, then it is a nop. *)
Definition RemoveFromGroup (r : option RemoveFromGroupRequest.t) (mgr : Manager)
    : result (Manager * (option RemoveFromGroupResponse * option error)) :=
  match r with
  | None => Panic nil_deref
  | Some r =>
      let Name := RemoveFromGroupRequest.Name r in
      let SourceId := RemoveFromGroupRequest.SourceId r in
      match m mgr !! Name with
      | None => Ok (mgr, (Some Build_RemoveFromGroupResponse, None))
      | Some a =>
          let '(a, mgr) :=
            if bool_decide (SourceId ∈ sourceIDs a)
            then ({| sourceIDs := remove_first SourceId (sourceIDs a);
                     requesterIDs := requesterIDs a |},
                  call (Remove Name SourceId) mgr)
            else (a, mgr) in
          let mgr := set_m (<[Name := a]>) mgr in
          let mgr :=
            if (length (sourceIDs a) =? 0)%nat then set_m (delete Name) mgr else mgr in
          Ok (mgr, (Some Build_RemoveFromGroupResponse, None))
      end
  end.

(** [Group] returns information about the given group; for a group that
    does not exist both slices are empty.  (Go leaves the order in which
    a map is ranged over open: the requester ids are listed as
    [map_to_list] gives them.) *)
Definition Group (r : option GroupRequest.t) (mgr : Manager)
    : result (option GroupResponse * option error) :=
  match r with
  | None => Panic nil_deref
  | Some r =>
      let a :=
        match m mgr !! GroupRequest.Name r with
        | Some a => a
        | None => {| sourceIDs := []; requesterIDs := ∅ |}
        end in
      let reqIds := (map_to_list (requesterIDs a)).*1 in
      Ok (Some {| SourceIds := sourceIDs a; RequesterIds := reqIds |}, None)
  end.

Definition convertEnvelopeType (t : EnvelopeTypes) : store.EnvelopeType :=
  match t with
  | EnvelopeTypes_LOG => store.ptr_Log
  | EnvelopeTypes_COUNTER => store.ptr_Counter
  | EnvelopeTypes_GAUGE => store.ptr_Gauge
  | EnvelopeTypes_TIMER => store.ptr_Timer
  | EnvelopeTypes_EVENT => store.ptr_Event
  | _ => store.nil_type
  end.

(** A [time.Duration] is an [int64]; [Time.Sub] saturates. *)
Definition saturate (d : Z) : Z := Z.max (- 2 ^ 63) (Z.min (2 ^ 63 - 1) d).

(** The clock readings of one [Read]: [stamp] when the requester is
    stamped, [visit k] when the loop over the requesters tests requester
    [k] with [time.Since], and [wall], the [UnixNano] taken for a
    missing end time. *)
Record Clock := { stamp : Z; visit : Z → Z; wall : Z }.

Section Read.
(** What the storage answers to a [Get], given the calls it has
    received before. *)
Context (s_Get : list DataStorage_call → DataStorage_call → list loggregator_v2.Envelope).

(** [time.Since(v) >= m.requesterTimeout] for requester [k]. *)
Definition expired (clock : Clock) (timeout : Z) (k v : Z) : bool :=
  timeout <=? saturate (visit clock k - v).

Definition Read (clock : Clock) (r : option GroupReadRequest.t) (mgr : Manager)
    : result (Manager * (option GroupReadResponse * option error)) :=
  match r with
  | None => Panic nil_deref
  | Some r =>
      let Name := GroupReadRequest.Name r in
      let RequesterId := GroupReadRequest.RequesterId r in
      match m mgr !! Name with
      | None =>
          Ok (mgr, (None, Some {| code := NotFound;
                                  message := "unknown group name: " +:+ Name |}))
      | Some gi =>
          let mgr :=
            if requesterIDs gi !! RequesterId is Some _ then mgr
            else call (AddRequester Name RequesterId) mgr in
          let requesters := <[RequesterId := stamp clock]> (requesterIDs gi) in
          (* Check for expired requesters *)
          let gone :=
            filter (λ kv, expired clock (requesterTimeout mgr) kv.1 kv.2 = true)
                   (map_to_list requesters) in
          let requesters :=
            filter (λ kv, expired clock (requesterTimeout mgr) kv.1 kv.2 = false)
                   requesters in
          let mgr :=
            set_m (<[Name := {| sourceIDs := sourceIDs gi; requesterIDs := requesters |}]>)
                  mgr in
          let mgr := foldl (λ mgr kv, call (RemoveRequester Name kv.1) mgr) mgr gone in
          let EndTime :=
            if GroupReadRequest.EndTime r =? 0 then wall clock
            else GroupReadRequest.EndTime r in
          let Limit :=
            if GroupReadRequest.Limit r =? 0 then 100 else GroupReadRequest.Limit r in
          let get :=
            Get Name (GroupReadRequest.StartTime r) EndTime
                (convertEnvelopeType (GroupReadRequest.EnvelopeType r))
                Limit RequesterId in
          let batch := s_Get (s mgr) get in
          let mgr := call get mgr in
          Ok (mgr, (Some {| Envelopes := Some {| routing.Batch := batch |} |}, None))
      end
  end.
End Read.


(** *** Facts *)

Definition valid (name sourceID : string) : Prop :=
  name ≠ "" ∧ sourceID ≠ "" ∧
  (String.length name ≤ 128)%nat ∧ (String.length sourceID ≤ 128)%nat.

(** The source ids of a group ([nil] for a group that does not exist). *)
Definition sourceIDs_of (mgr : Manager) (name : string) : list string :=
  from_option sourceIDs [] (m mgr !! name).

Definition requesterIDs_of (mgr : Manager) (name : string) : gmap Z Z :=
  from_option requesterIDs ∅ (m mgr !! name).

(** No group is empty. *)
Definition Manager_ok (mgr : Manager) : Prop :=
  ∀ name gi, m mgr !! name = Some gi → sourceIDs gi ≠ [].

(** The states of a manager created with [NewManager]. *)
Inductive reachable (timeout : Z) : Manager → Prop :=
| reachable_NewManager : reachable timeout (NewManager timeout)
| reachable_AddToGroup mgr r :
    reachable timeout mgr → reachable timeout (AddToGroup r mgr).1
| reachable_RemoveFromGroup mgr r mgr' res :
    reachable timeout mgr → RemoveFromGroup r mgr = Ok (mgr', res) →
    reachable timeout mgr'
| reachable_Read s_Get clock mgr r mgr' res :
    reachable timeout mgr → Read s_Get clock r mgr = Ok (mgr', res) →
    reachable timeout mgr'.

Lemma AddToGroup_valid r mgr :
  valid (AddToGroupRequest.GetName r) (AddToGroupRequest.GetSourceId r) →
  AddToGroup r mgr =
  (call (Add (AddToGroupRequest.GetName r) (AddToGroupRequest.GetSourceId r))
     (set_m (<[AddToGroupRequest.GetName r :=
                 {| sourceIDs := sourceIDs_of mgr (AddToGroupRequest.GetName r) ++
                                 [AddToGroupRequest.GetSourceId r];
                    requesterIDs := requesterIDs_of mgr (AddToGroupRequest.GetName r) |}]>)
        mgr),
   (Some Build_AddToGroupResponse, None)).
Proof.
  intros (Hn & Hs & Hln & Hls). unfold AddToGroup. cbv zeta.
  destruct (String.eqb_spec (AddToGroupRequest.GetName r) ""); [done|].
  destruct (String.eqb_spec (AddToGroupRequest.GetSourceId r) ""); [done|]. simpl.
  destruct (Nat.ltb_spec 128 (String.length (AddToGroupRequest.GetName r))); [lia|].
  destruct (Nat.ltb_spec 128 (String.length (AddToGroupRequest.GetSourceId r))); [lia|].
  simpl. unfold sourceIDs_of, requesterIDs_of.
  by destruct (m mgr !! AddToGroupRequest.GetName r).
Qed.

Lemma AddToGroup_invalid r mgr :
  ¬ valid (AddToGroupRequest.GetName r) (AddToGroupRequest.GetSourceId r) →
  ∃ msg, AddToGroup r mgr =
         (mgr, (None, Some {| code := InvalidArgument; message := msg |})).
Proof.
  intros Hv. unfold AddToGroup. cbv zeta.
  destruct (String.eqb_spec (AddToGroupRequest.GetName r) ""); [by eexists|].
  destruct (String.eqb_spec (AddToGroupRequest.GetSourceId r) ""); [by eexists|]. simpl.
  destruct (Nat.ltb_spec 128 (String.length (AddToGroupRequest.GetName r))); [by eexists|].
  destruct (Nat.ltb_spec 128 (String.length (AddToGroupRequest.GetSourceId r)));
    [by eexists|].
  destruct Hv. unfold valid. split_and!; [done|done|lia|lia].
Qed.

(** [X13]: [AddToGroup] accepts a request exactly when name and source
    id are non-empty and at most 128 bytes long.  A rejected request
    (a nil request too) yields an [InvalidArgument] error and changes
    nothing.  An accepted one appends the source id to the group's
    source ids, creating the group if need be, keeps the group's
    requesters, leaves every other group alone, and tells the storage to
    [Add] the source id. *)
Theorem AddToGroup_checks_then_appends r mgr :
  let name := AddToGroupRequest.GetName r in
  let sourceID := AddToGroupRequest.GetSourceId r in
  (¬ valid name sourceID →
   ∃ msg, AddToGroup r mgr =
          (mgr, (None, Some {| code := InvalidArgument; message := msg |}))) ∧
  (valid name sourceID →
   ∃ mgr',
     AddToGroup r mgr = (mgr', (Some Build_AddToGroupResponse, None)) ∧
     sourceIDs_of mgr' name = sourceIDs_of mgr name ++ [sourceID] ∧
     requesterIDs_of mgr' name = requesterIDs_of mgr name ∧
     (∀ other, other ≠ name → m mgr' !! other = m mgr !! other) ∧
     s mgr' = s mgr ++ [Add name sourceID] ∧
     Group (Some {| GroupRequest.Name := name |}) mgr' =
       Ok (Some {| SourceIds := sourceIDs_of mgr name ++ [sourceID];
                   RequesterIds := (map_to_list (requesterIDs_of mgr name)).*1 |}, None)).
Proof.
  cbv zeta. split; [apply AddToGroup_invalid|].
  intros Hv. rewrite (AddToGroup_valid r mgr Hv). eexists. split; [done|].
  split_and!.
  - unfold sourceIDs_of at 1. simpl. by rewrite lookup_insert_eq.
  - unfold requesterIDs_of at 1. simpl. by rewrite lookup_insert_eq.
  - intros other Hne. simpl. by rewrite lookup_insert_ne.
  - done.
  - unfold Group. simpl. by rewrite lookup_insert_eq.
Qed.

Lemma remove_first_appended x l : x ∉ l → remove_first x (l ++ [x]) = l.
Proof.
  induction l as [|y l IH]; intros Hn; simpl.
  - by rewrite String.eqb_refl.
  - apply not_elem_of_cons in Hn as [Hne Hn].
    destruct (String.eqb_spec y x); [done|]. by rewrite IH.
Qed.

Lemma remove_first_sublist x l : remove_first x l `sublist_of` l.
Proof.
  induction l as [|y l IH]; simpl; [done|].
  destruct (String.eqb y x); [by apply sublist_cons|by apply sublist_skip].
Qed.

Lemma Manager_eq mgr mgr' :
  m mgr = m mgr' → s mgr = s mgr' → requesterTimeout mgr = requesterTimeout mgr' →
  mgr = mgr'.
Proof. destruct mgr, mgr'. simpl. by intros -> -> ->. Qed.

(** [X14]: [RemoveFromGroup] undoes [AddToGroup]: adding a source id
    a group does not have yet and removing it again leaves the groups as
    they were (a group created by the addition is deleted again); the
    storage has received the [Add] and then the [Remove]. *)
Theorem RemoveFromGroup_undoes_AddToGroup name sourceID mgr :
  Manager_ok mgr → valid name sourceID → sourceID ∉ sourceIDs_of mgr name →
  let add := Some {| AddToGroupRequest.Name := name;
                     AddToGroupRequest.SourceId := sourceID |} in
  let remove := Some {| RemoveFromGroupRequest.Name := name;
                        RemoveFromGroupRequest.SourceId := sourceID |} in
  ∃ mgr',
    RemoveFromGroup remove (AddToGroup add mgr).1 =
      Ok (mgr', (Some Build_RemoveFromGroupResponse, None)) ∧
    m mgr' = m mgr ∧
    s mgr' = s mgr ++ [Add name sourceID; Remove name sourceID].
Proof.
  intros Hok Hv Hn. cbv zeta.
  rewrite (AddToGroup_valid (Some {| AddToGroupRequest.Name := name;
                                     AddToGroupRequest.SourceId := sourceID |}) mgr Hv).
  unfold RemoveFromGroup. simpl. rewrite lookup_insert_eq. simpl.
  rewrite bool_decide_eq_true_2 by (apply elem_of_app; right; by left).
  rewrite remove_first_appended by done. simpl.
  unfold sourceIDs_of, requesterIDs_of in *.
  destruct (m mgr !! name) as [gi|] eqn:E; simpl in *.
  - destruct (sourceIDs gi) as [|x l] eqn:El; [by apply Hok in E|]. simpl.
    eexists. split; [done|]. simpl. split; [|by rewrite <-app_assoc].
    rewrite insert_insert_eq. apply insert_id. rewrite E. f_equal.
    destruct gi. simpl in *. by subst.
  - eexists. split; [done|]. simpl. split; [|by rewrite <-app_assoc].
    rewrite insert_insert_eq. by rewrite delete_insert_eq, delete_id.
Qed.

Lemma RemoveFromGroup_undoes_AddToGroup_witness :
  let mgr := (AddToGroup (Some {| AddToGroupRequest.Name := "g";
                                  AddToGroupRequest.SourceId := "a" |})
                (NewManager 10)).1 in
  (Manager_ok mgr ∧ valid "g" "b" ∧ "b" ∉ sourceIDs_of mgr "g") ∧
  ∃ mgr',
    RemoveFromGroup (Some {| RemoveFromGroupRequest.Name := "g";
                             RemoveFromGroupRequest.SourceId := "b" |})
      (AddToGroup (Some {| AddToGroupRequest.Name := "g";
                           AddToGroupRequest.SourceId := "b" |}) mgr).1 =
      Ok (mgr', (Some Build_RemoveFromGroupResponse, None)) ∧
    m mgr' = m mgr ∧
    s mgr' = [Add "g" "a"; Add "g" "b"; Remove "g" "b"].
Proof.
  cbv zeta.
  set (mgr := (AddToGroup (Some {| AddToGroupRequest.Name := "g";
                                   AddToGroupRequest.SourceId := "a" |})
                 (NewManager 10)).1).
  assert (Hok : Manager_ok mgr).
  { intros name gi. unfold mgr. simpl.
    destruct (decide (name = "g")) as [->|Hne].
    - rewrite lookup_insert_eq. by intros [= <-].
    - rewrite lookup_insert_ne, lookup_empty by done. done. }
  assert (Hv : valid "g" "b") by (unfold valid; simpl; split_and!; [done|done|lia|lia]).
  assert (Hn : "b" ∉ sourceIDs_of mgr "g").
  { assert (sourceIDs_of mgr "g" = ["a"]) as -> by (vm_compute; reflexivity).
    by intros [=]%list_elem_of_singleton. }
  split; [split_and!; [exact Hok|exact Hv|exact Hn]|].
  destruct (RemoveFromGroup_undoes_AddToGroup "g" "b" mgr Hok Hv Hn) as (mgr' & HR & Hm & Hs).
  exists mgr'. split_and!; [exact HR|exact Hm|exact Hs].
Defined.


(** [X15]: removing what is not there is a no-op: a [RemoveFromGroup]
    for an unknown group, or for a source id the group does not have,
    changes neither the groups nor the storage. *)
Theorem RemoveFromGroup_of_unknown_is_nop name sourceID mgr :
  Manager_ok mgr → sourceID ∉ sourceIDs_of mgr name →
  RemoveFromGroup (Some {| RemoveFromGroupRequest.Name := name;
                           RemoveFromGroupRequest.SourceId := sourceID |}) mgr =
  Ok (mgr, (Some Build_RemoveFromGroupResponse, None)).
Proof.
  intros Hok Hn. unfold RemoveFromGroup. simpl. unfold sourceIDs_of in Hn.
  destruct (m mgr !! name) as [gi|] eqn:E; [|done]. simpl in Hn.
  rewrite bool_decide_eq_false_2 by done.
  destruct (sourceIDs gi) as [|x l] eqn:El; [by apply Hok in E|]. simpl.
  do 2 f_equal. apply Manager_eq; [|done..]. simpl. by apply insert_id.
Qed.

Lemma RemoveFromGroup_of_unknown_is_nop_witness :
  (Manager_ok (NewManager 10) ∧ "a" ∉ sourceIDs_of (NewManager 10) "g") ∧
  RemoveFromGroup (Some {| RemoveFromGroupRequest.Name := "g";
                           RemoveFromGroupRequest.SourceId := "a" |}) (NewManager 10) =
  Ok (NewManager 10, (Some Build_RemoveFromGroupResponse, None)).
Proof.
  assert (Hok : Manager_ok (NewManager 10)).
  { intros name gi Hl. simpl in Hl. by rewrite lookup_empty in Hl. }
  assert (Hn : "a" ∉ sourceIDs_of (NewManager 10) "g") by apply not_elem_of_nil.
  split; [split; [exact Hok|exact Hn]|].
  apply (RemoveFromGroup_of_unknown_is_nop "g" "a" (NewManager 10) Hok Hn).
Defined.


Lemma calls_RemoveRequester name gone : ∀ mgr,
  m (foldl (λ mgr (kv : Z * Z), call (RemoveRequester name kv.1) mgr) mgr gone) = m mgr ∧
  s (foldl (λ mgr (kv : Z * Z), call (RemoveRequester name kv.1) mgr) mgr gone) =
    s mgr ++ (RemoveRequester name <$> gone.*1) ∧
  requesterTimeout (foldl (λ mgr (kv : Z * Z), call (RemoveRequester name kv.1) mgr) mgr gone) =
    requesterTimeout mgr.
Proof.
  induction gone as [|kv gone IH]; intros mgr; simpl.
  - by rewrite app_nil_r.
  - destruct (IH (call (RemoveRequester name kv.1) mgr)) as (-> & -> & ->).
    simpl. by rewrite <-app_assoc.
Qed.

(** The requesters of a group after a [Read] by [id], and the ones the
    [Read] found expired. *)
Definition kept (clock : Clock) (timeout id : Z) (requesters : gmap Z Z) : gmap Z Z :=
  filter (λ kv, expired clock timeout kv.1 kv.2 = false) (<[id := stamp clock]> requesters).

Definition gone (clock : Clock) (timeout id : Z) (requesters : gmap Z Z) : list Z :=
  (filter (λ kv, expired clock timeout kv.1 kv.2 = true)
          (map_to_list (<[id := stamp clock]> requesters))).*1.

(** The [Get] a [Read] sends to the storage. *)
Definition Get_of (clock : Clock) (r : GroupReadRequest.t) : DataStorage_call :=
  Get (GroupReadRequest.Name r) (GroupReadRequest.StartTime r)
      (if GroupReadRequest.EndTime r =? 0 then wall clock else GroupReadRequest.EndTime r)
      (convertEnvelopeType (GroupReadRequest.EnvelopeType r))
      (if GroupReadRequest.Limit r =? 0 then 100 else GroupReadRequest.Limit r)
      (GroupReadRequest.RequesterId r).

Lemma Read_known s_Get clock r mgr gi :
  m mgr !! GroupReadRequest.Name r = Some gi →
  let name := GroupReadRequest.Name r in
  let id := GroupReadRequest.RequesterId r in
  let before :=
    s mgr ++
    (if requesterIDs gi !! id is Some _ then [] else [AddRequester name id]) ++
    (RemoveRequester name <$> gone clock (requesterTimeout mgr) id (requesterIDs gi)) in
  Read s_Get clock (Some r) mgr =
  Ok ({| m := <[name := {| sourceIDs := sourceIDs gi;
                           requesterIDs := kept clock (requesterTimeout mgr) id
                                             (requesterIDs gi) |}]> (m mgr);
         s := before ++ [Get_of clock r];
         requesterTimeout := requesterTimeout mgr |},
      (Some {| Envelopes := Some {| routing.Batch := s_Get before (Get_of clock r) |} |},
       None)).
Proof.
  intros Hgi. cbv zeta. unfold Read. rewrite Hgi. cbv zeta.
  set (mgr1 := if requesterIDs gi !! GroupReadRequest.RequesterId r is Some _ then mgr
               else call (AddRequester (GroupReadRequest.Name r)
                                       (GroupReadRequest.RequesterId r)) mgr).
  assert (H1 : m mgr1 = m mgr ∧ requesterTimeout mgr1 = requesterTimeout mgr ∧
               s mgr1 = s mgr ++
                 (if requesterIDs gi !! GroupReadRequest.RequesterId r is Some _ then []
                  else [AddRequester (GroupReadRequest.Name r)
                                     (GroupReadRequest.RequesterId r)])).
  { unfold mgr1. destruct (requesterIDs gi !! GroupReadRequest.RequesterId r); simpl;
      [by rewrite app_nil_r|done]. }
  destruct H1 as (Hm1 & Ht1 & Hs1). clearbody mgr1.
  match goal with
  | |- context [foldl _ ?mgr0 ?g] =>
      destruct (calls_RemoveRequester (GroupReadRequest.Name r) g mgr0) as (Hm2 & Hs2 & Ht2);
      set (mgr2 := foldl _ mgr0 g) in *
  end.
  simpl in Hm2, Hs2, Ht2. clearbody mgr2.
  unfold call. simpl. rewrite Hm2, Hs2, Ht2, Hm1, Hs1, Ht1.
  unfold gone, kept, Get_of. by rewrite <-!app_assoc.
Qed.

Lemma convertEnvelopeType_supported t : convertEnvelopeType t ≠ store.other_type.
Proof. by destruct t. Qed.

(** [X16]: a [Read] of an unknown group fails with [NotFound] and
    changes nothing.  A [Read] of a known group ends with one [Get] on
    the storage, for the group's name, with the request's start time, its
    end time (the current time when the request has none), its limit
    (100 when the request has none) and the requester id, and with a type
    filter the store supports; the response carries exactly what the
    storage answered. *)
Theorem Read_asks_storage_with_defaults s_Get clock r mgr :
  (m mgr !! GroupReadRequest.Name r = None →
   Read s_Get clock (Some r) mgr =
   Ok (mgr, (None, Some {| code := NotFound;
                           message := "unknown group name: " +:+ GroupReadRequest.Name r |}))) ∧
  (is_Some (m mgr !! GroupReadRequest.Name r) →
   ∃ mgr' before batch,
     Read s_Get clock (Some r) mgr =
       Ok (mgr', (Some {| Envelopes := Some {| routing.Batch := batch |} |}, None)) ∧
     s mgr' = before ++ [Get_of clock r] ∧
     batch = s_Get before (Get_of clock r) ∧
     (∃ calls, before = s mgr ++ calls ∧
               ∀ c, c ∈ calls → ∃ k, c = AddRequester (GroupReadRequest.Name r) k ∨
                                     c = RemoveRequester (GroupReadRequest.Name r) k) ∧
     sourceIDs_of mgr' (GroupReadRequest.Name r) = sourceIDs_of mgr (GroupReadRequest.Name r) ∧
     (∀ other, other ≠ GroupReadRequest.Name r → m mgr' !! other = m mgr !! other)) ∧
  (GroupReadRequest.Limit r = 0 → ∃ n st en ty id, Get_of clock r = Get n st en ty 100 id) ∧
  (GroupReadRequest.EndTime r = 0 →
   ∃ n st ty l id, Get_of clock r = Get n st (wall clock) ty l id) ∧
  (∀ e0, ∃ b, store.checkEnvelopeType e0
                (convertEnvelopeType (GroupReadRequest.EnvelopeType r)) = Ok b).
Proof.
  split_and!.
  - intros Hn. unfold Read. by rewrite Hn.
  - intros [gi Hgi]. rewrite (Read_known s_Get clock r mgr gi Hgi). cbv zeta.
    eexists _, _, _. split; [done|]. simpl. split_and!; [done|done| | |].
    + eexists. split; [done|]. intros c [Hc|Hc]%elem_of_app.
      * destruct (requesterIDs gi !! GroupReadRequest.RequesterId r);
          [by apply elem_of_nil in Hc|].
        apply list_elem_of_singleton in Hc as ->. eauto.
      * apply list_elem_of_fmap in Hc as (k & -> & _). eauto.
    + unfold sourceIDs_of. simpl. by rewrite lookup_insert_eq, Hgi.
    + intros other Hne. by rewrite lookup_insert_ne.
  - intros Hl. unfold Get_of. rewrite Hl. simpl. by eexists _, _, _, _, _.
  - intros He. unfold Get_of. rewrite He. simpl. by eexists _, _, _, _, _.
  - intros e0. rewrite store.checkEnvelopeType_supported; [eauto|].
    apply convertEnvelopeType_supported.
Qed.

(** [X17]: the requesters of a group after a [Read] by requester
    [id]: [id] is stamped with the current time, and then exactly the
    requesters whose last read is [requesterTimeout] or more in the past
    are dropped; the storage is told to [AddRequester] [id] exactly when
    it was not a requester of the group, and to [RemoveRequester] exactly
    the dropped ones.  A reader whose own stamp is younger than the
    timeout remains a requester. *)
Theorem Read_refreshes_and_expires_requesters s_Get clock r mgr gi mgr' res :
  m mgr !! GroupReadRequest.Name r = Some gi →
  Read s_Get clock (Some r) mgr = Ok (mgr', res) →
  let name := GroupReadRequest.Name r in
  let id := GroupReadRequest.RequesterId r in
  let stamped := <[id := stamp clock]> (requesterIDs gi) in
  let calls := drop (length (s mgr)) (s mgr') in
  (∀ k v, requesterIDs_of mgr' name !! k = Some v ↔
          stamped !! k = Some v ∧ saturate (visit clock k - v) < requesterTimeout mgr) ∧
  (AddRequester name id ∈ calls ↔ requesterIDs gi !! id = None) ∧
  (∀ k, RemoveRequester name k ∈ calls ↔
        ∃ v, stamped !! k = Some v ∧ requesterTimeout mgr ≤ saturate (visit clock k - v)) ∧
  (saturate (visit clock id - stamp clock) < requesterTimeout mgr →
   requesterIDs_of mgr' name !! id = Some (stamp clock)).
Proof.
  intros Hgi HR. cbv zeta. rewrite (Read_known s_Get clock r mgr gi Hgi) in HR.
  cbv zeta in HR. injection HR as <- _. simpl.
  rewrite <-!app_assoc, drop_app_length.
  assert (Hkept : ∀ k v,
    requesterIDs_of
      {| m := <[GroupReadRequest.Name r :=
                  {| sourceIDs := sourceIDs gi;
                     requesterIDs := kept clock (requesterTimeout mgr)
                                       (GroupReadRequest.RequesterId r) (requesterIDs gi) |}]>
                (m mgr);
         s := s mgr ++
              (if requesterIDs gi !! GroupReadRequest.RequesterId r is Some _ then []
               else [AddRequester (GroupReadRequest.Name r) (GroupReadRequest.RequesterId r)]) ++
              (RemoveRequester (GroupReadRequest.Name r) <$>
                 gone clock (requesterTimeout mgr) (GroupReadRequest.RequesterId r)
                   (requesterIDs gi)) ++ [Get_of clock r];
         requesterTimeout := requesterTimeout mgr |} (GroupReadRequest.Name r) !! k = Some v ↔
    <[GroupReadRequest.RequesterId r := stamp clock]> (requesterIDs gi) !! k = Some v ∧
    saturate (visit clock k - v) < requesterTimeout mgr).
  { intros k v. unfold requesterIDs_of. simpl. rewrite lookup_insert_eq. simpl.
    unfold kept. rewrite map_lookup_filter_Some. simpl. unfold expired.
    rewrite Z.leb_gt. done. }
  split_and!.
  - exact Hkept.
  - rewrite !elem_of_app. split.
    + intros [Hin|[Hin|Hin]].
      * destruct (requesterIDs gi !! GroupReadRequest.RequesterId r); [|done].
        by apply elem_of_nil in Hin.
      * by apply list_elem_of_fmap in Hin as (k & [=] & _).
      * apply list_elem_of_singleton in Hin. by unfold Get_of in Hin.
    + intros ->. left. by left.
  - intros k. rewrite !elem_of_app. split.
    + intros [Hin|[Hin|Hin]].
      * destruct (requesterIDs gi !! GroupReadRequest.RequesterId r);
          [by apply elem_of_nil in Hin|].
        by apply list_elem_of_singleton in Hin.
      * apply list_elem_of_fmap in Hin as (k' & [= <-] & Hin). unfold gone in Hin.
        apply list_elem_of_fmap in Hin as ([k' v] & -> & Hin).
        apply list_elem_of_filter in Hin as [Hex Hin]. apply elem_of_map_to_list in Hin.
        exists v. split; [done|]. unfold expired in Hex. simpl in Hex. by apply Z.leb_le.
      * apply list_elem_of_singleton in Hin. by unfold Get_of in Hin.
    + intros (v & Hv & Hex). right. left. apply list_elem_of_fmap. exists k. split; [done|].
      unfold gone. apply list_elem_of_fmap. exists (k, v). split; [done|].
      apply list_elem_of_filter. split; [|by apply elem_of_map_to_list].
      unfold expired. simpl. by apply Z.leb_le.
  - intros Hyoung. apply Hkept. split; [by rewrite lookup_insert_eq|done].
Qed.

Lemma Read_refreshes_and_expires_requesters_witness :
  let mgr := (AddToGroup (Some {| AddToGroupRequest.Name := "g";
                                  AddToGroupRequest.SourceId := "a" |})
                (NewManager 10)).1 in
  let gi := {| sourceIDs := ["a"]; requesterIDs := ∅ |} in
  let clock := {| stamp := 100; visit := λ _, 101; wall := 5 |} in
  let r := {| GroupReadRequest.Name := "g"; GroupReadRequest.RequesterId := 7;
              GroupReadRequest.StartTime := 0; GroupReadRequest.EndTime := 0;
              GroupReadRequest.Limit := 0;
              GroupReadRequest.EnvelopeType := EnvelopeTypes_ANY |} in
  let out := Read (λ _ _, []) clock (Some r) mgr in
  ∃ mgr' res,
    (m mgr !! "g" = Some gi ∧ out = Ok (mgr', res)) ∧
    s mgr' = [Add "g" "a"; AddRequester "g" 7; Get "g" 0 5 store.nil_type 100 7] ∧
    requesterIDs_of mgr' "g" !! 7 = Some 100.
Proof.
  cbv zeta.
  set (mgr := (AddToGroup (Some {| AddToGroupRequest.Name := "g";
                                   AddToGroupRequest.SourceId := "a" |})
                 (NewManager 10)).1).
  set (gi := {| sourceIDs := ["a"]; requesterIDs := ∅ |}).
  set (clock := {| stamp := 100; visit := λ _, 101; wall := 5 |}).
  set (r := {| GroupReadRequest.Name := "g"; GroupReadRequest.RequesterId := 7;
               GroupReadRequest.StartTime := 0; GroupReadRequest.EndTime := 0;
               GroupReadRequest.Limit := 0;
               GroupReadRequest.EnvelopeType := EnvelopeTypes_ANY |}).
  assert (Hgi : m mgr !! GroupReadRequest.Name r = Some gi).
  { unfold mgr. simpl. by rewrite lookup_insert_eq. }
  pose proof (Read_known (λ _ _, []) clock r mgr gi Hgi) as HR. cbv zeta in HR.
  eexists _, _. split; [split; [exact Hgi|exact HR]|].
  split; [vm_compute; reflexivity|].
  destruct (Read_refreshes_and_expires_requesters (λ _ _, []) clock r mgr gi _ _ Hgi HR)
    as (_ & _ & _ & Hyoung).
  apply Hyoung. vm_compute. reflexivity.
Defined.


(** [X18]: the manager never keeps an empty group, and every name
    and source id it keeps has passed the check of [AddToGroup]: in
    every state reached from [NewManager], each group has at least one
    source id, and names and source ids are non-empty and at most 128
    bytes long. *)
Theorem groups_are_never_empty timeout mgr :
  reachable timeout mgr →
  requesterTimeout mgr = timeout ∧
  ∀ name gi, m mgr !! name = Some gi →
    sourceIDs gi ≠ [] ∧ Forall (valid name) (sourceIDs gi).
Proof.
  induction 1 as [|mgr r _ [Ht IH]|mgr r mgr' res _ [Ht IH] HR
                  |s_Get clock mgr r mgr' res _ [Ht IH] HR].
  - split; [done|]. intros name gi Hl. simpl in Hl. by rewrite lookup_empty in Hl.
  - destruct (decide (valid (AddToGroupRequest.GetName r) (AddToGroupRequest.GetSourceId r)))
      as [Hv|Hv].
    + rewrite (AddToGroup_valid r mgr Hv). simpl. split; [done|]. intros name gi.
      destruct (decide (name = AddToGroupRequest.GetName r)) as [->|Hne].
      * rewrite lookup_insert_eq. intros [= <-]. simpl. split.
        { by destruct (sourceIDs_of mgr (AddToGroupRequest.GetName r)). }
        apply Forall_app. split; [|by apply Forall_singleton].
        unfold sourceIDs_of. destruct (m mgr !! AddToGroupRequest.GetName r) eqn:E; [|done].
        by apply (IH _ _ E).
      * rewrite lookup_insert_ne by done. apply IH.
    + destruct (AddToGroup_invalid r mgr Hv) as [msg ->]. by split.
  - unfold RemoveFromGroup in HR. destruct r as [r|]; [|done].
    destruct (m mgr !! RemoveFromGroupRequest.Name r) as [a|] eqn:E.
    2:{ injection HR as <- _. by split. }
    destruct (IH _ _ E) as [Hne Hall].
    set (a' := if bool_decide (RemoveFromGroupRequest.SourceId r ∈ sourceIDs a)
               then {| sourceIDs := remove_first (RemoveFromGroupRequest.SourceId r) (sourceIDs a);
                       requesterIDs := requesterIDs a |}
               else a).
    assert (Ha' : Forall (valid (RemoveFromGroupRequest.Name r)) (sourceIDs a')).
    { unfold a'. destruct (bool_decide _); [|done]. simpl.
      rewrite Forall_forall in Hall |- *. intros x Hx. apply Hall.
      eapply elem_of_sublist; [done|apply remove_first_sublist]. }
    assert (Hm' : requesterTimeout mgr' = timeout ∧
                  m mgr' = if (length (sourceIDs a') =? 0)%nat
                           then delete (RemoveFromGroupRequest.Name r)
                                  (<[RemoveFromGroupRequest.Name r := a']> (m mgr))
                           else <[RemoveFromGroupRequest.Name r := a']> (m mgr)).
    { unfold a'. destruct (bool_decide _); simpl in HR.
      - destruct (length _ =? 0)%nat; injection HR as <- _; by split.
      - destruct (length _ =? 0)%nat; injection HR as <- _; by split. }
    destruct Hm' as [Ht' ->]. split; [done|]. intros name gi.
    destruct (decide (name = RemoveFromGroupRequest.Name r)) as [->|Hne'].
    + destruct (Nat.eqb_spec (length (sourceIDs a')) 0) as [Hz|Hz].
      * by rewrite lookup_delete_eq.
      * rewrite lookup_insert_eq. intros [= <-]. split; [|done].
        intros Hnil. by rewrite Hnil in Hz.
    + destruct (length (sourceIDs a') =? 0)%nat.
      * rewrite lookup_delete_ne, lookup_insert_ne by done. apply IH.
      * rewrite lookup_insert_ne by done. apply IH.
  - destruct r as [r|]; [|done].
    destruct (m mgr !! GroupReadRequest.Name r) as [gi0|] eqn:E.
    2:{ unfold Read in HR. rewrite E in HR. injection HR as <- _. by split. }
    rewrite (Read_known s_Get clock r mgr gi0 E) in HR. cbv zeta in HR.
    injection HR as <- _. simpl. split; [done|]. intros name gi.
    destruct (decide (name = GroupReadRequest.Name r)) as [->|Hne].
    + rewrite lookup_insert_eq. intros [= <-]. simpl. by apply (IH _ _ E).
    + rewrite lookup_insert_ne by done. apply IH.
Qed.

Lemma groups_are_never_empty_witness :
  let mgr := (AddToGroup (Some {| AddToGroupRequest.Name := "g";
                                  AddToGroupRequest.SourceId := "a" |})
                (NewManager 10)).1 in
  reachable 10 mgr ∧
  m mgr !! "g" = Some {| sourceIDs := ["a"]; requesterIDs := ∅ |} ∧
  requesterTimeout mgr = 10 ∧
  ∀ name gi, m mgr !! name = Some gi →
    sourceIDs gi ≠ [] ∧ Forall (valid name) (sourceIDs gi).
Proof.
  cbv zeta.
  assert (Hr : reachable 10 (AddToGroup (Some {| AddToGroupRequest.Name := "g";
                                                 AddToGroupRequest.SourceId := "a" |})
                               (NewManager 10)).1)
    by (apply reachable_AddToGroup; constructor).
  split; [exact Hr|]. split; [simpl; by rewrite lookup_insert_eq|].
  apply (groups_are_never_empty 10 _ Hr).
Defined.


End groups.

(** ** PromQL series: [internal/promql]

    The iterator the PromQL engine reads a series with, and Go's
    [sort.Search], which its [Seek] is built on.  Sample values are
    [float64]s the iterator only passes on: their type is left open. *)

Module sort.

(** [h := int(uint(i+j) >> 1)]: the sum is taken in 64-bit unsigned
    arithmetic. *)
Definition midpoint (i j : Z) : Z := Z.shiftr ((i + j) mod 2 ^ 64) 1.

(** The loop of [Search]; it runs at most [j - i] rounds, which is the
    [fuel] it is started with.  [f] may panic. *)
Fixpoint Search_loop (fuel : nat) (f : Z → result bool) (i j : Z) : result Z :=
  match fuel with
  | O => Ok i
  | S fuel' =>
      if i <? j then
        let h := midpoint i j in
        b ← f h;
        if negb b then Search_loop fuel' f (h + 1) j
        else Search_loop fuel' f i h
      else Ok i
  end.

(** [Search(n, f)]: the smallest index [i] in [[0, n)] at which [f(i)]
    is true, [n] if there is none, for an [f] that is false on a prefix
    and true on the rest. *)
Definition Search (n : Z) (f : Z → result bool) : result Z :=
  Search_loop (Z.to_nat n) f 0 n.

Lemma midpoint_between i j :
  0 ≤ i → i < j → j < 2 ^ 63 → i ≤ midpoint i j < j.
Proof.
  intros Hi Hij Hj. unfold midpoint. rewrite Z.mod_small by lia.
  rewrite Z.shiftr_div_pow2 by lia. change (2 ^ 1) with 2.
  split; [apply Z.div_le_lower_bound; lia|apply Z.div_lt_upper_bound; lia].
Qed.

(** Binary search: if [f] does not panic on [[0, n)], is false below
    [k] and true from [k] on, [Search] returns [k]. *)
Lemma Search_loop_correct (f : Z → result bool) (g : Z → bool) k fuel : ∀ i j,
  (∀ x, i ≤ x < j → f x = Ok (g x)) →
  (∀ x, i ≤ x < j → g x = true ↔ k ≤ x) →
  0 ≤ i → i ≤ k ≤ j → j < 2 ^ 63 → (Z.to_nat (j - i) ≤ fuel)%nat →
  Search_loop fuel f i j = Ok k.
Proof.
  induction fuel as [|fuel IH]; intros i j Hf Hg Hi Hk Hj Hfuel; simpl.
  - f_equal. lia.
  - destruct (Z.ltb_spec i j) as [Hlt|Hge]; [|f_equal; lia].
    pose proof (midpoint_between i j Hi Hlt Hj) as Hh.
    rewrite Hf by lia. cbn [mbind result_bind].
    destruct (g (midpoint i j)) eqn:E; simpl.
    + apply Hg in E; [|lia]. apply IH; [..|lia].
      * intros x Hx. apply Hf. lia.
      * intros x Hx. apply Hg. lia.
      * done.
      * lia.
      * lia.
    + assert (¬ k ≤ midpoint i j) as Hn.
      { intros Hle. apply Hg in Hle; [|lia]. congruence. }
      apply IH; [..|lia].
      * intros x Hx. apply Hf. lia.
      * intros x Hx. apply Hg. lia.
      * lia.
      * lia.
      * done.
Qed.

End sort.

Module promql.
Section series.
Context {float64 : Type}.

Record sample := { t : Z; v : float64 }.

Record concreteSeries := {
  labels : list (string * string);
  samples : list sample;
}.

Record concreteSeriesIterator := {
  cur : Z;
  series : concreteSeries;
}.

(** [len(s)] and [s[i]] of a Go slice. *)
Definition len {A} (l : list A) : Z := Z.of_nat (length l).

Definition at_index {A} (l : list A) (i : Z) : result A :=
  if (0 <=? i) && (i <? len l) then
    match l !! Z.to_nat i with
    | Some x => Ok x
    | None => Panic "index out of range"
    end
  else Panic "index out of range".

Definition newConcreteSeriersIterator (series : concreteSeries) : concreteSeriesIterator :=
  {| cur := -1; series := series |}.

(** [Seek] implements [storage.SeriesIterator]. *)
Definition Seek (t0 : Z) (c : concreteSeriesIterator) : result (concreteSeriesIterator * bool) :=
  cur' ← sort.Search (len (samples (series c)))
            (λ n, s ← at_index (samples (series c)) n; Ok (t0 <=? t s));
  Ok ({| cur := cur'; series := series c |}, cur' <? len (samples (series c))).

(** [At] implements [storage.SeriesIterator]. *)
Definition At (c : concreteSeriesIterator) : result (Z * float64) :=
  s ← at_index (samples (series c)) (cur c);
  Ok (t s, v s).

(** [Next] implements [storage.SeriesIterator]. *)
Definition Next (c : concreteSeriesIterator) : concreteSeriesIterator * bool :=
  let c := {| cur := cur c + 1; series := series c |} in
  (c, cur c <? len (samples (series c))).

(** The loop [for it.Next() { t, v := it.At(); ... }], run for at most
    [fuel] rounds: the samples it reads. *)
Fixpoint drain (fuel : nat) (c : concreteSeriesIterator) : result (list (Z * float64)) :=
  match fuel with
  | O => Ok []
  | S fuel' =>
      let '(c, more) := Next c in
      if more : bool then
        x ← At c;
        rest ← drain fuel' c;
        Ok (x :: rest)
      else Ok []
  end.

(** The samples are in time order (several may share a timestamp). *)
Definition in_time_order (l : list sample) : Prop :=
  ∀ i j a b, l !! i = Some a → l !! j = Some b → (i ≤ j)%nat → t a ≤ t b.

(** The number of samples before [t0]. *)
Definition before (t0 : Z) (l : list sample) : Z :=
  len (filter (λ s, t s < t0) l).

Lemma at_index_lookup {A} (l : list A) i x :
  l !! i = Some x → at_index l (Z.of_nat i) = Ok x.
Proof.
  intros Hl. unfold at_index, len. pose proof (lookup_lt_Some _ _ _ Hl).
  destruct (Z.leb_spec 0 (Z.of_nat i)); [|lia].
  destruct (Z.ltb_spec (Z.of_nat i) (Z.of_nat (length l))); [|lia]. simpl.
  by rewrite Nat2Z.id, Hl.
Qed.

Lemma before_bounds t0 l : 0 ≤ before t0 l ≤ len l.
Proof.
  unfold before, len. pose proof (length_filter (λ s, t s < t0) l). lia.
Qed.

(** In a list in time order the samples before [t0] are a prefix. *)
Lemma before_prefix t0 l i a :
  in_time_order l → l !! i = Some a → (Z.of_nat i < before t0 l ↔ t a < t0).
Proof.
  unfold before, len. revert i. induction l as [|b l IH]; intros i Hord Hl; [done|].
  assert (Hord' : in_time_order l).
  { intros i' j' a' b' Hi' Hj' Hle. apply (Hord (S i') (S j')); [done|done|lia]. }
  destruct (decide (t b < t0)) as [Hb|Hb].
  - rewrite filter_cons_True by done. simpl length.
    destruct i as [|i]; simpl in Hl.
    + injection Hl as <-. split; [done|lia].
    + rewrite <-(IH i Hord' Hl). lia.
  - rewrite filter_cons_False by done.
    assert (filter (λ s, t s < t0) l = []) as Hnone.
    { apply store_props.filter_none. apply Forall_forall. intros c Hc.
      apply list_elem_of_lookup in Hc as [j Hj].
      pose proof (Hord 0%nat (S j) b c eq_refl Hj ltac:(lia)). lia. }
    rewrite Hnone. simpl. split; [lia|]. intros Ha.
    pose proof (Hord 0%nat i b a eq_refl Hl ltac:(lia)). lia.
Qed.

(** [X19]: [Seek] is a binary search: on samples in time order it
    never indexes out of range and moves the iterator to the first
    sample at or after [t]; it returns true when there is one, and
    [At] then yields that sample. *)
Theorem Seek_finds_first_sample_not_before t0 c :
  in_time_order (samples (series c)) → len (samples (series c)) < 2 ^ 63 →
  let k := before t0 (samples (series c)) in
  Seek t0 c = Ok ({| cur := k; series := series c |}, k <? len (samples (series c))) ∧
  (∀ i a, samples (series c) !! i = Some a → (Z.of_nat i < k ↔ t a < t0)) ∧
  (k < len (samples (series c)) →
   ∃ a, samples (series c) !! Z.to_nat k = Some a ∧ t0 ≤ t a ∧
        At {| cur := k; series := series c |} = Ok (t a, v a)).
Proof.
  intros Hord Hlen. cbv zeta.
  set (l := samples (series c)) in *.
  pose proof (before_bounds t0 l) as Hk.
  assert (Hprefix : ∀ i a, l !! i = Some a → (Z.of_nat i < before t0 l ↔ t a < t0))
    by (intros i a; by apply before_prefix).
  split_and!.
  - unfold Seek. fold l. unfold sort.Search.
    rewrite (sort.Search_loop_correct _
               (λ n, from_option (λ a, t0 <=? t a) false (l !! Z.to_nat n))
               (before t0 l)); [done|..].
    + intros x Hx. unfold len in Hx.
      destruct (lookup_lt_is_Some_2 l (Z.to_nat x) ltac:(lia)) as [a Ha].
      rewrite <-(Z2Nat.id x) at 1 by lia.
      rewrite (at_index_lookup l _ a Ha). cbn [mbind result_bind]. by rewrite Ha.
    + intros x Hx. unfold len in Hx.
      destruct (lookup_lt_is_Some_2 l (Z.to_nat x) ltac:(lia)) as [a Ha].
      rewrite Ha. simpl. rewrite Z.leb_le.
      pose proof (Hprefix _ a Ha). lia.
    + done.
    + lia.
    + done.
    + unfold len. lia.
  - done.
  - intros Hlt. unfold len in Hlt, Hk.
    destruct (lookup_lt_is_Some_2 l (Z.to_nat (before t0 l)) ltac:(lia)) as [a Ha].
    exists a. split; [done|]. split.
    + pose proof (Hprefix _ a Ha). lia.
    + unfold At. simpl. fold l. rewrite <-(Z2Nat.id (before t0 l)) by lia.
      by rewrite (at_index_lookup l _ a Ha).
Qed.

(** [X20]: [Next] and [At] read the samples in order: the loop
    [for it.Next() { it.At() }] on an iterator that stands at index
    [cur] reads the samples from index [cur + 1] to the last, without
    indexing out of range, and then [Next] returns false; from a new
    iterator these are all samples of the series. *)
Theorem Next_At_read_samples_in_order fuel : ∀ c,
  -1 ≤ cur c → (length (samples (series c)) - Z.to_nat (cur c + 1) ≤ fuel)%nat →
  drain fuel c =
  Ok ((λ s, (t s, v s)) <$> drop (Z.to_nat (cur c + 1)) (samples (series c))).
Proof.
  induction fuel as [|fuel IH]; intros c Hcur Hfuel.
  - simpl. rewrite drop_ge by lia. done.
  - simpl. unfold len.
    destruct (Z.ltb_spec (cur c + 1) (Z.of_nat (length (samples (series c))))) as [Hlt|Hge].
    + destruct (lookup_lt_is_Some_2 (samples (series c)) (Z.to_nat (cur c + 1)) ltac:(lia))
        as [a Ha].
      unfold At. simpl. rewrite <-(Z2Nat.id (cur c + 1)) at 1 by lia.
      rewrite (at_index_lookup _ _ a Ha). cbn [mbind result_bind].
      rewrite (IH {| cur := cur c + 1; series := series c |}); simpl; [|lia|lia].
      cbn [mbind result_bind].
      rewrite (drop_S _ a (Z.to_nat (cur c + 1))) by done.
      replace (Z.to_nat (cur c + 1 + 1)) with (S (Z.to_nat (cur c + 1))) by lia.
      by rewrite fmap_cons.
    + rewrite drop_ge by lia. done.
Qed.

End series.

Lemma Seek_finds_first_sample_not_before_witness :
  let l := [ {| t := 10; v := 1 |}; {| t := 20; v := 2 |}; {| t := 20; v := 3 |};
             {| t := 30; v := 4 |} ] in
  let c := newConcreteSeriersIterator {| labels := []; samples := l |} in
  (in_time_order l ∧ len l < 2 ^ 63) ∧
  Seek 15 c = Ok ({| cur := 1; series := series c |}, true) ∧
  At {| cur := 1; series := series c |} = Ok (20, 2) ∧
  Seek 15 c = Ok ({| cur := before 15 l; series := series c |}, before 15 l <? len l).
Proof.
  cbv zeta.
  set (l := [ {| t := 10; v := 1 |}; {| t := 20; v := 2 |}; {| t := 20; v := 3 |};
              {| t := 30; v := 4 |} ]).
  assert (Hord : in_time_order l).
  { intros i j a b Hi Hj Hle.
    destruct i as [|[|[|[|i]]]]; simpl in Hi; try done; injection Hi as <-;
      destruct j as [|[|[|[|j]]]]; simpl in Hj; try done; injection Hj as <-;
      simpl; lia. }
  assert (Hlen : len l < 2 ^ 63) by (vm_compute; reflexivity).
  split; [split; [exact Hord|exact Hlen]|].
  split; [vm_compute; reflexivity|]. split; [vm_compute; reflexivity|].
  destruct (Seek_finds_first_sample_not_before 15
              (newConcreteSeriersIterator {| labels := []; samples := l |}) Hord Hlen)
    as (HS & _).
  exact HS.
Defined.

Lemma Next_At_read_samples_in_order_witness :
  let l := [ {| t := 10; v := 1 |}; {| t := 20; v := 2 |}; {| t := 30; v := 4 |} ] in
  let c := newConcreteSeriersIterator {| labels := []; samples := l |} in
  (-1 ≤ cur c ∧ (length (samples (series c)) - Z.to_nat (cur c + 1) ≤ 5)%nat) ∧
  drain 5 c = Ok [(10, 1); (20, 2); (30, 4)].
Proof.
  cbv zeta.
  set (c := newConcreteSeriersIterator
              {| labels := [];
                 samples := [ {| t := 10; v := 1 |}; {| t := 20; v := 2 |};
                              {| t := 30; v := 4 |} ] |}).
  assert (H1 : -1 ≤ cur c) by (simpl; lia).
  assert (H2 : (length (samples (series c)) - Z.to_nat (cur c + 1) ≤ 5)%nat)
    by (simpl; lia).
  split; [split; [exact H1|exact H2]|].
  exact (Next_At_read_samples_in_order 5 c H1 H2).
Defined.

End promql.
